(** * Timeline fan-out and multi-store feed assembly

    A shallow embedding of the request handlers of the server
    (routes/likes.js, routes/users.js, routes/reels.js,
    routes/comments.js, routes/stories.js) together with the parts of
    the four backing stores they rely on (Redis, MongoDB, Neo4j,
    Cassandra).

    Every handler is a function from the stores (and the request) to the
    new stores and the JSON response.  A [try]/[catch] of the source is
    a match on the fallible store operation; which operations throw is
    decided by an environment record, so that the fallback paths of the
    source can be exercised. *)

From Stdlib Require Import ZArith String Ascii List Bool Lia.
From Stdlib Require Import DecimalString DecimalZ DecimalPos.
From stdpp Require Import gmap strings list fin_maps sorting.

Local Open Scope string_scope.
Local Open Scope list_scope.
Local Open Scope Z_scope.

(** ** JavaScript values and built-ins used by the handlers *)

Module Js.

(** Truthiness of a value that is either [undefined]/[null] or a
    string: the empty string is falsy. *)
Definition truthy (v : option string) : bool :=
  match v with
  | Some s => negb (String.eqb s "")
  | None => false
  end.

(** [v || d] on such a value. *)
Definition or_str (v : option string) (d : string) : string :=
  match v with
  | Some s => if String.eqb s "" then d else s
  | None => d
  end.

(** [String.prototype.includes]. *)
Fixpoint includes (s sub : string) : bool :=
  String.prefix sub s ||
  match s with
  | EmptyString => false
  | String _ s' => includes s' sub
  end.

(** White space skipped by [parseInt] (the ASCII part of it). *)
Definition is_ws (c : ascii) : bool :=
  let n := nat_of_ascii c in
  (Nat.eqb n 32 || Nat.eqb n 9 || Nat.eqb n 10 || Nat.eqb n 11
   || Nat.eqb n 12 || Nat.eqb n 13)%bool.

Fixpoint skip_ws (s : string) : string :=
  match s with
  | String c s' => if is_ws c then skip_ws s' else s
  | EmptyString => s
  end.

Definition digit_val (radix : Z) (c : ascii) : option Z :=
  let n := Z.of_nat (nat_of_ascii c) in
  let d :=
    if (48 <=? n) && (n <=? 57) then Some (n - 48)
    else if (97 <=? n) && (n <=? 122) then Some (n - 87)
    else if (65 <=? n) && (n <=? 90) then Some (n - 55)
    else None in
  match d with
  | Some v => if v <? radix then Some v else None
  | None => None
  end.

(** The longest prefix of digits, read left to right; [None] when there
    is no digit at all. *)
Fixpoint digits_prefix (radix : Z) (s : string) (acc : option Z) : option Z :=
  match s with
  | String c s' =>
      match digit_val radix c with
      | Some d =>
          digits_prefix radix s'
            (Some (match acc with Some a => a | None => 0 end * radix + d))
      | None => acc
      end
  | EmptyString => acc
  end.

(** [parseInt(s)] without a radix argument; [None] is [NaN]. *)
Definition parseInt (s : string) : option Z :=
  let s0 := skip_ws s in
  let '(sign, s1) :=
    match s0 with
    | String "-" r => (-1, r)
    | String "+" r => (1, r)
    | _ => (1, s0)
    end in
  let '(radix, s2) :=
    match s1 with
    | String "0" (String "x" r) => (16, r)
    | String "0" (String "X" r) => (16, r)
    | _ => (10, s1)
    end in
  option_map (Z.mul sign) (digits_prefix radix s2 None).

(** [n || d] on a number: [NaN] and [0] are falsy. *)
Definition or_num (n : option Z) (d : Z) : Z :=
  match n with
  | Some v => if v =? 0 then d else v
  | None => d
  end.

(** [arr.slice(0, e)]: a negative end counts from the end. *)
Definition slice0 {A} (e : Z) (l : list A) : list A :=
  if e <? 0 then take (Z.to_nat (Z.of_nat (length l) + e)) l
  else take (Z.to_nat e) l.

(** Decimal form of an integer, and the integer of a string that is
    exactly such a form (no sign [+], no leading zero, no [-0]). *)
Definition show_int (z : Z) : string := NilZero.string_of_int (Z.to_int z).

Definition canonical_int (s : string) : option Z :=
  match NilZero.int_of_string s with
  | Some d =>
      let z := Z.of_int d in
      if String.eqb (show_int z) s then Some z else None
  | None => None
  end.

(** An object used as a dictionary: its own string-keyed properties in
    creation order.  [obj_get] and [obj_set] read and write own
    properties only.  On an object created by [{}], [o[k]] also finds
    the properties that are inherited from [Object.prototype] (their
    names are listed in [inherited]): see [obj_read] and [obj_assign]. *)
Definition obj (V : Type) : Type := list (string * V).

Definition inherited : list string :=
  ["constructor"; "__proto__"; "hasOwnProperty"; "isPrototypeOf";
   "propertyIsEnumerable"; "toLocaleString"; "toString"; "valueOf";
   "__defineGetter__"; "__defineSetter__"; "__lookupGetter__";
   "__lookupSetter__"].

Fixpoint obj_get {V} (o : obj V) (k : string) : option V :=
  match o with
  | [] => None
  | (k', v) :: o' => if decide (k' = k) then Some v else obj_get o' k
  end.

(** [o[k] = v]: an existing property keeps its place. *)
Fixpoint obj_set {V} (o : obj V) (k : string) (v : V) : obj V :=
  match o with
  | [] => [(k, v)]
  | (k', v') :: o' =>
      if decide (k' = k) then (k, v) :: o' else (k', v') :: obj_set o' k v
  end.

(** A key that is an array index: the canonical decimal form of an
    integer between 0 and 2^32 - 2. *)
Definition array_index (s : string) : option Z :=
  match canonical_int s with
  | Some z => if (0 <=? z) && (z <=? 2 ^ 32 - 2) then Some z else None
  | None => None
  end.

Definition index_of (s : string) : Z :=
  match array_index s with Some z => z | None => 0 end.

Fixpoint insert_index {V} (e : string * V) (l : list (string * V))
  : list (string * V) :=
  match l with
  | [] => [e]
  | x :: l' =>
      if index_of e.1 <? index_of x.1 then e :: x :: l'
      else x :: insert_index e l'
  end.

(** [Object.entries(o)]: array-index keys first, in ascending numeric
    order, then the other keys in creation order. *)
Definition entries {V} (o : obj V) : list (string * V) :=
  foldr insert_index [] (filter (λ e, is_Some (array_index e.1)) o)
  ++ filter (λ e, ¬ is_Some (array_index e.1)) o.

(** [arr.sort((a, b) => b[1] - a[1])]: descending by the second
    component; the sort is stable. *)
Fixpoint insert_desc {K} (e : K * Z) (l : list (K * Z)) : list (K * Z) :=
  match l with
  | [] => [e]
  | x :: l' =>
      if x.2 <=? e.2 then e :: x :: l' else x :: insert_desc e l'
  end.

Definition sort_desc {K} (l : list (K * Z)) : list (K * Z) :=
  foldr insert_desc [] l.

(** [Promise.all(xs.map(f))] when [f] only reads: slot [i] of the
    result array is filled when the [i]-th promise settles, and the
    promises settle in the order [order]. *)
Definition settle {A B} (f : A → B) (xs : list A) (order : list nat)
  : list (option B) :=
  foldl (λ arr i,
           match xs !! i with
           | Some x => <[i := Some (f x)]> arr
           | None => arr
           end)
        (replicate (length xs) None) order.

(** [s.trim()] on the bytes of a UTF-8 string.  What is removed at both
    ends is the white space and the line terminators of the language:
    TAB, LF, VT, FF, CR and SP, and, on two bytes, U+00A0, on three
    bytes, U+1680, U+2000 to U+200A, U+2028, U+2029, U+202F, U+205F,
    U+3000 and U+FEFF. *)
Definition wide2 (c1 c2 : ascii) : bool :=
  (Nat.eqb (nat_of_ascii c1) 194 && Nat.eqb (nat_of_ascii c2) 160)%bool.

Definition wide3 (c1 c2 c3 : ascii) : bool :=
  let n1 := nat_of_ascii c1 in
  let n2 := nat_of_ascii c2 in
  let n3 := nat_of_ascii c3 in
  (Nat.eqb n1 225 && Nat.eqb n2 154 && Nat.eqb n3 128
   || Nat.eqb n1 226 && Nat.eqb n2 128
      && ((128 <=? n3) && (n3 <=? 138) || Nat.eqb n3 168 || Nat.eqb n3 169
          || Nat.eqb n3 175)
   || Nat.eqb n1 226 && Nat.eqb n2 129 && Nat.eqb n3 159
   || Nat.eqb n1 227 && Nat.eqb n2 128 && Nat.eqb n3 128
   || Nat.eqb n1 239 && Nat.eqb n2 187 && Nat.eqb n3 191)%nat%bool.

Fixpoint trim_start (s : string) : string :=
  match s with
  | EmptyString => s
  | String c1 s1 =>
      if is_ws c1 then trim_start s1
      else
        match s1 with
        | EmptyString => s
        | String c2 s2 =>
            if wide2 c1 c2 then trim_start s2
            else
              match s2 with
              | EmptyString => s
              | String c3 s3 => if wide3 c1 c2 c3 then trim_start s3 else s
              end
        end
  end.

(** The longest suffix that is white space only is cut off. *)
Fixpoint trim_end (s : string) : string :=
  match s with
  | EmptyString => EmptyString
  | String c s' =>
      if String.eqb (trim_start s) "" then EmptyString
      else String c (trim_end s')
  end.

Definition trim (s : string) : string := trim_end (trim_start s).

(** What [o[k]] reads on an object that was created by [{}] and used as
    a dictionary: the own property, or the value that every object
    inherits under that name (a function; for [__proto__] the
    prototype), or [undefined]. *)
Inductive read (V : Type) : Type :=
| Own (v : V)
| FromPrototype
| Absent.
Arguments Own {V} v.
Arguments FromPrototype {V}.
Arguments Absent {V}.

Definition obj_read {V} (o : obj V) (k : string) : read V :=
  match obj_get o k with
  | Some v => Own v
  | None => if decide (k ∈ inherited) then FromPrototype else Absent
  end.

(** [o[k] = v] on such an object, for a value that is not an object:
    the name [__proto__] is a setter, which ignores such a value; any
    other name becomes or stays an own property. *)
Definition obj_assign {V} (o : obj V) (k : string) (v : V) : obj V :=
  if decide (k = "__proto__") then o else obj_set o k v.

(** [arr.slice(start, end)]: a negative index counts from the end, and
    both are brought into the range of the array. *)
Definition clamp_index (len i : Z) : Z :=
  if i <? 0 then Z.max (len + i) 0 else Z.min i len.

Definition slice {A} (start end_ : Z) (l : list A) : list A :=
  let len := Z.of_nat (length l) in
  let k := clamp_index len start in
  let final := clamp_index len end_ in
  take (Z.to_nat (final - k)) (drop (Z.to_nat k) l).

End Js.

(** ** Redis *)

Module Redis.

(** A key holds a string and, when it was written with [EX], its
    remaining life time in seconds.  No time passes while a request is
    served; between requests it passes by [elapse]. *)
Record entry : Type := Entry { val : string; ttl : option Z }.

Definition int64_min : Z := - 2 ^ 63.
Definition int64_max : Z := 2 ^ 63 - 1.
Definition in_range (z : Z) : bool := (int64_min <=? z) && (z <=? int64_max).

Definition show_int : Z → string := Js.show_int.

(** What the server accepts as an integer: exactly the canonical
    decimal form of a signed 64-bit number. *)
Definition string2ll (s : string) : option Z :=
  match Js.canonical_int s with
  | Some z => if in_range z then Some z else None
  | None => None
  end.

Definition get (db : gmap string entry) (k : string) : option string :=
  val <$> db !! k.

Definition set (db : gmap string entry) (k v : string) : gmap string entry :=
  <[k := Entry v None]> db.

Definition set_ex (db : gmap string entry) (k v : string) (secs : Z)
  : gmap string entry :=
  <[k := Entry v (Some secs)]> db.

Definition del (db : gmap string entry) (k : string) : gmap string entry :=
  delete k db.

(** INCRBY: a missing key counts as 0; the reply is the new value;
    [None] is the error reply (value not an integer or out of range).
    The life time of the key is kept. *)
Definition incrby (d : Z) (db : gmap string entry) (k : string)
  : option (gmap string entry * Z) :=
  match db !! k with
  | None =>
      if in_range d then Some (<[k := Entry (show_int d) None]> db, d)
      else None
  | Some e =>
      match string2ll (val e) with
      | Some n =>
          if in_range (n + d)
          then Some (<[k := Entry (show_int (n + d)) (ttl e)]> db, n + d)
          else None
      | None => None
      end
  end.

Definition incr := incrby 1.
Definition decr := incrby (-1).

(** [secs] seconds pass: a key whose life time is over is gone. *)
Definition elapse (secs : Z) (db : gmap string entry) : gmap string entry :=
  omap (λ e, match ttl e with
             | None => Some e
             | Some t => if secs <? t then Some (Entry (val e) (Some (t - secs)))
                         else None
             end) db.

End Redis.

(** ** MongoDB collections

    A collection is the list of its documents in natural order. *)

Module Mongo.

Record follow_doc : Type :=
  FollowDoc { followerId : string; followedId : string; f_createdAt : Z }.

Record user_doc : Type :=
  UserDoc { id : string; username : option string; fullname : option string;
            avatar : option string; bio : option string }.

Record comment_doc : Type :=
  CommentDoc { _id : string; c_reelId : string;
               parentCommentId : option string; c_userId : string;
               c_username : option string; text : string; c_createdAt : Z }.

Record like_doc : Type :=
  LikeDoc { l_reelId : string; l_userId : string; l_createdAt : Z }.

(** [find({ followerId: u })] and [find({ followedId: u })]. *)
Definition find_by_follower (c : list follow_doc) (u : string) : list follow_doc :=
  filter (λ f, followerId f = u) c.

Definition find_by_followed (c : list follow_doc) (u : string) : list follow_doc :=
  filter (λ f, followedId f = u) c.

(** [find({ followerId: { $in: ids } })]. *)
Definition find_follower_in (c : list follow_doc) (ids : list string)
  : list follow_doc :=
  filter (λ f, followerId f ∈ ids) c.

(** [updateOne({followerId, followedId}, {$set: {..., createdAt}},
    {upsert: true})]: the first matching document is updated in place,
    otherwise a new one is added. *)
Fixpoint upsert_follow (c : list follow_doc) (a b : string) (now : Z)
  : list follow_doc :=
  match c with
  | [] => [FollowDoc a b now]
  | f :: c' =>
      if decide (followerId f = a ∧ followedId f = b)
      then FollowDoc a b now :: c'
      else f :: upsert_follow c' a b now
  end.

(** [deleteOne({followerId, followedId})]: removes the first match. *)
Fixpoint delete_one_follow (c : list follow_doc) (a b : string)
  : list follow_doc :=
  match c with
  | [] => []
  | f :: c' =>
      if decide (followerId f = a ∧ followedId f = b)
      then c'
      else f :: delete_one_follow c' a b
  end.

(** The ordered pair of a document, and collections with at most one
    document for a pair. *)
Definition pair (f : follow_doc) : string * string := (followerId f, followedId f).

Definition unique_follows (c : list follow_doc) : Prop := NoDup (pair <$> c).

(** [find({ id: { $in: ids } })] and [findOne({ id })] on users. *)
Definition find_users_in (c : list user_doc) (ids : list string) : list user_doc :=
  filter (λ u, id u ∈ ids) c.

Definition find_user (c : list user_doc) (i : string) : option user_doc :=
  head (filter (λ u, id u = i) c).

(** [deleteOne({reelId, userId})] on the likes log. *)
Fixpoint delete_one_like (c : list like_doc) (r u : string) : list like_doc :=
  match c with
  | [] => []
  | l :: c' =>
      if decide (l_reelId l = r ∧ l_userId l = u)
      then c'
      else l :: delete_one_like c' r u
  end.

(** [sort({ createdAt: -1 })]: newest first; documents with the same
    date keep their natural order. *)
Fixpoint insert_newest (d : comment_doc) (l : list comment_doc)
  : list comment_doc :=
  match l with
  | [] => [d]
  | x :: l' =>
      if c_createdAt x <=? c_createdAt d then d :: x :: l'
      else x :: insert_newest d l'
  end.

Definition sort_newest (l : list comment_doc) : list comment_doc :=
  foldr insert_newest [] l.

(** [find({reelId, parentCommentId: null}).sort({createdAt: -1}).limit(n)] *)
Definition top_level_comments (c : list comment_doc) (r : string) (n : nat)
  : list comment_doc :=
  take n (sort_newest
            (filter (λ d, c_reelId d = r ∧ parentCommentId d = None) c)).

End Mongo.

(** ** Neo4j: [User] nodes and [FOLLOWS] relationships *)

Module Neo4j.

(** A [User] node is its [id] and its [username] property. *)
Record graph : Type :=
  Graph { nodes : list (string * option string);
          edges : list (string * string) }.

Definition has_node (g : graph) (a : string) : bool :=
  bool_decide (a ∈ (fst <$> nodes g)).


(** [MATCH (a:User {id}), (b:User {id}) MERGE (a)-[:FOLLOWS]->(b)]:
    nothing is created unless both nodes exist. *)
Definition merge_follows (g : graph) (a b : string) : graph :=
  if has_node g a && has_node g b then
    if decide ((a, b) ∈ edges g) then g
    else Graph (nodes g) (edges g ++ [(a, b)])
  else g.

(** [MATCH (a {id})-[r:FOLLOWS]->(b {id}) DELETE r] *)
Definition delete_follows (g : graph) (a b : string) : graph :=
  Graph (nodes g) (filter (λ e, e ≠ (a, b)) (edges g)).

(** [MATCH (u {id})<-[:FOLLOWS]-(f) RETURN f.id] *)
Definition followers_of (g : graph) (u : string) : list string :=
  fst <$> filter (λ e, e.2 = u) (edges g).

(** [MATCH (u {id})-[:FOLLOWS]->(f) RETURN f.id] *)
Definition following_of (g : graph) (u : string) : list string :=
  snd <$> filter (λ e, e.1 = u) (edges g).

End Neo4j.

(** ** Cassandra tables *)

Module Cassandra.

(** Clustering key of [user_reels] and [timeline]:
    [(created_at, reel_id)], [CLUSTERING ORDER BY (created_at DESC)],
    the second column in its default ascending order.  UUIDs are
    their 128-bit value. *)
Definition key : Type := Z * N.

Definition compare (a b : key) : comparison :=
  match (b.1 ?= a.1)%Z with
  | Eq => (a.2 ?= b.2)%N
  | c => c
  end.

(** [a] comes before [b] in a partition. *)
Definition before (a b : key) : Prop := compare a b = Lt.

(** INSERT is an upsert: a row with the same primary key is
    overwritten, never duplicated, and no error is raised. *)
Fixpoint insert {V} (k : key) (v : V) (rows : list (key * V)) : list (key * V) :=
  match rows with
  | [] => [(k, v)]
  | r :: rows' =>
      match compare k r.1 with
      | Lt => (k, v) :: r :: rows'
      | Eq => (k, v) :: rows'
      | Gt => r :: insert k v rows'
      end
  end.

Definition partition {V} (t : gmap string (list (key * V))) (p : string)
  : list (key * V) :=
  default [] (t !! p).

Definition insert_row {V} (t : gmap string (list (key * V))) (p : string)
    (k : key) (v : V) : gmap string (list (key * V)) :=
  <[p := insert k v (partition t p)]> t.

(** [SELECT ... WHERE user_id = ? ORDER BY created_at DESC LIMIT ?];
    [None] is the InvalidRequest raised for a limit that is not
    strictly positive. *)
Definition select {V} (t : gmap string (list (key * V))) (p : string)
    (limit : Z) : option (list (key * V)) :=
  if limit <=? 0 then None else Some (take (Z.to_nat limit) (partition t p)).

(** The ordering invariant of a partition: every row comes before all
    the rows after it, so no two rows have the same key. *)
Definition sorted {V} (rows : list (key * V)) : Prop :=
  StronglySorted (λ x y, before x.1 y.1) rows.

Definition table_sorted {V} (t : gmap string (list (key * V))) : Prop :=
  ∀ p, sorted (partition t p).

(** A row of [reels]; the primary key [reel_id] is the map key. *)
Record reel : Type :=
  Reel { user_id : string; caption : option string;
         media_url : option string; created_at : option Z }.

End Cassandra.

(** ** The stores and the environment *)

Record Stores : Type := mkStores {
  redis : gmap string Redis.entry;
  likes : list Mongo.like_doc;
  follows : list Mongo.follow_doc;
  users : list Mongo.user_doc;
  comments : list Mongo.comment_doc;
  neo4j : Neo4j.graph;
  reels : gmap N Cassandra.reel;
  user_reels : gmap string (list (Cassandra.key * unit));
  timeline : gmap string (list (Cassandra.key * string));
}.

Definition with_redis (st : Stores) v : Stores :=
  mkStores v (likes st) (follows st) (users st) (comments st) (neo4j st)
           (reels st) (user_reels st) (timeline st).
Definition with_likes (st : Stores) v : Stores :=
  mkStores (redis st) v (follows st) (users st) (comments st) (neo4j st)
           (reels st) (user_reels st) (timeline st).
Definition with_follows (st : Stores) v : Stores :=
  mkStores (redis st) (likes st) v (users st) (comments st) (neo4j st)
           (reels st) (user_reels st) (timeline st).
Definition with_neo4j (st : Stores) v : Stores :=
  mkStores (redis st) (likes st) (follows st) (users st) (comments st) v
           (reels st) (user_reels st) (timeline st).
Definition with_reels (st : Stores) v : Stores :=
  mkStores (redis st) (likes st) (follows st) (users st) (comments st) (neo4j st)
           v (user_reels st) (timeline st).
Definition with_user_reels (st : Stores) v : Stores :=
  mkStores (redis st) (likes st) (follows st) (users st) (comments st) (neo4j st)
           (reels st) v (timeline st).
Definition with_timeline (st : Stores) v : Stores :=
  mkStores (redis st) (likes st) (follows st) (users st) (comments st) (neo4j st)
           (reels st) (user_reels st) v.

(** Time passes for the keys of Redis; no other store forgets. *)
Definition elapse (secs : Z) (st : Stores) : Stores :=
  with_redis st (Redis.elapse secs (redis st)).

Definition empty_stores : Stores :=
  mkStores ∅ [] [] [] [] (Neo4j.Graph [] []) ∅ ∅ ∅.

(** Which store operations throw.  [isNeo4jConnected()] is
    [neo4j_connected]; a failing [INSERT INTO timeline] is decided per
    partition, every other Cassandra statement by [cassandra_throws];
    [enrich_throws] makes the enrichment of one reel throw.
    [server_url] is [SERVER_URL], or the localhost default. *)
Record Env : Type := mkEnv {
  neo4j_connected : bool;
  neo4j_throws : bool;
  mongo_throws : bool;
  redis_throws : bool;
  cassandra_throws : bool;
  timeline_throws : string → bool;
  enrich_throws : N → bool;
  server_url : string;
}.

Definition healthy (neo : bool) : Env :=
  mkEnv neo false false false false (λ _, false) (λ _, false)
        "http://localhost:3000".

(** ** routes/likes.js *)

Module Likes.

Inductive response : Type :=
| Count (likesCount : Z) (liked : bool)
| Message (message : string) (liked : bool)
| Error (status : Z) (error : string).

Definition counter_key (reelId : string) : string := "likes:" +:+ reelId.
Definition flag_key (reelId userId : string) : string :=
  "like:" +:+ reelId +:+ ":" +:+ userId.

(** [POST /api/likes/:reelId].  The reply of INCR is a number, so that
    [likesCount] is [newCount] itself; the write to the [likes]
    collection is not awaited and its failure is only logged. *)
Definition like (env : Env) (now : Z) (st : Stores)
    (reelId : string) (userId : option string) : Stores * response :=
  if negb (Js.truthy userId) then (st, Error 400 "userId is required")
  else
    let uid := Js.or_str userId "" in
    let key := counter_key reelId in
    let userLikeKey := flag_key reelId uid in
    if redis_throws env then (st, Error 500 "Failed to like reel")
    else if Js.truthy (Redis.get (redis st) userLikeKey)
    then (st, Message "Already liked" true)
    else
      match Redis.incr (redis st) key with
      | None => (st, Error 500 "Failed to like reel")
      | Some (db1, newCount) =>
          let db2 := Redis.set_ex db1 userLikeKey "1" (86400 * 30) in
          let log :=
            if mongo_throws env then likes st
            else likes st ++ [Mongo.LikeDoc reelId uid now] in
          (with_likes (with_redis st db2) log, Count newCount true)
      end.

(** [DELETE /api/likes/:reelId]; [likesCount] is [Math.max(0, newCount)]. *)
Definition unlike (env : Env) (st : Stores)
    (reelId : string) (userId : option string) : Stores * response :=
  if negb (Js.truthy userId) then (st, Error 400 "userId is required")
  else
    let uid := Js.or_str userId "" in
    let key := counter_key reelId in
    let userLikeKey := flag_key reelId uid in
    if redis_throws env then (st, Error 500 "Failed to unlike reel")
    else if negb (Js.truthy (Redis.get (redis st) userLikeKey))
    then (st, Message "Not liked" false)
    else
      match Redis.decr (redis st) key with
      | None => (st, Error 500 "Failed to unlike reel")
      | Some (db1, newCount) =>
          let db2 := Redis.del db1 userLikeKey in
          let log :=
            if mongo_throws env then likes st
            else Mongo.delete_one_like (likes st) reelId uid in
          (with_likes (with_redis st db2) log, Count (Z.max 0 newCount) false)
      end.

(** [GET /api/likes/:reelId] *)
Definition getCount (env : Env) (st : Stores)
    (reelId : string) (userId : option string) : response :=
  if redis_throws env then Error 500 "Failed to get likes"
  else
    let likesCountStr := Redis.get (redis st) (counter_key reelId) in
    let likesCount :=
      if Js.truthy likesCountStr
      then Js.or_num (Js.parseInt (Js.or_str likesCountStr "")) 0
      else 0 in
    let liked :=
      if Js.truthy userId
      then Js.truthy (Redis.get (redis st) (flag_key reelId (Js.or_str userId "")))
      else false in
    Count likesCount liked.

(** The integer that INCR and DECR read under the counter of a reel
    ([0] for a missing key, nothing for a value that is not an integer),
    and whether the flag of a reel and an actor is set. *)
Definition stored_count (st : Stores) (reelId : string) : option Z :=
  match redis st !! counter_key reelId with
  | None => Some 0
  | Some e => Redis.string2ll (Redis.val e)
  end.

Definition flag_set (st : Stores) (reelId userId : string) : bool :=
  Js.truthy (Redis.get (redis st) (flag_key reelId userId)).

(** The [likesCount] field of a response, when it has one. *)
Definition count_of (r : response) : option Z :=
  match r with
  | Count c _ => Some c
  | _ => None
  end.

End Likes.

(** ** routes/users.js *)

Module Users.

Inductive response : Type :=
| Ok (message : string) (following : bool)
| Error (status : Z) (error : string).

(** The timeline rows written for the rows of a per-author index:
    the loop [for (const row of rows) { try { INSERT ... } catch {} }]. *)
Definition backfill (env : Env) (owner author : string)
    (rows : list (Cassandra.key * unit))
    (tl : gmap string (list (Cassandra.key * string)))
  : gmap string (list (Cassandra.key * string)) :=
  foldl (λ t row,
           if timeline_throws env owner then t
           else Cassandra.insert_row t owner row.1 author)
        tl rows.

(** [POST /api/users/:userId/follow] *)
Definition follow (env : Env) (now : Z) (st : Stores)
    (userId : string) (followerId : option string) : Stores * response :=
  if negb (Js.truthy followerId) then (st, Error 400 "followerId is required")
  else
    let fid := Js.or_str followerId "" in
    if decide (userId = fid) then (st, Error 400 "Cannot follow yourself")
    else
      let st1 :=
        if neo4j_connected env && negb (neo4j_throws env)
        then with_neo4j st (Neo4j.merge_follows (neo4j st) fid userId)
        else st in
      if mongo_throws env
      then (st1, Error 500 "Failed to create follow relationship")
      else
        let st2 := with_follows st1 (Mongo.upsert_follow (follows st1) fid userId now) in
        if cassandra_throws env then (st2, Error 500 "Failed to follow user")
        else
          let rows := take 50 (Cassandra.partition (user_reels st2) userId) in
          (with_timeline st2 (backfill env fid userId rows (timeline st2)),
           Ok "Followed successfully" true).

(** [DELETE /api/users/:userId/follow] *)
Definition unfollow (env : Env) (st : Stores)
    (userId : string) (followerId : option string) : Stores * response :=
  if negb (Js.truthy followerId) then (st, Error 400 "followerId is required")
  else
    let fid := Js.or_str followerId "" in
    let st1 :=
      if neo4j_connected env && negb (neo4j_throws env)
      then with_neo4j st (Neo4j.delete_follows (neo4j st) fid userId)
      else st in
    if mongo_throws env
    then (st1, Error 500 "Failed to remove follow relationship")
    else
      (with_follows st1 (Mongo.delete_one_follow (follows st1) fid userId),
       Ok "Unfollowed successfully" false).

Record summary : Type := Summary { s_id : string; s_username : string }.

Definition summarize (u : Mongo.user_doc) : summary :=
  Summary (Mongo.id u) (Js.or_str (Mongo.username u) "unknown").

(** [GET /api/users/:userId/followers]; the body is [{ followers }]. *)
Definition followers (env : Env) (st : Stores) (userId : string) : list summary :=
  if mongo_throws env then []
  else
    let followerIds :=
      Mongo.followerId <$> Mongo.find_by_followed (follows st) userId in
    if (0 <? length followerIds)%nat
    then summarize <$> Mongo.find_users_in (users st) followerIds
    else [].

(** [GET /api/users/:userId/following]; the body is [{ following }]. *)
Definition following (env : Env) (st : Stores) (userId : string) : list summary :=
  if mongo_throws env then []
  else
    let followedIds :=
      Mongo.followedId <$> Mongo.find_by_follower (follows st) userId in
    if (0 <? length followedIds)%nat
    then summarize <$> Mongo.find_users_in (users st) followedIds
    else [].

(** The same two reads as the specification words them: from the
    graph backend when it is available, otherwise from the replica. *)
Definition followers_preferring_graph (env : Env) (st : Stores)
    (userId : string) : list string :=
  if neo4j_connected env && negb (neo4j_throws env)
  then Neo4j.followers_of (neo4j st) userId
  else Mongo.followerId <$> Mongo.find_by_followed (follows st) userId.

Definition following_preferring_graph (env : Env) (st : Stores)
    (userId : string) : list string :=
  if neo4j_connected env && negb (neo4j_throws env)
  then Neo4j.following_of (neo4j st) userId
  else Mongo.followedId <$> Mongo.find_by_follower (follows st) userId.

(** *** Suggestions *)

(** A value of [suggestionCounts]: a number, or the text that [+ 1]
    makes of the value inherited under the name [property], followed by
    [ones] digits 1. *)
Inductive count : Type :=
| Num (n : Z)
| Text (property : string) (ones : nat).

(** The [username] of a candidate: a string, or the value that
    [userMap] inherits under the name [property]. *)
Inductive name : Type :=
| Name (s : string)
| Value (property : string).

Record candidate : Type :=
  Candidate { c_id : string; c_username : name; c_mutual : count }.

Record profile : Type :=
  Profile { p_id : string; p_username : string; p_avatar : option string;
            p_bio : option string; p_fullname : option string }.

(** What [...userMap[s.id]] spreads into an entry of the response: the
    fields of a profile, the characters of a string under their
    indices, or nothing. *)
Inductive spread : Type :=
| Fields (p : profile)
| Chars (s : string)
| Nothing.

(** An entry of the response: [{ ...userMap[s.id], mutualConnections }]. *)
Record suggestion : Type :=
  Suggestion { sg_profile : spread; mutualConnections : count }.

Inductive suggestions_response : Type :=
| Suggestions (suggestions : list suggestion)
| SuggestionsError (status : Z) (error : string).

(** [(suggestionCounts[suggestedId] || 0) + 1]: a number and a text
    that are stored are not falsy; neither is an inherited value, which
    [+ 1] turns into a text. *)
Definition bump (counts : Js.obj count) (suggestedId : string) : count :=
  match Js.obj_read counts suggestedId with
  | Js.Own (Num n) => Num (Js.or_num (Some n) 0 + 1)
  | Js.Own (Text p m) => Text p (S m)
  | Js.FromPrototype => Text suggestedId 1
  | Js.Absent => Num 1
  end.

(** The body of [friendsFollows.forEach]. *)
Definition tally (userId : string) (followingIds : list string)
    (counts : Js.obj count) (f : Mongo.follow_doc) : Js.obj count :=
  let suggestedId := Mongo.followedId f in
  if decide ((suggestedId ≠ userId) ∧ (suggestedId ∉ followingIds))
  then Js.obj_assign counts suggestedId (bump counts suggestedId)
  else counts.

Definition number (c : count) : option Z :=
  match c with
  | Num n => Some n
  | Text _ _ => None
  end.

(** [.sort((a, b) => b[1] - a[1])].  With numbers only this is the
    stable sort by descending count.  The difference is [NaN] as soon as
    one of the two values is a text, and [NaN] counts as 0: if the
    numbers are all the same every comparison gives 0 and the order is
    kept; with a text and two numbers that differ the comparison
    function is not consistent and the order is left to the
    implementation ([None]). *)
Definition sort_counts (l : list (string * count))
  : option (list (string * count)) :=
  match mapM (λ e, pair e.1 <$> number e.2) l with
  | Some numbers => Some (prod_map id Num <$> Js.sort_desc numbers)
  | None =>
      match omap (λ e, number e.2) l with
      | [] => Some l
      | n :: ns => if forallb (Z.eqb n) ns then Some l else None
      end
  end.

(** [sortedSuggestions] of the MongoDB fallback, as [(id, count)]. *)
Definition ranked (st : Stores) (userId : string) (limit : Z)
  : option (list (string * count)) :=
  let followingIds :=
    Mongo.followedId <$> Mongo.find_by_follower (follows st) userId in
  let friendsFollows := Mongo.find_follower_in (follows st) followingIds in
  let suggestionCounts := foldl (tally userId followingIds) [] friendsFollows in
  Js.slice0 limit <$> sort_counts (Js.entries suggestionCounts).

Definition mongo_suggestions (st : Stores) (userId : string) (limit : Z)
  : option (list candidate) :=
  let followingIds :=
    Mongo.followedId <$> Mongo.find_by_follower (follows st) userId in
  if (0 <? length followingIds)%nat then
    match ranked st userId limit with
    | None => None
    | Some sortedSuggestions =>
        if (0 <? length sortedSuggestions)%nat then
          let suggestedIds := fst <$> sortedSuggestions in
          let found := Mongo.find_users_in (users st) suggestedIds in
          let userMap :=
            foldl (λ m u, Js.obj_assign m (Mongo.id u)
                            (Js.or_str (Mongo.username u) "unknown"))
                  [] found in
          Some ((λ s, Candidate s.1
                        (match Js.obj_read userMap s.1 with
                         | Js.Own n => Name (Js.or_str (Some n) "unknown")
                         | Js.FromPrototype => Value s.1
                         | Js.Absent => Name "unknown"
                         end)
                        s.2)
                  <$> sortedSuggestions)
        else Some []
    end
  else Some [].

(** The two-hop query of the graph backend: one row per path
    me -> friend -> suggestion, grouped by suggestion and counted,
    highest count first; [None] when the limit is negative. *)
Definition neo4j_suggestions (g : Neo4j.graph) (userId : string) (limit : Z)
  : option (list candidate) :=
  if limit <? 0 then None
  else
    let friends := Neo4j.following_of g userId in
    let paths :=
      friends ≫= (λ friend, Neo4j.following_of g friend) in
    let counts :=
      foldl (λ m s,
               if decide ((s ∉ friends) ∧ (s ≠ userId))
               then Js.obj_set m s (Js.or_num (Js.obj_get m s) 0 + 1)
               else m)
            [] paths in
    Some ((λ e, Candidate e.1
                  (Name (Js.or_str (mjoin (snd <$> head (filter (λ n, n.1 = e.1)
                                                                (Neo4j.nodes g))))
                                   "unknown"))
                  (Num e.2))
            <$> take (Z.to_nat limit) (Js.sort_desc counts)).

Definition or_opt (a b : option string) : option string :=
  if Js.truthy a then a else b.

(** The value stored in [userMap] for a document:
    [{ id, username: u.username || 'unknown', avatar, bio,
       fullname: u.fullname || u.username }]. *)
Definition to_profile (u : Mongo.user_doc) : profile :=
  Profile (Mongo.id u) (Js.or_str (Mongo.username u) "unknown")
          (Mongo.avatar u) (Mongo.bio u)
          (or_opt (Mongo.fullname u) (Mongo.username u)).

(** [userMap] of the final join: its own properties and, once a
    document with the id [__proto__] was stored, the object that this
    assignment made its prototype. *)
Definition user_map : Type := Js.obj profile * option profile.

(** [userMap[u.id] = { ... }] *)
Definition user_map_set (m : user_map) (u : Mongo.user_doc) : user_map :=
  if decide (Mongo.id u = "__proto__") then (m.1, Some (to_profile u))
  else (Js.obj_set m.1 (Mongo.id u) (to_profile u), m.2).

(** The own property [k] of a value of [userMap], when it holds a
    string. *)
Definition field (p : profile) (k : string) : option string :=
  if decide (k = "id") then Some (p_id p)
  else if decide (k = "username") then Some (p_username p)
  else if decide (k = "avatar") then p_avatar p
  else if decide (k = "bio") then p_bio p
  else if decide (k = "fullname") then p_fullname p
  else None.

(** [...userMap[k]]: an own property is an object with the fields of a
    profile.  Otherwise the prototype is read: under [__proto__] it is
    the prototype itself; a prototype that was stored gives the string
    of its field [k]; what is left are functions, [Object.prototype],
    [null] and [undefined], which spread into nothing. *)
Definition user_map_spread (m : user_map) (k : string) : spread :=
  match Js.obj_get m.1 k with
  | Some p => Fields p
  | None =>
      match m.2 with
      | Some p =>
          if decide (k = "__proto__") then Fields p
          else match field p k with
               | Some s => if String.eqb s "" then Nothing else Chars s
               | None => Nothing
               end
      | None => Nothing
      end
  end.

(** The profile that the response joins to a suggested id: the one of
    the last document of the user, if there is any. *)
Definition profile_of (st : Stores) (i : string) : option profile :=
  to_profile <$> last (filter (λ u, Mongo.id u = i) (users st)).

Definition spread_of (p : option profile) : spread :=
  match p with
  | Some p => Fields p
  | None => Nothing
  end.

(** The number of documents of a list that point at [t]. *)
Definition targets (ff : list Mongo.follow_doc) (t : string) : Z :=
  Z.of_nat (length (filter (λ d, Mongo.followedId d = t) ff)).

(** The number of mutual connections of the specification: the follow
    documents whose target is [t] and whose source is in [F]. *)
Definition mutual_count (st : Stores) (F : list string) (t : string) : Z :=
  Z.of_nat (length (filter (λ d, Mongo.followedId d = t ∧ Mongo.followerId d ∈ F)
                           (follows st))).

(** [GET /api/users/:userId/suggestions]; [None] when the order of the
    ranking is left to the implementation (see [sort_counts]). *)
Definition suggestions (env : Env) (st : Stores) (userId : string) (limit : Z)
  : option suggestions_response :=
  let fromGraph :=
    if neo4j_connected env && negb (neo4j_throws env)
    then default [] (neo4j_suggestions (neo4j st) userId limit)
    else [] in
  let found :=
    if (length fromGraph =? 0)%nat
    then (if mongo_throws env then Some [] else mongo_suggestions st userId limit)
    else Some fromGraph in
  match found with
  | None => None
  | Some found =>
      Some
        (if (0 <? length found)%nat then
           if mongo_throws env
           then SuggestionsError 500 "Failed to fetch suggestions"
           else
             let docs := Mongo.find_users_in (users st) (c_id <$> found) in
             let userMap := foldl user_map_set ([], None) docs in
             Suggestions
               ((λ s, Suggestion (user_map_spread userMap (c_id s)) (c_mutual s))
                  <$> found)
         else Suggestions [])
  end.

End Users.

(** ** UUIDs as text *)

Module Uuid.

Definition hex_char (d : N) : ascii :=
  ascii_of_N (if (d <? 10)%N then 48 + d else 87 + d)%N.

Fixpoint hex (n : nat) (u : N) (acc : string) : string :=
  match n with
  | O => acc
  | S n' => hex n' (u / 16)%N (String (hex_char (u mod 16)%N) acc)
  end.

(** [uuid.toString()]: 8-4-4-4-12 lower-case hexadecimal digits. *)
Definition toString (u : N) : string :=
  let s := hex 32 u "" in
  substring 0 8 s +:+ "-" +:+ substring 8 4 s +:+ "-" +:+ substring 12 4 s
  +:+ "-" +:+ substring 16 4 s +:+ "-" +:+ substring 20 12 s.

(** A [Uuid] object is truthy. *)
Definition truthy (u : N) : bool := true.

End Uuid.

(** ** routes/reels.js *)

Module Reels.

(** *** Media URLs *)

Definition unreserved (c : ascii) : bool :=
  let n := nat_of_ascii c in
  ((48 <=? n) && (n <=? 57) || (65 <=? n) && (n <=? 90)
   || (97 <=? n) && (n <=? 122)
   || bool_decide (c ∈ ["-"%char; "_"%char; "."%char; "!"%char; "~"%char;
                        "*"%char; "'"%char; "("%char; ")"%char]))%nat.

Definition upper_hex (d : N) : ascii :=
  ascii_of_N (if (d <? 10)%N then 48 + d else 55 + d)%N.

(** [encodeURIComponent] on the bytes of a UTF-8 string. *)
Fixpoint encodeURIComponent (s : string) : string :=
  match s with
  | EmptyString => EmptyString
  | String c s' =>
      if unreserved c then String c (encodeURIComponent s')
      else
        let n := N_of_ascii c in
        String "%" (String (upper_hex (n / 16)%N)
                      (String (upper_hex (n mod 16)%N) (encodeURIComponent s')))
  end.

(** The characters that the dot of a regular expression refuses: LF,
    CR and, on three bytes of UTF-8 each, U+2028 and U+2029. *)
Definition line_terminator (c : ascii) : bool :=
  let n := nat_of_ascii c in (Nat.eqb n 10 || Nat.eqb n 13)%bool.

Definition separator (c1 c2 c3 : ascii) : bool :=
  let n3 := nat_of_ascii c3 in
  (Nat.eqb (nat_of_ascii c1) 226 && Nat.eqb (nat_of_ascii c2) 128
   && (Nat.eqb n3 168 || Nat.eqb n3 169))%bool.

Fixpoint has_line_terminator (s : string) : bool :=
  match s with
  | EmptyString => false
  | String c s' =>
      line_terminator c
      || match s' with
         | String c2 (String c3 _) => separator c c2 c3
         | _ => false
         end
      || has_line_terminator s'
  end.

(** [mediaUrl.match(/\/(reels-media\/.+)$/)]: the captured group of the
    leftmost match. *)
Fixpoint match_key (s : string) : option string :=
  match s with
  | EmptyString => None
  | String c s' =>
      if String.prefix "/reels-media/" s
         && (String.length "reels-media/" <? String.length s')%nat
         && negb (has_line_terminator s')
      then Some s'
      else match_key s'
  end.

(** The conversion of a direct MinIO URL to a proxy URL. *)
Definition proxy_url (env : Env) (media_url : option string) : option string :=
  if Js.truthy media_url then
    let mediaUrl := Js.or_str media_url "" in
    if Js.includes mediaUrl "localhost:9000" || Js.includes mediaUrl ":9000/"
    then
      match match_key mediaUrl with
      | Some key =>
          Some (server_url env +:+ "/api/media/" +:+ encodeURIComponent key)
      | None => media_url
      end
    else media_url
  else media_url.

(** *** The feed *)

(** An element of [reelIds]. *)
Record ref : Type :=
  Ref { reelId : N; reelIdString : string; authorId : string; createdAt : Z }.

Record author : Type :=
  Author { a_id : string; a_username : string; a_avatar : option string }.

Record comment : Type :=
  Comment { cm_id : string; cm_text : string; cm_author_id : string;
            cm_author_username : string; cm_createdAt : Z }.

(** An element of [reels] in the response. *)
Record enriched : Type :=
  Enriched { id : string; mediaUrl : string; caption : string;
             e_author : author; likesCount : Z; e_comments : list comment;
             e_createdAt : Z }.

Inductive feed_response : Type :=
| Page (reels : list enriched) (message : option string)
| FeedError (status : Z) (error : string).

(** The order of a feed: newer first, and for equal dates the smaller
    reel id first. *)
Definition precedes (a b : ref) : Prop :=
  createdAt b < createdAt a
  ∨ (createdAt a = createdAt b ∧ (reelId a < reelId b)%N).

Definition timeline_ref (row : Cassandra.key * string) : ref :=
  Ref row.1.2 (Uuid.toString row.1.2) row.2 row.1.1.

Definition own_ref (userId : string) (row : Cassandra.key * unit) : ref :=
  Ref row.1.2 (Uuid.toString row.1.2) userId row.1.1.

(** The read-repair loop: for each followed user, the 20 newest rows of
    the per-author index are inserted into the owner's partition. *)
Definition repair (env : Env) (st : Stores) (userId : string)
    (followedUserIds : list string)
  : gmap string (list (Cassandra.key * string)) :=
  foldl (λ tl followedUserId,
           Users.backfill env userId followedUserId
             (take 20 (Cassandra.partition (user_reels st) followedUserId)) tl)
        (timeline st) followedUserIds.

(** Lines 41-129 of the handler: the ordered post references, and the
    stores after a possible read-repair.  [None] when a statement threw
    (the handler then answers 500). *)
Definition assemble (env : Env) (st : Stores) (userId : string) (limit : Z)
  : option (Stores * list ref) :=
  if cassandra_throws env then None
  else
    match Cassandra.select (timeline st) userId limit with
    | None => None
    | Some rows =>
        if (length rows =? 0)%nat then
          if mongo_throws env then None
          else
            let follows := Mongo.find_by_follower (follows st) userId in
            if (0 <? length follows)%nat then
              let followedUserIds := Mongo.followedId <$> follows in
              let st' := with_timeline st (repair env st userId followedUserIds) in
              match Cassandra.select (timeline st') userId limit with
              | None => None
              | Some rows' =>
                  Some (st', filter (λ r, Uuid.truthy (reelId r) = true)
                                    (timeline_ref <$> rows'))
              end
            else
              match Cassandra.select (user_reels st) userId limit with
              | None => None
              | Some rows' =>
                  Some (st, filter (λ r, Uuid.truthy (reelId r) = true)
                                   (own_ref userId <$> rows'))
              end
        else
          Some (st, filter (λ r, Uuid.truthy (reelId r) = true)
                           (timeline_ref <$> rows))
    end.

Definition comment_view (c : Mongo.comment_doc) : comment :=
  Comment (Mongo._id c) (Mongo.text c) (Mongo.c_userId c)
          (Js.or_str (Mongo.c_username c) "unknown") (Mongo.c_createdAt c).

(** The callback given to [reelIds.map]; [None] is [null]. *)
Definition enrich_one (env : Env) (st : Stores) (r : ref) : option enriched :=
  if cassandra_throws env || enrich_throws env (reelId r) then None
  else
    match reels st !! reelId r with
    | None => None
    | Some reel =>
        let user :=
          match (if mongo_throws env then None
                 else Mongo.find_user (users st) (authorId r)) with
          | Some mongoUser =>
              Author (Mongo.id mongoUser)
                     (Js.or_str (Mongo.username mongoUser) "unknown")
                     (Mongo.avatar mongoUser)
          | None => Author (authorId r) "unknown" None
          end in
        if redis_throws env then None
        else
          let likeCount :=
            match Redis.get (redis st) (Likes.counter_key (reelIdString r)) with
            | Some s => s
            | None => "0"
            end in
          if mongo_throws env then None
          else
            let comments :=
              Mongo.top_level_comments (comments st) (reelIdString r) 3 in
            Some (Enriched
                    (reelIdString r)
                    (Js.or_str (proxy_url env (Cassandra.media_url reel)) "")
                    (Js.or_str (Cassandra.caption reel) "")
                    (Author (a_id user) (Js.or_str (Some (a_username user)) "unknown")
                            (Users.or_opt (a_avatar user) None))
                    (match Js.parseInt likeCount with Some n => n | None => 0 end)
                    (comment_view <$> comments)
                    (match Cassandra.created_at reel with
                     | Some t => t
                     | None => createdAt r
                     end))
    end.

(** [Promise.all(reelIds.map(...))] followed by [.filter(Boolean)]: the
    results are in the order of [reelIds], whichever lookup ends first. *)
Definition enrich (env : Env) (st : Stores) (refs : list ref) : list enriched :=
  omap (enrich_one env st) refs.

(** The same join when the lookups end in a given order. *)
Definition enrich_settled (env : Env) (st : Stores) (refs : list ref)
    (order : list nat) : list enriched :=
  omap mjoin (Js.settle (enrich_one env st) refs order).

(** [GET /api/reels/feed] *)
Definition getFeed (env : Env) (st : Stores) (userId : option string) (limit : Z)
  : Stores * feed_response :=
  if negb (Js.truthy userId) then (st, FeedError 400 "userId is required")
  else
    match assemble env st (Js.or_str userId "") limit with
    | None => (st, FeedError 500 "Failed to fetch feed")
    | Some (st', reelIds) =>
        if (length reelIds =? 0)%nat
        then (st', Page []
                     (Some "No reels found. Follow some users or create your first reel!"))
        else (st', Page (enrich env st' reelIds) None)
    end.

(** *** Creating a reel *)

Inductive create_response : Type :=
| Created (id : string) (message : string)
| CreateError (status : Z) (error : string).

(** The followers whose timelines receive the new reel. *)
Definition resolve_followers (env : Env) (st : Stores) (userId : string)
  : list string :=
  let fromGraph :=
    if neo4j_connected env && negb (neo4j_throws env)
    then Neo4j.followers_of (neo4j st) userId
    else [] in
  if (length fromGraph =? 0)%nat
  then (if mongo_throws env then []
        else Mongo.followerId <$> Mongo.find_by_followed (follows st) userId)
  else fromGraph.

(** The loop over [followers]. *)
Definition fan_out (env : Env) (now : Z) (reelId : N) (userId : string)
    (followers : list string)
    (tl : gmap string (list (Cassandra.key * string)))
  : gmap string (list (Cassandra.key * string)) :=
  foldl (λ t followerId,
           if timeline_throws env followerId then t
           else Cassandra.insert_row t followerId (now, reelId) userId)
        tl followers.

(** The rows of a partition that point at a reel. *)
Definition entries_for (reelId : N) (rows : list (Cassandra.key * string))
  : list (Cassandra.key * string) :=
  filter (λ x, x.1.2 = reelId) rows.

(** [POST /api/reels]; [reelId] is the result of [Uuid.random()] and
    [now] that of [new Date()]. *)
Definition createPost (env : Env) (now : Z) (reelId : N) (st : Stores)
    (userId caption mediaUrl : option string) : Stores * create_response :=
  if negb (Js.truthy userId) || negb (Js.truthy mediaUrl)
  then (st, CreateError 400 "userId and mediaUrl are required")
  else
    let uid := Js.or_str userId "" in
    let reelIdString := Uuid.toString reelId in
    if cassandra_throws env then (st, CreateError 500 "Failed to create reel")
    else
      let st1 :=
        with_reels st
          (<[reelId := Cassandra.Reel uid (Some (Js.or_str caption ""))
                                      mediaUrl (Some now)]> (reels st)) in
      let st2 :=
        with_user_reels st1
          (Cassandra.insert_row (user_reels st1) uid (now, reelId) tt) in
      let followers := resolve_followers env st2 uid in
      let st3 :=
        with_timeline st2 (fan_out env now reelId uid followers (timeline st2)) in
      if redis_throws env then (st3, CreateError 500 "Failed to create reel")
      else
        (with_redis st3 (Redis.set (redis st3) (Likes.counter_key reelIdString) "0"),
         Created reelIdString "Reel created successfully").

End Reels.

(** ** Example stores

    Three users with a profile and a node each, nothing else. *)

Definition demo_user (i : string) : Mongo.user_doc :=
  Mongo.UserDoc i (Some i) None None None.

Definition demo_stores : Stores :=
  mkStores ∅ [] [] [demo_user "a"; demo_user "b"; demo_user "u"] []
           (Neo4j.Graph [("a", Some "a"); ("b", Some "b"); ("u", Some "u")] [])
           ∅ ∅ ∅.

(** "a" follows "b", and "b" follows "u" and "a"; no graph backend. *)
Definition demo_friends : Stores :=
  let s1 := fst (Users.follow (healthy false) 1 demo_stores "b" (Some "a")) in
  let s2 := fst (Users.follow (healthy false) 2 s1 "u" (Some "b")) in
  fst (Users.follow (healthy false) 3 s2 "a" (Some "b")).

(** "u" has the reels 7, 3 and 5 of the dates 10, 20 and 30; "a"
    follows "u" and "b"; the timeline is empty. *)
Definition demo_feed : Stores :=
  let E := healthy false in
  let s1 := fst (Reels.createPost E 10 7 demo_stores (Some "u") None (Some "m")) in
  let s2 := fst (Reels.createPost E 20 3 s1 (Some "u") None (Some "m")) in
  let s3 := fst (Reels.createPost E 30 5 s2 (Some "u") None (Some "m")) in
  let s4 := fst (Users.follow E 40 s3 "u" (Some "a")) in
  let s5 := fst (Users.follow E 41 s4 "b" (Some "a")) in
  with_timeline s5 ∅.

(** The graph backend is connected but its statements throw. *)
Definition graph_failing : Env :=
  mkEnv true true false false false (λ _, false) (λ _, false)
        "http://localhost:3000".

(** Only the MongoDB statements throw. *)
Definition mongo_failing : Env :=
  mkEnv true false true false false (λ _, false) (λ _, false)
        "http://localhost:3000".

(** ** Reachable stores

    One step is one request served by one of the handlers that write,
    or the passing of some time. *)

Inductive step : Stores → Stores → Prop :=
| step_elapse secs st : step st (elapse secs st)
| step_like env now st r u : step st (fst (Likes.like env now st r u))
| step_unlike env st r u : step st (fst (Likes.unlike env st r u))
| step_follow env now st u f : step st (fst (Users.follow env now st u f))
| step_unfollow env st u f : step st (fst (Users.unfollow env st u f))
| step_create env now rid st u c m :
    step st (fst (Reels.createPost env now rid st u c m))
| step_feed env st u limit : step st (fst (Reels.getFeed env st u limit)).

Definition reachable (st : Stores) : Prop := rtc step empty_stores st.

(** ** The rest of routes/reels.js: the reels of a profile *)

Module Profile.

(** An element of [reels] in the answer of [GET /api/reels/user/:userId]. *)
Record reel : Type :=
  Reel { id : string; mediaUrl : string; caption : string; likesCount : Z;
         commentsCount : nat; createdAt : Z }.

Inductive response : Type :=
| Reels (reels : list reel)
| Error (status : Z) (error : string).

(** The callback given to [reelsResult.rows.map]; [None] is [null]. *)
Definition enrich_row (env : Env) (st : Stores) (row : Cassandra.key * unit)
  : option reel :=
  let reelId := row.1.2 in
  let reelIdString := Uuid.toString reelId in
  if cassandra_throws env || enrich_throws env reelId then None
  else
    match reels st !! reelId with
    | None => None
    | Some reel =>
        if redis_throws env then None
        else
          let likeCount :=
            match Redis.get (redis st) (Likes.counter_key reelIdString) with
            | Some s => s
            | None => "0"
            end in
          if mongo_throws env then None
          else
            let commentCount :=
              length (filter (λ d, Mongo.c_reelId d = reelIdString) (comments st)) in
            Some (Reel reelIdString
                       (Js.or_str (Reels.proxy_url env (Cassandra.media_url reel)) "")
                       (Js.or_str (Cassandra.caption reel) "")
                       (match Js.parseInt likeCount with Some n => n | None => 0 end)
                       commentCount
                       (match Cassandra.created_at reel with
                        | Some t => t
                        | None => row.1.1
                        end))
    end.

(** [GET /api/reels/user/:userId] *)
Definition userReels (env : Env) (st : Stores) (userId : string) (limit : Z)
  : response :=
  if cassandra_throws env then Error 500 "Failed to fetch user reels"
  else
    match Cassandra.select (user_reels st) userId limit with
    | None => Error 500 "Failed to fetch user reels"
    | Some rows => Reels (omap (enrich_row env st) rows)
    end.

End Profile.

(** ** db/cassandra.js: connecting *)

Module Db.

(** [connect()]: the keyspace is created if it is missing, the table
    [reels] is dropped and created again, the tables [user_reels] and
    [timeline] are created if they are missing.  [None] when the
    connection throws. *)
Definition connect (env : Env) (st : Stores) : option Stores :=
  if cassandra_throws env then None else Some (with_reels st ∅).

End Db.

(** ** routes/users.js: the profile of a user *)

Module Account.

(** The answer of [GET /api/users/:userId]: the fields [id], [username],
    [email], [avatar] and [bio] are those of the document [user];
    [fullname] is [user.fullname || user.username]. *)
Inductive response : Type :=
| Found (user : Mongo.user_doc) (fullname : option string)
        (followersCount followingCount : nat)
| Error (status : Z) (error : string).

(** [countDocuments({ followedId })] and [countDocuments({ followerId })]. *)
Definition count_followers (st : Stores) (userId : string) : nat :=
  length (Mongo.find_by_followed (follows st) userId).

Definition count_following (st : Stores) (userId : string) : nat :=
  length (Mongo.find_by_follower (follows st) userId).

Definition getUser (env : Env) (st : Stores) (userId : string) : response :=
  if mongo_throws env then Error 500 "Failed to fetch user"
  else
    match Mongo.find_user (users st) userId with
    | None => Error 404 "User not found"
    | Some user =>
        Found user (Users.or_opt (Mongo.fullname user) (Mongo.username user))
              (count_followers st userId) (count_following st userId)
    end.

End Account.

(** ** routes/comments.js *)

Definition with_comments (st : Stores) v : Stores :=
  mkStores (redis st) (likes st) (follows st) (users st) v (neo4j st)
           (reels st) (user_reels st) (timeline st).

Module Comments.

Inductive post_response : Type :=
| Posted (comment : Mongo.comment_doc)
| PostError (status : Z) (error : string).

(** [POST /api/comments]; [insertedId] is the id that MongoDB gives to
    the new document. *)
Definition postComment (env : Env) (now : Z) (insertedId : string) (st : Stores)
    (reelId userId text username parentCommentId : option string)
  : Stores * post_response :=
  if negb (Js.truthy reelId) || negb (Js.truthy userId) || negb (Js.truthy text)
  then (st, PostError 400 "reelId, userId, and text are required")
  else if mongo_throws env then (st, PostError 500 "Failed to post comment")
  else
    let uid := Js.or_str userId "" in
    let finalUsername :=
      if Js.truthy username then username
      else match Mongo.find_user (users st) uid with
           | Some user => Mongo.username user
           | None => Some "user"
           end in
    let comment :=
      Mongo.CommentDoc insertedId (Js.or_str reelId "")
        (if Js.truthy parentCommentId then parentCommentId else None)
        uid finalUsername (Js.trim (Js.or_str text "")) now in
    (with_comments st (comments st ++ [comment]), Posted comment).

Record reply : Type :=
  Reply { r_id : string; r_text : string; r_author_id : string;
          r_author_username : option string; r_createdAt : Z;
          r_parentCommentId : string }.

Record node : Type :=
  Node { n_id : string; n_text : string; n_author_id : string;
         n_author_username : option string; n_createdAt : Z;
         replies : list reply }.

Inductive get_response : Type :=
| Comments (comments : list node)
| GetError (status : Z) (error : string).

Definition top_node (c : Mongo.comment_doc) : node :=
  Node (Mongo._id c) (Mongo.text c) (Mongo.c_userId c) (Mongo.c_username c)
       (Mongo.c_createdAt c) [].

Definition reply_view (c : Mongo.comment_doc) : reply :=
  Reply (Mongo._id c) (Mongo.text c) (Mongo.c_userId c) (Mongo.c_username c)
        (Mongo.c_createdAt c) (Js.or_str (Mongo.parentCommentId c) "").

(** [n.replies.push(r)] *)
Definition push_reply (n : node) (r : reply) : node :=
  Node (n_id n) (n_text n) (n_author_id n) (n_author_username n)
       (n_createdAt n) (replies n ++ [r]).

(** The body of [replies.forEach]: the reply is pushed to the node of
    its parent, when the map has one. *)
Definition attach (commentMap : Js.obj node) (c : Mongo.comment_doc) : Js.obj node :=
  let parentId := Js.or_str (Mongo.parentCommentId c) "" in
  match Js.obj_get commentMap parentId with
  | Some n => Js.obj_set commentMap parentId (push_reply n (reply_view c))
  | None => commentMap
  end.

(** The [Map] of the top-level comments with their replies, in the
    order of its keys (a [Map] has no prototype: what [Js.obj_get] and
    [Js.obj_set] do on the list of bindings is what [get] and [set] do). *)
Definition tree (st : Stores) (reelId : string) : Js.obj node :=
  let allComments :=
    Mongo.sort_newest (filter (λ c, Mongo.c_reelId c = reelId) (comments st)) in
  let topLevelComments :=
    filter (λ c, Js.truthy (Mongo.parentCommentId c) = false) allComments in
  let replies :=
    filter (λ c, Js.truthy (Mongo.parentCommentId c) = true) allComments in
  let commentMap :=
    foldl (λ m c, Js.obj_set m (Mongo._id c) (top_node c)) [] topLevelComments in
  foldl attach commentMap replies.

(** [GET /api/comments/:reelId] *)
Definition getComments (env : Env) (st : Stores) (reelId : string)
    (limit offset : Z) : get_response :=
  if mongo_throws env then GetError 500 "Failed to fetch comments"
  else Comments (Js.slice offset (offset + limit) (snd <$> tree st reelId)).

End Comments.

(** ** routes/stories.js: reading stories

    The collection [stories] is read by two handlers; it is given to
    them as a list of documents in natural order. *)

Module Stories.

Record story : Type :=
  Story { s_id : string; s_userId : string; s_mediaUrl : string;
          s_createdAt : Z; s_expiresAt : Z }.

(** [sort({ createdAt: -1 })]: newest first; stories with the same date
    keep their natural order. *)
Fixpoint insert_newest (d : story) (l : list story) : list story :=
  match l with
  | [] => [d]
  | x :: l' =>
      if s_createdAt x <=? s_createdAt d then d :: x :: l'
      else x :: insert_newest d l'
  end.

Definition sort_newest (l : list story) : list story := foldr insert_newest [] l.

(** [find({ userId: { $in: ids }, expiresAt: { $gt: now } })], sorted. *)
Definition active_of (stories : list story) (ids : list string) (now : Z)
  : list story :=
  sort_newest (filter (λ s, s_userId s ∈ ids ∧ now < s_expiresAt s) stories).

(** The body of the loop that groups the stories by user.  For a user
    id that names a property inherited from [Object.prototype] the
    value read is not falsy and has no method [push]: the statement
    throws ([None]). *)
Definition group (storiesByUser : Js.obj (list story)) (s : story)
  : option (Js.obj (list story)) :=
  match Js.obj_get storiesByUser (s_userId s) with
  | Some l => Some (Js.obj_set storiesByUser (s_userId s) (l ++ [s]))
  | None =>
      if decide (s_userId s ∈ Js.inherited) then None
      else Some (Js.obj_set storiesByUser (s_userId s) [s])
  end.

Definition group_all (stories : list story) : option (Js.obj (list story)) :=
  foldl (λ acc s, acc ≫= λ m, group m s) (Some []) stories.

(** [{ id, username, avatar }] of a user document, or
    [{ id: userId, username: 'unknown' }]. *)
Record owner : Type :=
  Owner { o_id : string; o_username : option string; o_avatar : option string }.

Inductive response : Type :=
| Grouped (stories : list (owner * list story))
| Listed (stories : list story)
| Error (status : Z) (error : string).

(** [GET /api/stories] *)
Definition getStories (env : Env) (now : Z) (stories : list story) (st : Stores)
    (userId : option string) : response :=
  if negb (Js.truthy userId) then Error 400 "userId is required"
  else if mongo_throws env then Error 500 "Failed to fetch stories"
  else
    let uid := Js.or_str userId "" in
    let follows := Mongo.find_by_follower (follows st) uid in
    let followingIds := (Mongo.followedId <$> follows) ++ [uid] in
    let active := active_of stories followingIds now in
    match group_all active with
    | None => Error 500 "Failed to fetch stories"
    | Some storiesByUser =>
        let userIds := fst <$> Js.entries storiesByUser in
        let users := Mongo.find_users_in (users st) userIds in
        let userMap :=
          foldl (λ m u, Js.obj_set m (Mongo.id u)
                          (Owner (Mongo.id u) (Mongo.username u) (Mongo.avatar u)))
                [] users in
        Grouped
          ((λ userId,
              (match Js.obj_get userMap userId with
               | Some o => o
               | None => Owner userId (Some "unknown") None
               end,
               default [] (Js.obj_get storiesByUser userId)))
             <$> userIds)
    end.

(** [GET /api/stories/user/:userId] *)
Definition getUserStories (env : Env) (now : Z) (stories : list story)
    (userId : string) : response :=
  if mongo_throws env then Error 500 "Failed to fetch user stories"
  else Listed (sort_newest
                 (filter (λ s, s_userId s = userId ∧ now < s_expiresAt s) stories)).

End Stories.

(** ** More example stores

    The stores of [demo_feed] with two comments on the reel 5: one by
    "a", and a reply to it by "b". *)

Definition demo_comments : Stores :=
  let E := healthy false in
  let r := Uuid.toString 5 in
  let s1 := fst (Comments.postComment E 100 "c1" demo_feed (Some r) (Some "a")
                   (Some " hi ") None None) in
  fst (Comments.postComment E 101 "c2" s1 (Some r) (Some "b")
         (Some "re") None (Some "c1")).

(** Two stories of "b", the newer of which ends at the date 40, one of
    "a" and one of "u". *)
Definition demo_stories : list Stories.story :=
  [Stories.Story "s1" "b" "m1" 10 100; Stories.Story "s2" "a" "m2" 20 100;
   Stories.Story "s3" "b" "m3" 30 40; Stories.Story "s4" "u" "m4" 35 100].

(** * Properties *)

(** ** Decimal forms and Redis counters *)

Lemma canonical_show (z : Z) : Js.canonical_int (Js.show_int z) = Some z.
Proof.
  unfold Js.canonical_int, Js.show_int.
  rewrite NilZero.isi.
  - rewrite DecimalZ.of_to, String.eqb_refl. reflexivity.
  - destruct z; simpl; try discriminate.
    intros [= H]. exact (Unsigned.to_uint_nonnil _ H).
  - destruct z; simpl; try discriminate.
    intros [= H]. exact (Unsigned.to_uint_nonnil _ H).
Qed.

Lemma canonical_inv (s : string) (z : Z) :
  Js.canonical_int s = Some z → s = Js.show_int z.
Proof.
  unfold Js.canonical_int.
  destruct (NilZero.int_of_string s) as [d|]; [|discriminate].
  destruct (String.eqb_spec (Js.show_int (Z.of_int d)) s) as [E|]; [|discriminate].
  intros [= <-]. symmetry. exact E.
Qed.

Lemma string2ll_show (z : Z) :
  Redis.in_range z = true → Redis.string2ll (Redis.show_int z) = Some z.
Proof.
  intros H. unfold Redis.string2ll, Redis.show_int.
  rewrite canonical_show, H. reflexivity.
Qed.

Lemma string2ll_range (s : string) (z : Z) :
  Redis.string2ll s = Some z → Redis.in_range z = true.
Proof.
  unfold Redis.string2ll.
  destruct (Js.canonical_int s) as [n|]; [|discriminate].
  destruct (Redis.in_range n) eqn:E; [|discriminate].
  intros [= <-]. exact E.
Qed.

Lemma in_range_succ (n : Z) :
  Redis.in_range n = true → n < Redis.int64_max → Redis.in_range (n + 1) = true.
Proof.
  unfold Redis.in_range, Redis.int64_max, Redis.int64_min.
  rewrite !andb_true_iff, !Z.leb_le. lia.
Qed.

Lemma in_range_zero : Redis.in_range 0 = true.
Proof. reflexivity. Qed.

(** The counter of a reel and the flag of a reel and an actor never
    share a key. *)
Lemma counter_flag_keys_differ (r r' u : string) :
  Likes.counter_key r ≠ Likes.flag_key r' u.
Proof. unfold Likes.counter_key, Likes.flag_key. simpl. discriminate. Qed.

(** ** Likes *)

Section LikeFacts.

Variable env : Env.
Hypothesis redis_up : redis_throws env = false.

Lemma truthy_or_str (u : string) : u ≠ "" → Js.truthy (Some u) = true.
Proof.
  intros H. simpl. destruct (String.eqb_spec u ""); [contradiction|reflexivity].
Qed.

Lemma or_str_some (u : string) : u ≠ "" → Js.or_str (Some u) "" = u.
Proof.
  intros H. simpl. destruct (String.eqb_spec u ""); [contradiction|reflexivity].
Qed.

(** A like of an actor whose flag is set changes nothing and answers
    with a message. *)
Lemma like_flagged (now : Z) (st : Stores) (r u : string) :
  u ≠ "" → Likes.flag_set st r u = true →
  Likes.like env now st r (Some u) = (st, Likes.Message "Already liked" true).
Proof.
  intros Hu Hf. unfold Likes.like.
  rewrite truthy_or_str, or_str_some by assumption. simpl.
  rewrite redis_up. unfold Likes.flag_set in Hf. rewrite Hf. reflexivity.
Qed.

(** The increment done by INCR on a well-formed counter. *)
Lemma incr_stored (st : Stores) (r : string) (n : Z) :
  Likes.stored_count st r = Some n → n < Redis.int64_max →
  ∃ ttl, Redis.incr (redis st) (Likes.counter_key r)
         = Some (<[Likes.counter_key r := Redis.Entry (Redis.show_int (n + 1)) ttl]>
                   (redis st), n + 1).
Proof.
  unfold Likes.stored_count, Redis.incr, Redis.incrby. intros Hn Hmax.
  destruct (redis st !! Likes.counter_key r) as [e|] eqn:E.
  - rewrite Hn, (in_range_succ n (string2ll_range _ _ Hn) Hmax). eauto.
  - injection Hn as <-. simpl. eauto.
Qed.

Lemma like_unflagged (now : Z) (st : Stores) (r u : string) (n : Z) :
  u ≠ "" → Likes.stored_count st r = Some n → n < Redis.int64_max →
  Likes.flag_set st r u = false →
  snd (Likes.like env now st r (Some u)) = Likes.Count (n + 1) true
  ∧ Likes.stored_count (fst (Likes.like env now st r (Some u))) r = Some (n + 1)
  ∧ Likes.flag_set (fst (Likes.like env now st r (Some u))) r u = true.
Proof.
  intros Hu Hn Hmax Hf.
  destruct (incr_stored st r n Hn Hmax) as [ttl Hi].
  unfold Likes.like.
  rewrite truthy_or_str, or_str_some by assumption. simpl.
  rewrite redis_up. unfold Likes.flag_set in Hf. rewrite Hf, Hi. simpl.
  split; [reflexivity|]. split.
  - unfold Likes.stored_count. simpl. unfold Redis.set_ex.
    rewrite lookup_insert_ne by (intros E; symmetry in E; exact (counter_flag_keys_differ _ _ _ E)).
    rewrite lookup_insert_eq. simpl. apply string2ll_show.
    apply in_range_succ; [|assumption].
    unfold Likes.stored_count in Hn.
    destruct (redis st !! Likes.counter_key r); [exact (string2ll_range _ _ Hn)|].
    injection Hn as <-. reflexivity.
  - unfold Likes.flag_set, Redis.get. simpl. unfold Redis.set_ex.
    rewrite lookup_insert_eq. reflexivity.
Qed.

(** The flag written by a like lives for 30 days. *)
Lemma like_flag_ttl (now : Z) (st : Stores) (r u : string) (n : Z) :
  u ≠ "" → Likes.stored_count st r = Some n → n < Redis.int64_max →
  Likes.flag_set st r u = false →
  redis (fst (Likes.like env now st r (Some u))) !! Likes.flag_key r u
  = Some (Redis.Entry "1" (Some (86400 * 30))).
Proof.
  intros Hu Hn Hmax Hf.
  destruct (incr_stored st r n Hn Hmax) as [ttl Hi].
  unfold Likes.like.
  rewrite truthy_or_str, or_str_some by assumption. simpl.
  rewrite redis_up. unfold Likes.flag_set in Hf. rewrite Hf, Hi. simpl.
  unfold Redis.set_ex. apply lookup_insert_eq.
Qed.

End LikeFacts.

(** A flag outlives every time shorter than its life time. *)
Lemma flag_survives (secs t : Z) (st : Stores) (r u : string) :
  redis st !! Likes.flag_key r u = Some (Redis.Entry "1" (Some t)) →
  secs < t → Likes.flag_set (elapse secs st) r u = true.
Proof.
  intros Hk Hs. unfold Likes.flag_set, Redis.get, elapse, Redis.elapse. simpl.
  rewrite lookup_omap, Hk. simpl.
  destruct (Z.ltb_spec secs t); [done|lia].
Qed.

(** C4 (as amended).  A like of an actor whose flag is not set answers
    with the incremented count, stores it and sets the flag; a like of
    an actor whose flag is set leaves every store as it is and answers
    with the message "Already liked", which carries no count.  Two likes
    of one actor on one reel therefore increment the counter once, also
    when less than the 30 days of the flag pass between them. *)
Theorem like_once_per_actor (env : Env) (now now' : Z) (st : Stores)
    (r u : string) (n : Z) :
  redis_throws env = false → u ≠ "" →
  Likes.stored_count st r = Some n → n < Redis.int64_max →
  Likes.flag_set st r u = false →
  let first := Likes.like env now st r (Some u) in
  let second := Likes.like env now' (fst first) r (Some u) in
  snd first = Likes.Count (n + 1) true
  ∧ Likes.stored_count (fst first) r = Some (n + 1)
  ∧ Likes.flag_set (fst first) r u = true
  ∧ second = (fst first, Likes.Message "Already liked" true)
  ∧ Likes.stored_count (fst second) r = Some (n + 1)
  ∧ (∀ st', Likes.flag_set st' r u = true →
            Likes.like env now' st' r (Some u)
            = (st', Likes.Message "Already liked" true))
  ∧ (∀ secs, secs < 86400 * 30 →
             Likes.like env now' (elapse secs (fst first)) r (Some u)
             = (elapse secs (fst first), Likes.Message "Already liked" true)).
Proof.
  intros Hup Hu Hn Hmax Hf first second.
  destruct (like_unflagged env Hup now st r u n Hu Hn Hmax Hf) as (H1 & H2 & H3).
  assert (Hsecond : second = (fst first, Likes.Message "Already liked" true))
    by (apply like_flagged; assumption).
  repeat split; try assumption.
  - rewrite Hsecond. exact H2.
  - intros st' Hst'. apply like_flagged; assumption.
  - intros secs Hsecs. apply like_flagged; try assumption.
    eapply flag_survives;
      [exact (like_flag_ttl env Hup now st r u n Hu Hn Hmax Hf)|assumption].
Qed.

Lemma like_once_per_actor_witness :
  let first := Likes.like (healthy false) 1 empty_stores "p" (Some "a") in
  let second := Likes.like (healthy false) 2 (fst first) "p" (Some "a") in
  snd first = Likes.Count 1 true
  ∧ Likes.stored_count (fst second) "p" = Some 1.
Proof.
  pose proof (like_once_per_actor (healthy false) 1 2 empty_stores "p" "a" 0)
    as H.
  destruct H as (H1 & _ & _ & _ & H5 & _ & _);
    [reflexivity | discriminate | reflexivity | reflexivity | reflexivity |].
  split; [exact H1 | exact H5].
Defined.

(** C4 as it is written fails: the second like of an actor does not
    return the current count; its answer has no [likesCount].  And once
    the 30 days of the flag are over, a like of the same actor counts
    again. *)
Lemma like_again_returns_no_count :
  let st1 := fst (Likes.like (healthy false) 1 empty_stores "p" (Some "a")) in
  let again := snd (Likes.like (healthy false) 2 st1 "p" (Some "a")) in
  let later := elapse (86400 * 30) st1 in
  Likes.flag_set st1 "p" "a" = true
  ∧ Likes.count_of (Likes.getCount (healthy false) st1 "p" None) = Some 1
  ∧ again = Likes.Message "Already liked" true
  ∧ Likes.count_of again
    ≠ Likes.count_of (Likes.getCount (healthy false) st1 "p" None)
  ∧ snd (Likes.like (healthy false) 3 later "p" (Some "a")) = Likes.Count 2 true.
Proof. vm_compute. repeat split; discriminate. Qed.

(** ** Unlikes *)

Section UnlikeFacts.

Variable env : Env.
Hypothesis redis_up : redis_throws env = false.

Lemma unlike_unflagged (st : Stores) (r u : string) :
  u ≠ "" → Likes.flag_set st r u = false →
  Likes.unlike env st r (Some u) = (st, Likes.Message "Not liked" false).
Proof.
  intros Hu Hf. unfold Likes.unlike.
  rewrite truthy_or_str, or_str_some by assumption. simpl.
  rewrite redis_up. unfold Likes.flag_set in Hf. rewrite Hf. reflexivity.
Qed.

Lemma in_range_pred (n : Z) :
  Redis.in_range n = true → Redis.int64_min < n → Redis.in_range (n - 1) = true.
Proof.
  unfold Redis.in_range, Redis.int64_max, Redis.int64_min.
  rewrite !andb_true_iff, !Z.leb_le. lia.
Qed.

(** An unlike of an actor whose flag is set: the stored counter is
    decremented as it is; only the number in the answer is clamped. *)
Lemma unlike_flagged (st : Stores) (r u : string) (n : Z) :
  u ≠ "" → Likes.stored_count st r = Some n → Redis.int64_min < n →
  Likes.flag_set st r u = true →
  snd (Likes.unlike env st r (Some u)) = Likes.Count (Z.max 0 (n - 1)) false
  ∧ Likes.stored_count (fst (Likes.unlike env st r (Some u))) r = Some (n - 1)
  ∧ Likes.flag_set (fst (Likes.unlike env st r (Some u))) r u = false.
Proof.
  intros Hu Hn Hmin Hf.
  assert (Hr : Redis.in_range (n + -1) = true).
  { replace (n + -1) with (n - 1) by lia. apply in_range_pred; [|assumption].
    unfold Likes.stored_count in Hn.
    destruct (redis st !! Likes.counter_key r); [exact (string2ll_range _ _ Hn)|].
    injection Hn as <-. reflexivity. }
  assert (Hd : ∃ ttl, Redis.decr (redis st) (Likes.counter_key r)
                = Some (<[Likes.counter_key r :=
                            Redis.Entry (Redis.show_int (n + -1)) ttl]> (redis st),
                        n + -1)).
  { unfold Likes.stored_count in Hn. unfold Redis.decr, Redis.incrby.
    destruct (redis st !! Likes.counter_key r) as [e|].
    - rewrite Hn, Hr. eauto.
    - injection Hn as <-. simpl. eauto. }
  destruct Hd as [ttl Hd].
  unfold Likes.unlike.
  rewrite truthy_or_str, or_str_some by assumption. simpl.
  rewrite redis_up. unfold Likes.flag_set in Hf. rewrite Hf, Hd. simpl.
  replace (n + -1) with (n - 1) in * by lia.
  split; [reflexivity|]. split.
  - unfold Likes.stored_count. simpl. unfold Redis.del.
    rewrite lookup_delete_ne by (intros E; symmetry in E; exact (counter_flag_keys_differ _ _ _ E)).
    rewrite lookup_insert_eq. simpl. apply string2ll_show. exact Hr.
  - unfold Likes.flag_set, Redis.get. simpl. unfold Redis.del.
    rewrite lookup_delete_eq. reflexivity.
Qed.

(** After a like of an actor, the unlike of that actor stores the count
    that was there before the like. *)
Lemma unlike_after_like (now : Z) (st : Stores) (r u : string) (n : Z) :
  u ≠ "" → Likes.stored_count st r = Some n →
  Redis.int64_min <= n < Redis.int64_max →
  Likes.flag_set st r u = false →
  let st1 := fst (Likes.like env now st r (Some u)) in
  Likes.stored_count (fst (Likes.unlike env st1 r (Some u))) r = Some n.
Proof.
  intros Hu Hn [Hmin Hmax] Hf st1.
  destruct (like_unflagged env redis_up now st r u n Hu Hn Hmax Hf) as (_ & H2 & H3).
  destruct (unlike_flagged st1 r u (n + 1) Hu H2 ltac:(lia) H3) as (_ & H & _).
  rewrite H. f_equal. lia.
Qed.

End UnlikeFacts.

(** C5.  The clamp is applied to the number that the unlike answers
    with, not to the stored counter: with the flag of an actor set and
    the counter at 0, the unlike answers 0, stores -1, and the count
    read afterwards is -1.  The same state is reached through the
    routes alone, from empty stores, with identifiers whose flag keys
    coincide. *)
Theorem unlike_leaves_negative_count :
  let E := healthy false in
  let st :=
    with_redis empty_stores
      (Redis.set_ex (Redis.set ∅ (Likes.counter_key "p") "0")
                    (Likes.flag_key "p" "a") "1" (86400 * 30)) in
  let st' := fst (Likes.unlike E st "p" (Some "a")) in
  let s1 := fst (Likes.like E 1 empty_stores "a:b" (Some "c")) in
  let s2 := fst (Likes.unlike E s1 "a" (Some "b:c")) in
  snd (Likes.unlike E st "p" (Some "a")) = Likes.Count 0 false
  ∧ Likes.stored_count st' "p" = Some (-1)
  ∧ Likes.getCount E st' "p" (Some "a") = Likes.Count (-1) false
  ∧ Likes.getCount E s2 "a" None = Likes.Count (-1) false.
Proof. vm_compute. repeat split. Qed.

(** ** The clustering order and the insertion into a partition *)

Lemma compare_refl (a : Cassandra.key) : Cassandra.compare a a = Eq.
Proof.
  unfold Cassandra.compare. rewrite Z.compare_refl. apply N.compare_refl.
Qed.

Lemma compare_eq (a b : Cassandra.key) : Cassandra.compare a b = Eq → a = b.
Proof.
  destruct a as [t i], b as [t' i']. unfold Cassandra.compare. simpl.
  destruct (Z.compare_spec t' t); try discriminate.
  intros Hi%N.compare_eq. congruence.
Qed.

Lemma compare_gt_lt (a b : Cassandra.key) :
  Cassandra.compare a b = Gt → Cassandra.compare b a = Lt.
Proof.
  destruct a as [t i], b as [t' i']. unfold Cassandra.compare. simpl.
  rewrite (Z.compare_antisym t' t), (N.compare_antisym i i').
  destruct (t' ?= t), (i ?= i')%N; simpl; congruence.
Qed.

Lemma before_trans (a b c : Cassandra.key) :
  Cassandra.before a b → Cassandra.before b c → Cassandra.before a c.
Proof.
  destruct a as [t1 i1], b as [t2 i2], c as [t3 i3].
  unfold Cassandra.before, Cassandra.compare. simpl.
  destruct (Z.compare_spec t2 t1), (Z.compare_spec t3 t2), (Z.compare_spec t3 t1);
    try discriminate; try lia; try reflexivity.
  rewrite !N.compare_lt_iff. lia.
Qed.

Lemma before_irrefl (a : Cassandra.key) : ¬ Cassandra.before a a.
Proof. unfold Cassandra.before. rewrite compare_refl. discriminate. Qed.

Section Insert.

Context {V : Type}.
Implicit Types (k : Cassandra.key) (v : V) (rows : list (Cassandra.key * V)).

Lemma elem_of_insert k v rows x :
  x ∈ Cassandra.insert k v rows → x = (k, v) ∨ (x ∈ rows ∧ x.1 ≠ k) ∨
                                   (x ∈ rows ∧ ¬ Cassandra.sorted rows).
Proof.
  induction rows as [|r rows IH]; simpl.
  - intros ->%list_elem_of_singleton. by left.
  - destruct (Cassandra.compare k r.1) eqn:E.
    + apply compare_eq in E. subst k.
      intros [->|Hx]%elem_of_cons; [by left|].
      destruct (decide (x.1 = r.1)) as [Ex|Ex].
      * right. right. split; [by right|].
        intros Hs. apply StronglySorted_inv in Hs as [_ Hall].
        rewrite Forall_forall in Hall. specialize (Hall x Hx).
        rewrite Ex in Hall. exact (before_irrefl _ Hall).
      * right. left. split; [by right|done].
    + intros [->|Hx]%elem_of_cons; [by left|].
      destruct (decide (x.1 = k)) as [Ex|Ex]; [|right; left; done].
      right. right. split; [done|]. intros Hs.
      apply elem_of_cons in Hx as [->|Hx].
      * rewrite Ex in E. rewrite compare_refl in E. discriminate.
      * apply StronglySorted_inv in Hs as [_ Hall].
        rewrite Forall_forall in Hall. specialize (Hall x Hx).
        rewrite Ex in Hall.
        exact (before_irrefl _ (before_trans _ _ _ E Hall)).
    + intros [->|Hx]%elem_of_cons.
      * destruct (decide (r.1 = k)) as [Ex|Ex].
        -- rewrite Ex, compare_refl in E. discriminate.
        -- right. left. split; [by left|done].
      * destruct (IH Hx) as [->|[[H1 H2]|[H1 H2]]]; [by left| |].
        -- right. left. split; [by right|done].
        -- right. right. split; [by right|].
           intros Hs. apply H2. by apply StronglySorted_inv in Hs as [? _].
Qed.

Lemma elem_of_insert_weak k v rows x :
  x ∈ Cassandra.insert k v rows → x = (k, v) ∨ x ∈ rows.
Proof.
  intros H. destruct (elem_of_insert _ _ _ _ H) as [?|[[? _]|[? _]]]; auto.
Qed.

Lemma elem_of_insert_new k v rows : (k, v) ∈ Cassandra.insert k v rows.
Proof.
  induction rows as [|r rows IH]; simpl; [by left|].
  destruct (Cassandra.compare k r.1); [by left|by left|by right].
Qed.

Lemma elem_of_insert_old k v rows x :
  x ∈ rows → x.1 ≠ k → x ∈ Cassandra.insert k v rows.
Proof.
  induction rows as [|r rows IH]; simpl; [by intros ?%elem_of_nil|].
  intros [->|Hx]%elem_of_cons Hk.
  - destruct (Cassandra.compare k r.1) eqn:E.
    + apply compare_eq in E. congruence.
    + right. by left.
    + by left.
  - destruct (Cassandra.compare k r.1) eqn:E.
    + by right.
    + right. by right.
    + right. by apply IH.
Qed.

(** The insertion keeps the ordering invariant. *)
Lemma insert_sorted k v rows :
  Cassandra.sorted rows → Cassandra.sorted (Cassandra.insert k v rows).
Proof.
  unfold Cassandra.sorted.
  induction 1 as [|r rows Hs IH Hall]; simpl.
  - constructor; constructor.
  - destruct (Cassandra.compare k r.1) eqn:E.
    + apply compare_eq in E. subst k. by constructor.
    + constructor; [by constructor|].
      constructor; [exact E|].
      eapply Forall_impl; [exact Hall|]. intros x Hx. simpl.
      eapply before_trans; [exact E|exact Hx].
    + constructor; [exact IH|].
      rewrite Forall_forall. intros x Hx.
      apply elem_of_insert_weak in Hx as [->|Hx].
      * simpl. by apply compare_gt_lt.
      * rewrite Forall_forall in Hall. by apply Hall.
Qed.

(** Writing a row again changes nothing. *)
Lemma insert_insert k v rows :
  Cassandra.insert k v (Cassandra.insert k v rows) = Cassandra.insert k v rows.
Proof.
  induction rows as [|r rows IH]; simpl.
  - by rewrite compare_refl.
  - destruct (Cassandra.compare k r.1) eqn:E; simpl.
    + by rewrite compare_refl.
    + by rewrite compare_refl.
    + by rewrite E, IH.
Qed.

Lemma insert_present k v rows :
  Cassandra.sorted rows → (k, v) ∈ rows → Cassandra.insert k v rows = rows.
Proof.
  unfold Cassandra.sorted.
  induction 1 as [|r rows Hs IH Hall]; simpl; [by intros ?%elem_of_nil|].
  intros [<-|Hin]%elem_of_cons.
  - simpl. by rewrite compare_refl.
  - rewrite Forall_forall in Hall. pose proof (Hall _ Hin) as Hb. simpl in Hb.
    pose proof (compare_gt_lt k r.1) as Hflip.
    destruct (Cassandra.compare k r.1) eqn:E.
    + apply compare_eq in E. subst k. destruct (before_irrefl _ Hb).
    + destruct (before_irrefl _ (before_trans _ _ _ E Hb)).
    + by rewrite IH.
Qed.

End Insert.

(** ** Tables *)

Section Tables.

Context {V : Type}.
Implicit Types (t : gmap string (list (Cassandra.key * V))).

Lemma partition_insert_row_eq t p k v :
  Cassandra.partition (Cassandra.insert_row t p k v) p
  = Cassandra.insert k v (Cassandra.partition t p).
Proof.
  unfold Cassandra.insert_row, Cassandra.partition at 1.
  by rewrite lookup_insert_eq.
Qed.

Lemma partition_insert_row_ne t p q k v :
  p ≠ q →
  Cassandra.partition (Cassandra.insert_row t p k v) q = Cassandra.partition t q.
Proof.
  intros Hne. unfold Cassandra.insert_row, Cassandra.partition at 1 3.
  by rewrite lookup_insert_ne.
Qed.

Lemma table_sorted_empty :
  Cassandra.table_sorted (∅ : gmap string (list (Cassandra.key * V))).
Proof.
  intros p. unfold Cassandra.partition. rewrite lookup_empty. constructor.
Qed.

(** An append keeps the ordering invariant of every partition. *)
Lemma insert_row_sorted t p k v :
  Cassandra.table_sorted t → Cassandra.table_sorted (Cassandra.insert_row t p k v).
Proof.
  intros Ht q. destruct (decide (p = q)) as [<-|Hne].
  - rewrite partition_insert_row_eq. apply insert_sorted, Ht.
  - rewrite partition_insert_row_ne by done. apply Ht.
Qed.

End Tables.

(** A property of tables kept by every append is kept by the loops of
    appends. *)
Lemma foldl_invariant {A B} (P : A → Prop) (f : A → B → A) (l : list B) (a : A) :
  (∀ a b, b ∈ l → P a → P (f a b)) → P a → P (foldl f a l).
Proof.
  revert a. induction l as [|b l IH]; simpl; intros a Hf Ha; [done|].
  apply IH.
  - intros a' b' Hb'. apply Hf. by right.
  - apply Hf; [by left|done].
Qed.

Section Loops.

Variable env : Env.
Implicit Types (tl : gmap string (list (Cassandra.key * string))).

Lemma backfill_sorted owner author rows tl :
  Cassandra.table_sorted tl →
  Cassandra.table_sorted (Users.backfill env owner author rows tl).
Proof.
  intros Ht. unfold Users.backfill.
  apply (foldl_invariant Cassandra.table_sorted); [|done].
  intros t row _ H. destruct (timeline_throws env owner); [done|].
  by apply insert_row_sorted.
Qed.

Lemma repair_sorted st owner ids :
  Cassandra.table_sorted (timeline st) →
  Cassandra.table_sorted (Reels.repair env st owner ids).
Proof.
  intros Ht. unfold Reels.repair.
  apply (foldl_invariant Cassandra.table_sorted); [|done].
  intros t f _ H. by apply backfill_sorted.
Qed.

Lemma fan_out_sorted now rid author followers tl :
  Cassandra.table_sorted tl →
  Cassandra.table_sorted (Reels.fan_out env now rid author followers tl).
Proof.
  intros Ht. unfold Reels.fan_out.
  apply (foldl_invariant Cassandra.table_sorted); [|done].
  intros t f _ H. destruct (timeline_throws env f); [done|].
  by apply insert_row_sorted.
Qed.

(** The loops write to the partition of the owner only. *)
Lemma backfill_other owner author rows tl q :
  owner ≠ q →
  Cassandra.partition (Users.backfill env owner author rows tl) q
  = Cassandra.partition tl q.
Proof.
  intros Hne. unfold Users.backfill.
  apply (foldl_invariant
           (λ t, Cassandra.partition t q = Cassandra.partition tl q)); [|done].
  intros t row _ H. destruct (timeline_throws env owner); [done|].
  by rewrite partition_insert_row_ne.
Qed.

Lemma repair_other st owner ids q :
  owner ≠ q →
  Cassandra.partition (Reels.repair env st owner ids) q
  = Cassandra.partition (timeline st) q.
Proof.
  intros Hne. unfold Reels.repair.
  apply (foldl_invariant
           (λ t, Cassandra.partition t q = Cassandra.partition (timeline st) q));
    [|done].
  intros t f _ H. by rewrite backfill_other.
Qed.

(** Every row of the owner's partition after a backfill was there
    before or is a row of the index, with that author. *)
Lemma backfill_elem owner author rows tl x :
  x ∈ Cassandra.partition (Users.backfill env owner author rows tl) owner →
  x ∈ Cassandra.partition tl owner ∨ (x.2 = author ∧ (x.1, tt) ∈ rows).
Proof.
  unfold Users.backfill.
  apply (foldl_invariant
           (λ t, x ∈ Cassandra.partition t owner →
                 x ∈ Cassandra.partition tl owner
                 ∨ (x.2 = author ∧ (x.1, tt) ∈ rows))); [|by left].
  intros t [k []] Hrow IH. destruct (timeline_throws env owner); [done|].
  rewrite partition_insert_row_eq.
  intros [->|Hx]%elem_of_insert_weak; [by right|by apply IH].
Qed.

Lemma repair_elem st owner ids x :
  x ∈ Cassandra.partition (Reels.repair env st owner ids) owner →
  x ∈ Cassandra.partition (timeline st) owner
  ∨ (x.2 ∈ ids
     ∧ (x.1, tt) ∈ take 20 (Cassandra.partition (user_reels st) x.2)).
Proof.
  unfold Reels.repair.
  apply (foldl_invariant
           (λ t, x ∈ Cassandra.partition t owner →
                 x ∈ Cassandra.partition (timeline st) owner
                 ∨ (x.2 ∈ ids
                    ∧ (x.1, tt) ∈ take 20 (Cassandra.partition (user_reels st) x.2))));
    [|by left].
  intros t f Hf IH Hx.
  apply backfill_elem in Hx as [Hx|[<- Hx]]; [by apply IH|by right].
Qed.

End Loops.

(** ** What the handlers leave alone *)

Ltac handler_cases :=
  repeat (first [progress simpl | case_match]); try done.

Lemma like_timeline env now st r u :
  timeline (fst (Likes.like env now st r u)) = timeline st.
Proof. unfold Likes.like. handler_cases. Qed.

Lemma unlike_timeline env st r u :
  timeline (fst (Likes.unlike env st r u)) = timeline st.
Proof. unfold Likes.unlike. handler_cases. Qed.

Lemma unfollow_timeline env st u f :
  timeline (fst (Users.unfollow env st u f)) = timeline st.
Proof. unfold Users.unfollow. handler_cases. Qed.

Lemma follow_timeline env now st u f :
  timeline (fst (Users.follow env now st u f)) = timeline st
  ∨ ∃ rows, timeline (fst (Users.follow env now st u f))
            = Users.backfill env (Js.or_str f "") u rows (timeline st).
Proof. unfold Users.follow. handler_cases; eauto. Qed.

Lemma createPost_timeline env now rid st u c m :
  timeline (fst (Reels.createPost env now rid st u c m)) = timeline st
  ∨ ∃ fs, timeline (fst (Reels.createPost env now rid st u c m))
          = Reels.fan_out env now rid (Js.or_str u "") fs (timeline st).
Proof. unfold Reels.createPost. handler_cases; eauto. Qed.

Lemma assemble_timeline env st owner limit st' refs :
  Reels.assemble env st owner limit = Some (st', refs) →
  timeline st' = timeline st
  ∨ ∃ ids, timeline st' = Reels.repair env st owner ids.
Proof.
  unfold Reels.assemble. intros H.
  repeat (case_match; try discriminate); simplify_eq; simpl; eauto.
Qed.

Lemma getFeed_timeline env st u limit :
  timeline (fst (Reels.getFeed env st u limit)) = timeline st
  ∨ ∃ ids, timeline (fst (Reels.getFeed env st u limit))
           = Reels.repair env st (Js.or_str u "") ids.
Proof.
  unfold Reels.getFeed.
  destruct (negb (Js.truthy u)); [by left|].
  destruct (Reels.assemble env st (Js.or_str u "") limit) as [[st' refs]|] eqn:E;
    [|by left].
  apply assemble_timeline in E. by destruct (length refs =? 0)%nat.
Qed.

Lemma step_sorted st st' :
  step st st' →
  Cassandra.table_sorted (timeline st) → Cassandra.table_sorted (timeline st').
Proof.
  intros Hstep Hs. destruct Hstep.
  - done.
  - by rewrite like_timeline.
  - by rewrite unlike_timeline.
  - destruct (follow_timeline env now st u f) as [->|[rows ->]]; [done|].
    by apply backfill_sorted.
  - by rewrite unfollow_timeline.
  - destruct (createPost_timeline env now rid st u c m) as [->|[fs ->]]; [done|].
    by apply fan_out_sorted.
  - destruct (getFeed_timeline env st u limit) as [->|[ids ->]]; [done|].
    by apply repair_sorted.
Qed.

Lemma reachable_sorted st : reachable st → Cassandra.table_sorted (timeline st).
Proof.
  unfold reachable. intros H.
  apply (rtc_ind_r (R := step) (λ s, Cassandra.table_sorted (timeline s)) empty_stores);
    [|intros y z _ Hyz Hy|exact H].
  - apply (table_sorted_empty (V := string)).
  - eapply step_sorted; eauto.
Qed.

(** ** The read-repair loop *)

Lemma foldl_establish {A B} (P : A → Prop) (f : A → B → A) (l : list B) (a : A)
    (b : B) :
  b ∈ l → (∀ a, P (f a b)) → (∀ a b', P a → P (f a b')) → P (foldl f a l).
Proof.
  intros Hb Hnew Hkeep. revert a.
  induction l as [|c l IH]; intros a; [by apply elem_of_nil in Hb|].
  simpl. apply elem_of_cons in Hb as [<-|Hb].
  - apply (foldl_invariant P); [|apply Hnew].
    intros a' b' _. apply Hkeep.
  - by apply IH.
Qed.

Lemma insert_keeps_key {V} (k k' : Cassandra.key) (v : V) rows :
  k' ∈ (fst <$> rows) → k' ∈ (fst <$> Cassandra.insert k v rows).
Proof.
  intros [x [-> Hx]]%list_elem_of_fmap.
  destruct (decide (x.1 = k)) as [<-|Hne].
  - apply list_elem_of_fmap. exists (x.1, v). split; [done|].
    apply elem_of_insert_new.
  - apply list_elem_of_fmap. exists x. split; [done|].
    by apply elem_of_insert_old.
Qed.

Lemma insert_has_key {V} (k : Cassandra.key) (v : V) rows :
  k ∈ (fst <$> Cassandra.insert k v rows).
Proof.
  apply list_elem_of_fmap. exists (k, v). split; [done|apply elem_of_insert_new].
Qed.

Lemma sorted_NoDup_keys {V} (rows : list (Cassandra.key * V)) :
  Cassandra.sorted rows → NoDup (fst <$> rows).
Proof.
  unfold Cassandra.sorted. induction 1 as [|x rows Hs IH Hall]; simpl.
  - constructor.
  - constructor; [|done].
    intros [y [Hy Hin]]%list_elem_of_fmap.
    rewrite Forall_forall in Hall. specialize (Hall y Hin). simpl in Hall.
    rewrite Hy in Hall. exact (before_irrefl _ Hall).
Qed.

Section RepairFacts.

Variable env : Env.

Lemma backfill_keeps_key owner author rows tl k :
  k ∈ (fst <$> Cassandra.partition tl owner) →
  k ∈ (fst <$> Cassandra.partition (Users.backfill env owner author rows tl) owner).
Proof.
  intros Hk. unfold Users.backfill.
  apply (foldl_invariant (λ t, k ∈ (fst <$> Cassandra.partition t owner))); [|done].
  intros t row _ Ht. destruct (timeline_throws env owner); [done|].
  rewrite partition_insert_row_eq. by apply insert_keeps_key.
Qed.

Lemma backfill_has_key owner author rows tl k :
  timeline_throws env owner = false → (k, tt) ∈ rows →
  k ∈ (fst <$> Cassandra.partition (Users.backfill env owner author rows tl) owner).
Proof.
  intros Hup Hk. unfold Users.backfill.
  apply (foldl_establish (λ t, k ∈ (fst <$> Cassandra.partition t owner))
           _ rows tl (k, tt)); [done| |].
  - intros t. rewrite Hup, partition_insert_row_eq. apply insert_has_key.
  - intros t row Ht. rewrite Hup, partition_insert_row_eq.
    by apply insert_keeps_key.
Qed.

(** No omission: after the repair the partition has the key of each of
    the 20 newest rows of each followed user. *)
Lemma repair_has_key st owner ids f k :
  timeline_throws env owner = false → f ∈ ids →
  (k, tt) ∈ take 20 (Cassandra.partition (user_reels st) f) →
  k ∈ (fst <$> Cassandra.partition (Reels.repair env st owner ids) owner).
Proof.
  intros Hup Hf Hk. unfold Reels.repair.
  apply (foldl_establish (λ t, k ∈ (fst <$> Cassandra.partition t owner))
           _ ids (timeline st) f); [done| |].
  - intros t. by apply backfill_has_key.
  - intros t f' Ht. by apply backfill_keeps_key.
Qed.

Lemma repair_owner_sorted st owner ids :
  Cassandra.sorted (Cassandra.partition (timeline st) owner) →
  Cassandra.sorted (Cassandra.partition (Reels.repair env st owner ids) owner).
Proof.
  intros Hs. unfold Reels.repair.
  apply (foldl_invariant (λ t, Cassandra.sorted (Cassandra.partition t owner)));
    [|done].
  intros t f _ Ht. unfold Users.backfill.
  apply (foldl_invariant (λ t, Cassandra.sorted (Cassandra.partition t owner)));
    [|done].
  intros t' row _ Ht'. destruct (timeline_throws env owner); [done|].
  rewrite partition_insert_row_eq. by apply insert_sorted.
Qed.

End RepairFacts.

(** ** Assembling a feed *)

Lemma before_iff (a b : Cassandra.key) :
  Cassandra.before a b ↔ b.1 < a.1 ∨ (a.1 = b.1 ∧ (a.2 < b.2)%N).
Proof.
  destruct a as [t i], b as [t' i']. unfold Cassandra.before, Cassandra.compare.
  simpl. destruct (Z.compare_spec t' t).
  - rewrite N.compare_lt_iff. split; [intros; right; split; [lia|done]|].
    intros [?|[_ ?]]; [lia|done].
  - split; [by left|done].
  - split; [done|]. intros [?|[? _]]; lia.
Qed.

Lemma filter_uuid_truthy (refs : list Reels.ref) :
  filter (λ r, Uuid.truthy (Reels.reelId r) = true) refs = refs.
Proof.
  induction refs as [|r refs IH]; [done|].
  rewrite filter_cons_True by done. by rewrite IH.
Qed.

Lemma sorted_take {V} (n : nat) (rows : list (Cassandra.key * V)) :
  Cassandra.sorted rows → Cassandra.sorted (take n rows).
Proof.
  unfold Cassandra.sorted. intros H. rewrite <- (take_drop n rows) in H.
  by apply StronglySorted_app_1_l in H.
Qed.

Lemma timeline_refs_ordered (rows : list (Cassandra.key * string)) :
  Cassandra.sorted rows →
  StronglySorted Reels.precedes (Reels.timeline_ref <$> rows).
Proof.
  apply StronglySorted_fmap. intros x y Hxy.
  apply before_iff in Hxy. exact Hxy.
Qed.

Lemma select_some {V} (t : gmap string (list (Cassandra.key * V))) p limit :
  0 < limit →
  Cassandra.select t p limit = Some (take (Z.to_nat limit) (Cassandra.partition t p)).
Proof.
  intros H. unfold Cassandra.select.
  destruct (Z.leb_spec limit 0); [lia|done].
Qed.

(** The read of a feed whose partition is empty, for an owner who
    follows somebody: the partition is repaired and read again. *)
Lemma assemble_repair env st owner limit :
  cassandra_throws env = false → mongo_throws env = false → 0 < limit →
  Cassandra.partition (timeline st) owner = [] →
  Mongo.find_by_follower (follows st) owner ≠ [] →
  let ids := Mongo.followedId <$> Mongo.find_by_follower (follows st) owner in
  let st' := with_timeline st (Reels.repair env st owner ids) in
  Reels.assemble env st owner limit
  = Some (st', Reels.timeline_ref
                 <$> take (Z.to_nat limit) (Cassandra.partition (timeline st') owner)).
Proof.
  intros Hc Hm Hl Hempty Hf ids st'. unfold Reels.assemble.
  rewrite Hc, Hm, select_some, Hempty by done.
  rewrite take_nil. simpl.
  destruct (Mongo.find_by_follower (follows st) owner) as [|f fs] eqn:E; [done|].
  simpl. fold st'. rewrite select_some by done.
  by rewrite filter_uuid_truthy.
Qed.

(** C2.  Every partition of the timeline of reachable stores is in
    clustering order (newer first, equal dates by ascending reel id, no
    key twice); an append, the read-repair loop and the fan-out loop
    keep that order.  For an owner whose partition is empty and who
    follows somebody, the assembled feed is in that order, and each of
    its references names a followed user as author and is one of the 20
    newest rows of that user's index. *)
Theorem timeline_order_invariant :
  (∀ st, reachable st → Cassandra.table_sorted (timeline st))
  ∧ (∀ (tl : gmap string (list (Cassandra.key * string))) p k v,
       Cassandra.table_sorted tl →
       Cassandra.table_sorted (Cassandra.insert_row tl p k v))
  ∧ (∀ env st owner ids,
       Cassandra.table_sorted (timeline st) →
       Cassandra.table_sorted (Reels.repair env st owner ids))
  ∧ (∀ env now rid author fs tl,
       Cassandra.table_sorted tl →
       Cassandra.table_sorted (Reels.fan_out env now rid author fs tl))
  ∧ (∀ env st owner limit,
       cassandra_throws env = false → mongo_throws env = false → 0 < limit →
       Cassandra.partition (timeline st) owner = [] →
       Mongo.find_by_follower (follows st) owner ≠ [] →
       ∃ st' refs,
         Reels.assemble env st owner limit = Some (st', refs)
         ∧ StronglySorted Reels.precedes refs
         ∧ ∀ r, r ∈ refs →
             (∃ f, f ∈ follows st ∧ Mongo.followerId f = owner
                   ∧ Mongo.followedId f = Reels.authorId r)
             ∧ ((Reels.createdAt r, Reels.reelId r), tt)
               ∈ take 20 (Cassandra.partition (user_reels st) (Reels.authorId r))).
Proof.
  split; [exact reachable_sorted|].
  split; [intros; by apply insert_row_sorted|].
  split; [intros; by apply repair_sorted|].
  split; [intros; by apply fan_out_sorted|].
  intros env st owner limit Hc Hm Hl Hempty Hf.
  eexists _, _. split; [by apply assemble_repair|].
  set (ids := Mongo.followedId <$> Mongo.find_by_follower (follows st) owner).
  assert (Hs : Cassandra.sorted
                 (Cassandra.partition (Reels.repair env st owner ids) owner)).
  { apply repair_owner_sorted. rewrite Hempty. constructor. }
  split.
  - apply timeline_refs_ordered, sorted_take. exact Hs.
  - intros r [x [-> Hx]]%list_elem_of_fmap.
    apply subseteq_take in Hx. simpl in Hx.
    apply repair_elem in Hx as [Hx|[Hid Hrow]].
    + rewrite Hempty in Hx. by apply elem_of_nil in Hx.
    + split; [|by destruct x as [[t i] a]].
      apply list_elem_of_fmap in Hid as [f [Hf1 Hf2]].
      unfold Mongo.find_by_follower in Hf2.
      apply list_elem_of_filter in Hf2 as [Hf2 Hf3].
      exists f. simpl. done.
Qed.

Lemma assemble_present env st owner limit :
  cassandra_throws env = false → 0 < limit →
  Cassandra.partition (timeline st) owner ≠ [] →
  Reels.assemble env st owner limit
  = Some (st, Reels.timeline_ref
                <$> take (Z.to_nat limit) (Cassandra.partition (timeline st) owner)).
Proof.
  intros Hc Hl Hne. unfold Reels.assemble.
  rewrite Hc, select_some by done.
  destruct (Cassandra.partition (timeline st) owner) as [|x rows]; [done|].
  destruct (Z.to_nat limit) as [|n] eqn:E; [lia|].
  simpl. by rewrite filter_uuid_truthy.
Qed.

Lemma assemble_self_view env st owner limit :
  cassandra_throws env = false → mongo_throws env = false → 0 < limit →
  Cassandra.partition (timeline st) owner = [] →
  Mongo.find_by_follower (follows st) owner = [] →
  Reels.assemble env st owner limit
  = Some (st, Reels.own_ref owner
                <$> take (Z.to_nat limit) (Cassandra.partition (user_reels st) owner)).
Proof.
  intros Hc Hm Hl Hempty Hf. unfold Reels.assemble.
  rewrite Hc, Hm, select_some, Hempty, Hf by done.
  rewrite take_nil. simpl. rewrite select_some by done.
  by rewrite filter_uuid_truthy.
Qed.

(** C1 (as amended).  For a page size that is positive, the feed first
    reads the partition of the owner, limited to the page size.  A
    partition that is not empty is returned as it is and nothing is
    written.  For an empty partition and an owner who follows somebody,
    the 20 newest rows of the index of each followed user are inserted
    into the partition (a key is stored once, other partitions are left
    alone, no row is left out) and the partition is read again.  For an
    empty partition and an owner who follows nobody, the rows of the
    index of the owner are returned, each as a reference to its reel at
    its date with the owner as author.  A feed without references is
    answered with an empty page and a message, not with an error.  A
    page size that is not positive is answered with an error, and
    nothing is written. *)
Theorem getFeed_read_repair (env : Env) (st : Stores) (owner : string)
    (limit : Z) :
  cassandra_throws env = false → mongo_throws env = false →
  let part := Cassandra.partition (timeline st) owner in
  let ids := Mongo.followedId <$> Mongo.find_by_follower (follows st) owner in
  let repaired := with_timeline st (Reels.repair env st owner ids) in
  let part' := Cassandra.partition (timeline repaired) owner in
  (0 < limit →
   (part ≠ [] →
    Reels.assemble env st owner limit
    = Some (st, (λ row : Cassandra.key * string,
                   Reels.Ref row.1.2 (Uuid.toString row.1.2) row.2 row.1.1)
                  <$> take (Z.to_nat limit) part))
   ∧ (part = [] → ids ≠ [] →
      Reels.assemble env st owner limit
      = Some (repaired,
              (λ row : Cassandra.key * string,
                 Reels.Ref row.1.2 (Uuid.toString row.1.2) row.2 row.1.1)
                <$> take (Z.to_nat limit) part')
      ∧ (∀ x, x ∈ part' →
              x.2 ∈ ids
              ∧ (x.1, tt) ∈ take 20 (Cassandra.partition (user_reels st) x.2))
      ∧ (timeline_throws env owner = false →
         ∀ f k, f ∈ ids →
                (k, tt) ∈ take 20 (Cassandra.partition (user_reels st) f) →
                k ∈ (fst <$> part'))
      ∧ NoDup (fst <$> part')
      ∧ (∀ q, owner ≠ q →
              Cassandra.partition (timeline repaired) q
              = Cassandra.partition (timeline st) q))
   ∧ (part = [] → ids = [] →
      Reels.assemble env st owner limit
      = Some (st, (λ row : Cassandra.key * unit,
                     Reels.Ref row.1.2 (Uuid.toString row.1.2) owner row.1.1)
                    <$> take (Z.to_nat limit)
                          (Cassandra.partition (user_reels st) owner)))
   ∧ (owner ≠ "" →
      ∃ st' refs,
        Reels.assemble env st owner limit = Some (st', refs)
        ∧ Reels.getFeed env st (Some owner) limit
          = (st', if decide (refs = [])
                  then Reels.Page []
                         (Some "No reels found. Follow some users or create your first reel!")
                  else Reels.Page (Reels.enrich env st' refs) None)))
  ∧ (limit <= 0 → owner ≠ "" →
     Reels.getFeed env st (Some owner) limit
     = (st, Reels.FeedError 500 "Failed to fetch feed")).
Proof.
  intros Hc Hm part ids repaired part'. split.
  - intros Hl.
    assert (Hids : ids = [] ↔ Mongo.find_by_follower (follows st) owner = []).
    { unfold ids. destruct (Mongo.find_by_follower (follows st) owner); done. }
    assert (Hret : ∃ st' refs, Reels.assemble env st owner limit = Some (st', refs)).
    { destruct (decide (part = [])) as [Hp|Hp].
      - destruct (decide (ids = [])) as [Hi|Hi].
        + eexists _, _. apply assemble_self_view; try done. by apply Hids.
        + eexists _, _. apply assemble_repair; try done. by rewrite <- Hids.
      - eexists _, _. by apply assemble_present. }
    split; [intros Hp; by apply assemble_present|].
    split; [intros Hp Hi|split].
    + split; [apply assemble_repair; try done; by rewrite <- Hids|].
      split; [|split; [|split]].
      * intros x Hx. unfold part', repaired in Hx. simpl in Hx.
        apply repair_elem in Hx as [Hx|Hx]; [|done].
        fold part in Hx. rewrite Hp in Hx. by apply elem_of_nil in Hx.
      * intros Hup f k Hf Hk. unfold part', repaired. simpl.
        by eapply repair_has_key.
      * apply sorted_NoDup_keys. unfold part', repaired. simpl.
        apply repair_owner_sorted. fold part. rewrite Hp. constructor.
      * intros q Hq. unfold repaired. simpl. by apply repair_other.
    + intros Hp Hi. apply assemble_self_view; try done. by apply Hids.
    + intros Ho. destruct Hret as (st' & refs & Ha).
      exists st', refs. split; [done|].
      unfold Reels.getFeed. rewrite truthy_or_str, or_str_some by done.
      simpl. rewrite Ha.
      destruct refs; by repeat case_decide.
  - intros Hl Ho. unfold Reels.getFeed, Reels.assemble.
    rewrite truthy_or_str, or_str_some, Hc by done. simpl.
    unfold Cassandra.select. by rewrite (proj2 (Z.leb_le _ _)) by lia.
Qed.

(** ** Fan-out *)

Lemma filter_none {A} (P : A → Prop) `{∀ x, Decision (P x)} (l : list A) :
  (∀ x, x ∈ l → ¬ P x) → filter P l = [].
Proof.
  induction l as [|a l IH]; intros Hl; [done|].
  rewrite filter_cons_False by (apply Hl; by left).
  apply IH. intros x Hx. apply Hl. by right.
Qed.

Section FanOut.

Variable env : Env.
Variables (now : Z) (rid : N) (author : string).
Implicit Types (tl : gmap string (list (Cassandra.key * string))).

(** The partition of a user after the fan-out loop: the new row is
    inserted once for a listed follower whose append does not throw,
    however often the follower is listed. *)
Lemma fan_out_partition fs tl f :
  Cassandra.partition (Reels.fan_out env now rid author fs tl) f
  = if decide (f ∈ fs ∧ timeline_throws env f = false)
    then Cassandra.insert (now, rid) author (Cassandra.partition tl f)
    else Cassandra.partition tl f.
Proof.
  unfold Reels.fan_out. revert tl.
  induction fs as [|g fs IH]; intros tl; cbn [foldl].
  - destruct (decide _) as [[H _]|]; [by apply elem_of_nil in H|done].
  - rewrite IH. clear IH.
    assert (Hcons : ∀ P : Prop, f ∈ fs ∧ P → f ∈ g :: fs ∧ P)
      by (intros P [? ?]; split; [by right|done]).
    destruct (decide (f ∈ fs ∧ timeline_throws env f = false)) as [H1|H1];
      destruct (decide (f ∈ g :: fs ∧ timeline_throws env f = false)) as [H2|H2];
      try (exfalso; apply H2; by apply Hcons).
    + destruct (timeline_throws env g) eqn:Eg; [done|].
      destruct (decide (g = f)) as [->|Hne].
      * rewrite partition_insert_row_eq. apply insert_insert.
      * by rewrite partition_insert_row_ne.
    + destruct H2 as [[->|H2]%elem_of_cons H3]; [|exfalso; by apply H1].
      rewrite H3. by rewrite partition_insert_row_eq.
    + destruct (timeline_throws env g) eqn:Eg; [done|].
      destruct (decide (g = f)) as [->|Hne].
      * exfalso. apply H2. split; [by left|done].
      * by rewrite partition_insert_row_ne.
Qed.

(** Inserting the row of a reel that the partition does not mention
    yet gives exactly one row for that reel. *)
Lemma entries_for_insert rows t :
  (∀ x, x ∈ rows → x.1.2 ≠ rid) →
  Reels.entries_for rid (Cassandra.insert (t, rid) author rows)
  = [((t, rid), author)].
Proof.
  unfold Reels.entries_for.
  induction rows as [|r rows IH]; intros Hfresh; simpl.
  - by rewrite filter_cons_True, filter_nil.
  - assert (Hr : r.1.2 ≠ rid) by (apply Hfresh; by left).
    destruct (Cassandra.compare (t, rid) r.1) eqn:E.
    + apply compare_eq in E. rewrite <- E in Hr. done.
    + rewrite filter_cons_True by done. f_equal.
      apply filter_none. intros x Hx. by apply Hfresh.
    + rewrite filter_cons_False by done. apply IH.
      intros x Hx. apply Hfresh. by right.
Qed.

(** A second pass of the loop changes no partition: the key collisions
    are no-ops. *)
Lemma fan_out_twice fs tl f :
  Cassandra.partition
    (Reels.fan_out env now rid author fs (Reels.fan_out env now rid author fs tl)) f
  = Cassandra.partition (Reels.fan_out env now rid author fs tl) f.
Proof.
  rewrite !fan_out_partition. case_decide; [|done]. apply insert_insert.
Qed.

End FanOut.

Lemma resolve_followers_frame env st uid rs urs :
  Reels.resolve_followers env (with_user_reels (with_reels st rs) urs) uid
  = Reels.resolve_followers env st uid.
Proof. reflexivity. Qed.

(** C3 (as amended).  A valid request, with the reels tables and Redis
    up, is answered with the new id whatever the appends to the
    timelines do.  The reel is stored, it is in the index of its author,
    and its counter is "0".  The followers that receive it are those
    that the handler resolves: the list of the graph backend when that
    backend is connected, answers and lists somebody, otherwise the list
    of the MongoDB replica; when the two backends list the same
    followers these are the followers of the replica.  Each resolved
    follower whose append does not throw has exactly one row for the
    reel (when no row mentioned the id before), every other partition is
    unchanged, and a second pass of the loop changes nothing. *)
Theorem createPost_fan_out (env : Env) (now : Z) (rid : N) (st : Stores)
    (uid murl : string) (caption : option string) :
  uid ≠ "" → murl ≠ "" →
  cassandra_throws env = false → redis_throws env = false →
  (∀ p x, x ∈ Cassandra.partition (timeline st) p → x.1.2 ≠ rid) →
  let res := Reels.createPost env now rid st (Some uid) caption (Some murl) in
  let fs := Reels.resolve_followers env st uid in
  snd res = Reels.Created (Uuid.toString rid) "Reel created successfully"
  ∧ reels (fst res) !! rid
    = Some (Cassandra.Reel uid (Some (Js.or_str caption "")) (Some murl) (Some now))
  ∧ ((now, rid), tt) ∈ Cassandra.partition (user_reels (fst res)) uid
  ∧ Redis.get (redis (fst res)) (Likes.counter_key (Uuid.toString rid)) = Some "0"
  ∧ (∀ f, f ∈ fs → timeline_throws env f = false →
          Reels.entries_for rid (Cassandra.partition (timeline (fst res)) f)
          = [((now, rid), uid)])
  ∧ (∀ f, ¬ (f ∈ fs ∧ timeline_throws env f = false) →
          Cassandra.partition (timeline (fst res)) f
          = Cassandra.partition (timeline st) f)
  ∧ (∀ f, Cassandra.partition
            (Reels.fan_out env now rid uid fs (timeline (fst res))) f
          = Cassandra.partition (timeline (fst res)) f)
  ∧ (neo4j_connected env = true → neo4j_throws env = false →
     Neo4j.followers_of (neo4j st) uid ≠ [] →
     fs = Neo4j.followers_of (neo4j st) uid)
  ∧ ((neo4j_connected env = false ∨ neo4j_throws env = true
      ∨ Neo4j.followers_of (neo4j st) uid = []) →
     mongo_throws env = false →
     fs = Mongo.followerId <$> Mongo.find_by_followed (follows st) uid)
  ∧ (mongo_throws env = false →
     (∀ f, f ∈ Neo4j.followers_of (neo4j st) uid
           ↔ f ∈ (Mongo.followerId <$> Mongo.find_by_followed (follows st) uid)) →
     ∀ f, f ∈ fs
          ↔ f ∈ (Mongo.followerId <$> Mongo.find_by_followed (follows st) uid)).
Proof.
  intros Hu Hm Hc Hr Hfresh res fs.
  assert (Hres : res
    = (with_redis
         (with_timeline
            (with_user_reels
               (with_reels st
                  (<[rid := Cassandra.Reel uid (Some (Js.or_str caption ""))
                                           (Some murl) (Some now)]> (reels st)))
               (Cassandra.insert_row (user_reels st) uid (now, rid) tt))
            (Reels.fan_out env now rid uid fs (timeline st)))
         (Redis.set (redis st) (Likes.counter_key (Uuid.toString rid)) "0"),
       Reels.Created (Uuid.toString rid) "Reel created successfully")).
  { unfold res, Reels.createPost.
    rewrite !truthy_or_str, !or_str_some by done. simpl.
    by rewrite Hc, Hr. }
  rewrite Hres. simpl.
  split; [done|]. split; [by rewrite lookup_insert_eq|].
  split; [rewrite partition_insert_row_eq; apply elem_of_insert_new|].
  split; [unfold Redis.get, Redis.set; by rewrite lookup_insert_eq|].
  split; [|split; [|split; [|split; [|split]]]].
  - intros f Hf Hup. rewrite fan_out_partition.
    rewrite decide_True by done. apply entries_for_insert. apply Hfresh.
  - intros f Hf. rewrite fan_out_partition. by rewrite decide_False.
  - intros f. apply fan_out_twice.
  - intros H1 H2 H3. unfold fs, Reels.resolve_followers. rewrite H1, H2. simpl.
    by destruct (Neo4j.followers_of (neo4j st) uid).
  - intros H1 H2. unfold fs, Reels.resolve_followers. rewrite H2.
    destruct H1 as [H1|[H1|H1]]; rewrite H1; [done| |].
    + by rewrite andb_false_r.
    + by destruct (_ && _).
  - intros Hmongo Hsync f. unfold fs, Reels.resolve_followers. rewrite Hmongo.
    destruct (neo4j_connected env && negb (neo4j_throws env)); [|done].
    destruct (length (Neo4j.followers_of (neo4j st) uid) =? 0)%nat;
      [done|apply Hsync].
Qed.

Lemma createPost_fan_out_witness :
  let st := fst (Users.follow (healthy true) 1 demo_stores "u" (Some "a")) in
  let res := Reels.createPost (healthy true) 10 7 st (Some "u") None (Some "m") in
  snd res = Reels.Created (Uuid.toString 7) "Reel created successfully"
  ∧ Reels.entries_for 7 (Cassandra.partition (timeline (fst res)) "a")
    = [((10, 7%N), "u")].
Proof.
  pose proof (createPost_fan_out (healthy true) 10 7
                (fst (Users.follow (healthy true) 1 demo_stores "u" (Some "a")))
                "u" "m" None) as H.
  destruct H as (H1 & _ & _ & _ & H5 & _);
    [discriminate | discriminate | reflexivity | reflexivity | |].
  - intros p x Hx. vm_compute in Hx. by apply elem_of_nil in Hx.
  - split; [exact H1|]. apply H5; [|reflexivity].
    vm_compute. by left.
Defined.

(** C3 as it is written fails.  The follow of "b" is acknowledged
    while the write to the graph backend fails, so that "u" has the
    followers "a" and "b" in the replica and "a" alone in the graph.
    With every backend healthy, the reel of "u" reaches the partition of
    "a" and not that of "b". *)
Lemma createPost_omits_replica_follower :
  let st1 := fst (Users.follow (healthy true) 1 demo_stores "u" (Some "a")) in
  let second := Users.follow graph_failing 2 st1 "u" (Some "b") in
  let st2 := fst second in
  let res := Reels.createPost (healthy true) 10 7 st2 (Some "u") None (Some "m") in
  snd second = Users.Ok "Followed successfully" true
  ∧ Users.s_id <$> Users.followers (healthy true) st2 "u" = ["a"; "b"]
  ∧ snd res = Reels.Created (Uuid.toString 7) "Reel created successfully"
  ∧ Reels.entries_for 7 (Cassandra.partition (timeline (fst res)) "a")
    = [((10, 7%N), "u")]
  ∧ Reels.entries_for 7 (Cassandra.partition (timeline (fst res)) "b") = [].
Proof. vm_compute. repeat split. Qed.

(** ** Enrichment *)

Lemma settle_lookup {A B} (f : A → B) (xs : list A) (order : list nat)
    (arr : list (option B)) (i : nat) :
  length arr = length xs →
  foldl (λ arr i,
           match xs !! i with
           | Some x => <[i := Some (f x)]> arr
           | None => arr
           end) arr order !! i
  = if decide (i ∈ order ∧ i < length xs)%nat
    then Some (f <$> xs !! i) else arr !! i.
Proof.
  revert arr. induction order as [|j order IH]; intros arr Hlen; cbn [foldl].
  - destruct (decide _) as [[H _]|]; [by apply elem_of_nil in H|done].
  - rewrite IH by (destruct (xs !! j); [by rewrite length_insert|done]).
    destruct (decide (i ∈ order ∧ (i < length xs)%nat)) as [[H1 H2]|H1].
    + rewrite decide_True; [done|]. split; [by right|done].
    + destruct (decide (i ∈ j :: order ∧ (i < length xs)%nat)) as [[H2 H3]|H2].
      * apply elem_of_cons in H2 as [->|H2]; [|exfalso; by apply H1].
        destruct (lookup_lt_is_Some_2 xs j H3) as [x Hx]. rewrite Hx.
        rewrite list_lookup_insert_eq by lia. done.
      * destruct (xs !! j) as [x|] eqn:Hx; [|done].
        destruct (decide (i = j)) as [->|Hne].
        -- exfalso. apply H2. split; [by left|].
           by apply lookup_lt_Some in Hx.
        -- by rewrite list_lookup_insert_ne.
Qed.

(** Whatever the order in which the lookups end, the array is the one
    of the results in the order of the input. *)
Lemma settle_any_order {A B} (f : A → B) (xs : list A) (order : list nat) :
  order ≡ₚ seq 0 (length xs) →
  Js.settle f xs order = Some <$> (f <$> xs).
Proof.
  intros Hp. apply list_eq. intros i. unfold Js.settle.
  rewrite settle_lookup by apply length_replicate.
  rewrite !list_lookup_fmap.
  destruct (decide (i < length xs)%nat) as [Hi|Hi].
  - rewrite decide_True.
    + destruct (lookup_lt_is_Some_2 xs i Hi) as [x ->]. done.
    + split; [|done]. rewrite Hp. apply elem_of_seq. lia.
  - rewrite decide_False by (intros [_ ?]; done).
    rewrite (lookup_ge_None_2 (replicate _ _)) by (rewrite length_replicate; lia).
    rewrite lookup_ge_None_2 by lia. done.
Qed.

Lemma enrich_one_unresolved env st r :
  reels st !! Reels.reelId r = None → Reels.enrich_one env st r = None.
Proof.
  intros H. unfold Reels.enrich_one. rewrite H. by destruct (_ || _).
Qed.

Lemma enrich_one_resolved env st r :
  cassandra_throws env = false → mongo_throws env = false →
  redis_throws env = false → enrich_throws env (Reels.reelId r) = false →
  is_Some (reels st !! Reels.reelId r) →
  ∃ e, Reels.enrich_one env st r = Some e ∧ Reels.id e = Reels.reelIdString r.
Proof.
  intros Hc Hm Hr He [reel Hreel]. unfold Reels.enrich_one.
  rewrite Hc, He, Hreel, Hm, Hr. simpl. eauto.
Qed.

Lemma enrich_one_id env st r e :
  Reels.enrich_one env st r = Some e → Reels.id e = Reels.reelIdString r.
Proof.
  unfold Reels.enrich_one. intros H.
  repeat (case_match; try discriminate); by simplify_eq.
Qed.

Lemma omap_ids env st (refs : list Reels.ref) :
  Reels.id <$> omap (Reels.enrich_one env st) refs
  = Reels.reelIdString
      <$> filter (λ r, is_Some (Reels.enrich_one env st r)) refs.
Proof.
  induction refs as [|r refs IH]; [done|]. csimpl.
  destruct (Reels.enrich_one env st r) as [e|] eqn:E.
  - rewrite filter_cons_True by (rewrite E; eauto). csimpl.
    by rewrite IH, (enrich_one_id _ _ _ _ E).
  - rewrite filter_cons_False by (rewrite E; by intros [? ?]). done.
Qed.

Lemma omap_mjoin_settled {A B} (f : A → option B) (l : list A) :
  omap mjoin (Some <$> (f <$> l)) = omap f l.
Proof.
  induction l as [|x l IH]; [done|]. csimpl.
  by destruct (f x); rewrite IH.
Qed.

(** C7.  The join keeps, in the order of the input, the references
    whose enrichment gives a result; a reference whose reel is not in
    the reels table gives none and is dropped, the others are kept when
    nothing throws; the result does not depend on the order in which
    the lookups end. *)
Theorem enrich_keeps_input_order (env : Env) (st : Stores)
    (refs : list Reels.ref) :
  Reels.id <$> Reels.enrich env st refs
  = Reels.reelIdString
      <$> filter (λ r, is_Some (Reels.enrich_one env st r)) refs
  ∧ (∀ r, reels st !! Reels.reelId r = None → Reels.enrich_one env st r = None)
  ∧ (cassandra_throws env = false → mongo_throws env = false →
     redis_throws env = false → (∀ i, enrich_throws env i = false) →
     Reels.id <$> Reels.enrich env st refs
     = Reels.reelIdString
         <$> filter (λ r, is_Some (reels st !! Reels.reelId r)) refs)
  ∧ (∀ order, order ≡ₚ seq 0 (length refs) →
              Reels.enrich_settled env st refs order = Reels.enrich env st refs).
Proof.
  split; [apply omap_ids|]. split; [apply enrich_one_unresolved|]. split.
  - intros Hc Hm Hr He. unfold Reels.enrich. rewrite omap_ids. f_equal.
    apply list_filter_iff. intros r. split.
    + intros Hs. destruct (reels st !! Reels.reelId r) eqn:E; [eauto|].
      rewrite enrich_one_unresolved in Hs by done. by destruct Hs.
    + intros Hs.
      destruct (enrich_one_resolved env st r Hc Hm Hr (He _) Hs) as (e & -> & _).
      eauto.
  - intros order Hp. unfold Reels.enrich_settled, Reels.enrich.
    rewrite settle_any_order by done. apply omap_mjoin_settled.
Qed.

Lemma enrich_keeps_input_order_witness :
  let st :=
    fst (Reels.createPost (healthy false) 10 7 demo_stores
           (Some "u") None (Some "m")) in
  let refs := [Reels.Ref 9 (Uuid.toString 9) "u" 30;
               Reels.Ref 7 (Uuid.toString 7) "u" 10] in
  Reels.id <$> Reels.enrich (healthy false) st refs = [Uuid.toString 7]
  ∧ Reels.enrich_settled (healthy false) st refs [1; 0]%nat
    = Reels.enrich (healthy false) st refs.
Proof.
  pose proof (enrich_keeps_input_order (healthy false)
                (fst (Reels.createPost (healthy false) 10 7 demo_stores
                        (Some "u") None (Some "m")))
                [Reels.Ref 9 (Uuid.toString 9) "u" 30;
                 Reels.Ref 7 (Uuid.toString 7) "u" 10]) as (_ & _ & H3 & H4).
  split.
  - rewrite H3 by reflexivity. vm_compute. reflexivity.
  - apply H4. simpl. apply Permutation_swap.
Defined.

(** ** The follow edges of the replica *)

Lemma upsert_follow_pairs c a b now :
  Mongo.pair <$> Mongo.upsert_follow c a b now
  = if decide ((a, b) ∈ (Mongo.pair <$> c)) then Mongo.pair <$> c
    else (Mongo.pair <$> c) ++ [(a, b)].
Proof.
  induction c as [|f c IH]; csimpl.
  - done.
  - destruct (decide (Mongo.followerId f = a ∧ Mongo.followedId f = b))
      as [[Ha Hb]|Hne]; csimpl.
    + rewrite decide_True
        by (apply elem_of_cons; left; unfold Mongo.pair; congruence).
      f_equal. unfold Mongo.pair. simpl. congruence.
    + rewrite IH. destruct (decide ((a, b) ∈ Mongo.pair <$> c)) as [Hin|Hin].
      * rewrite decide_True by (by right). done.
      * rewrite decide_False; [done|].
        intros [Heq|?]%elem_of_cons; [|done].
        apply Hne. unfold Mongo.pair in Heq. by simplify_eq.
Qed.

Lemma upsert_follow_unique c a b now :
  Mongo.unique_follows c → Mongo.unique_follows (Mongo.upsert_follow c a b now).
Proof.
  unfold Mongo.unique_follows. intros H. rewrite upsert_follow_pairs.
  case_decide; [done|].
  apply NoDup_app. split; [done|]. split.
  - intros x Hx ->%list_elem_of_singleton. done.
  - apply NoDup_singleton.
Qed.

Lemma delete_one_follow_sublist c a b :
  Mongo.delete_one_follow c a b `sublist_of` c.
Proof.
  induction c as [|f c IH]; simpl; [done|].
  case_decide; [by apply sublist_cons|by apply sublist_skip].
Qed.

Lemma delete_one_follow_unique c a b :
  Mongo.unique_follows c → Mongo.unique_follows (Mongo.delete_one_follow c a b).
Proof.
  unfold Mongo.unique_follows. intros H.
  eapply sublist_NoDup; [exact H|apply fmap_sublist, delete_one_follow_sublist].
Qed.

(** With at most one document for a pair, [deleteOne] leaves none. *)
Lemma delete_one_follow_gone c a b d :
  Mongo.unique_follows c →
  d ∈ Mongo.delete_one_follow c a b → Mongo.pair d ≠ (a, b).
Proof.
  unfold Mongo.unique_follows.
  induction c as [|f c IH]; simpl; [by intros _ ?%elem_of_nil|].
  intros [Hf Hc]%NoDup_cons.
  destruct (decide (Mongo.followerId f = a ∧ Mongo.followedId f = b))
    as [[Ha Hb]|Hne].
  - intros Hd Hp. apply Hf. rewrite <- Ha, <- Hb in Hp.
    change (Mongo.pair d = Mongo.pair f) in Hp. rewrite <- Hp.
    by apply list_elem_of_fmap_2.
  - intros [->|Hd]%elem_of_cons; [|by apply IH].
    intros Hp. apply Hne. unfold Mongo.pair in Hp. by simplify_eq.
Qed.

Lemma delete_follows_gone g a b :
  (a, b) ∉ Neo4j.edges (Neo4j.delete_follows g a b).
Proof.
  unfold Neo4j.delete_follows. cbn [Neo4j.edges].
  rewrite list_elem_of_filter. intros [H _]. by apply H.
Qed.

Lemma assemble_follows env st owner limit st' refs :
  Reels.assemble env st owner limit = Some (st', refs) → follows st' = follows st.
Proof.
  unfold Reels.assemble. intros H.
  repeat (case_match; try discriminate); simplify_eq; done.
Qed.

Lemma follows_step st st' :
  step st st' →
  follows st' = follows st
  ∨ (∃ a b now, follows st' = Mongo.upsert_follow (follows st) a b now)
  ∨ (∃ a b, follows st' = Mongo.delete_one_follow (follows st) a b).
Proof.
  intros []; simpl.
  - by left.
  - left. unfold Likes.like. handler_cases.
  - left. unfold Likes.unlike. handler_cases.
  - unfold Users.follow. handler_cases; eauto 10.
  - unfold Users.unfollow. handler_cases; eauto 10.
  - left. unfold Reels.createPost. handler_cases.
  - left. unfold Reels.getFeed.
    destruct (negb _); [done|].
    destruct (Reels.assemble _ _ _ _) as [[s2 refs]|] eqn:E; [|done].
    apply assemble_follows in E. by destruct (_ =? _)%nat.
Qed.

(** The replica of reachable stores has at most one document for an
    ordered pair. *)
Lemma reachable_unique_follows st :
  reachable st → Mongo.unique_follows (follows st).
Proof.
  unfold reachable. intros H.
  apply (rtc_ind_r (R := step) (λ s, Mongo.unique_follows (follows s)) empty_stores);
    [|intros y z _ Hyz Hy|exact H].
  - apply NoDup_nil_2.
  - destruct (follows_step _ _ Hyz) as [->|[(a & b & now & ->)|(a & b & ->)]].
    + done.
    + by apply upsert_follow_unique.
    + by apply delete_one_follow_unique.
Qed.

(** C10.  An unfollow deletes the edge from the graph backend (when it
    is connected and answers) and from the replica, and writes to no
    Cassandra table: the timeline of every user is as before, and a feed
    read from a partition that is not empty returns the same references
    as before the unfollow. *)
Theorem unfollow_keeps_timeline (env : Env) (st : Stores) (u fid : string) :
  fid ≠ "" →
  let res := Users.unfollow env st u (Some fid) in
  timeline (fst res) = timeline st
  ∧ user_reels (fst res) = user_reels st
  ∧ reels (fst res) = reels st
  ∧ (neo4j_connected env = true → neo4j_throws env = false →
     (fid, u) ∉ Neo4j.edges (neo4j (fst res)))
  ∧ (mongo_throws env = false → Mongo.unique_follows (follows st) →
     snd res = Users.Ok "Unfollowed successfully" false
     ∧ ∀ d, d ∈ follows (fst res) → Mongo.pair d ≠ (fid, u))
  ∧ (∀ env' limit,
       cassandra_throws env' = false → 0 < limit →
       Cassandra.partition (timeline st) fid ≠ [] →
       Reels.assemble env' (fst res) fid limit
       = Some (fst res,
               Reels.timeline_ref
                 <$> take (Z.to_nat limit) (Cassandra.partition (timeline st) fid))
       ∧ snd <$> Reels.assemble env' (fst res) fid limit
         = snd <$> Reels.assemble env' st fid limit).
Proof.
  intros Hf res.
  assert (Htl : timeline (fst res) = timeline st) by apply unfollow_timeline.
  split; [done|].
  split; [unfold res, Users.unfollow; handler_cases|].
  split; [unfold res, Users.unfollow; handler_cases|].
  split; [|split].
  - intros H1 H2. unfold res, Users.unfollow.
    rewrite truthy_or_str, or_str_some by done. rewrite H1, H2. simpl.
    destruct (mongo_throws env); simpl; apply delete_follows_gone.
  - intros Hm Huniq. unfold res, Users.unfollow.
    rewrite truthy_or_str, or_str_some by done. rewrite Hm. simpl.
    split; [done|]. intros d Hd.
    destruct (neo4j_connected env && negb (neo4j_throws env));
      simpl in Hd; by eapply delete_one_follow_gone.
  - intros env' limit Hc Hl Hne.
    assert (Ha : Reels.assemble env' (fst res) fid limit
                 = Some (fst res,
                         Reels.timeline_ref
                           <$> take (Z.to_nat limit)
                                 (Cassandra.partition (timeline st) fid))).
    { rewrite <- Htl. apply assemble_present; try done. by rewrite Htl. }
    split; [done|].
    rewrite Ha, assemble_present by done. done.
Qed.

Lemma unfollow_keeps_timeline_witness :
  let E := healthy true in
  let st0 := fst (Reels.createPost E 10 7 demo_stores (Some "u") None (Some "m")) in
  let st1 := fst (Users.follow E 20 st0 "u" (Some "a")) in
  let st2 := fst (Users.unfollow E st1 "u" (Some "a")) in
  Mongo.pair <$> follows st1 = [("a", "u")]
  ∧ follows st2 = []
  ∧ timeline st2 = timeline st1
  ∧ snd <$> Reels.assemble E st2 "a" 10
    = Some [Reels.Ref 7 (Uuid.toString 7) "u" 10].
Proof.
  pose proof (unfollow_keeps_timeline (healthy true)
                (fst (Users.follow (healthy true) 20
                        (fst (Reels.createPost (healthy true) 10 7 demo_stores
                                (Some "u") None (Some "m")))
                        "u" (Some "a")))
                "u" "a") as H.
  destruct H as (H1 & _ & _ & _ & _ & H6); [discriminate|].
  split; [reflexivity|]. split; [reflexivity|]. split; [exact H1|].
  destruct (H6 (healthy true) 10) as [H7 _];
    [reflexivity | reflexivity | discriminate |].
  rewrite H7. reflexivity.
Defined.

(** ** Validation *)

(** C9 (as amended).  A follow without a follower id or of oneself, and
    a reel without a user id or a media URL, are answered with status
    400 and leave every store as it is.  When no statement of MongoDB,
    Cassandra or Redis throws, a valid follow and a valid reel are
    answered with success. *)
Theorem invalid_input_rejected (env : Env) (now : Z) (rid : N) (st : Stores) :
  (∀ u f, Js.truthy f = false ∨ f = Some u →
          ∃ msg, Users.follow env now st u f = (st, Users.Error 400 msg))
  ∧ (∀ userId caption mediaUrl,
       Js.truthy userId = false ∨ Js.truthy mediaUrl = false →
       Reels.createPost env now rid st userId caption mediaUrl
       = (st, Reels.CreateError 400 "userId and mediaUrl are required"))
  ∧ (mongo_throws env = false → cassandra_throws env = false →
     ∀ u f, f ≠ "" → u ≠ f →
            snd (Users.follow env now st u (Some f))
            = Users.Ok "Followed successfully" true)
  ∧ (cassandra_throws env = false → redis_throws env = false →
     ∀ uid murl caption, uid ≠ "" → murl ≠ "" →
       snd (Reels.createPost env now rid st (Some uid) caption (Some murl))
       = Reels.Created (Uuid.toString rid) "Reel created successfully").
Proof.
  split; [|split; [|split]].
  - intros u f [Hf|Hf]; [|subst f]; unfold Users.follow.
    + rewrite Hf. simpl. eauto.
    + destruct (decide (u = "")) as [Hu|Hu]; [subst u; simpl; eauto|].
      rewrite truthy_or_str, or_str_some by done. simpl.
      rewrite decide_True by done. eauto.
  - intros userId caption mediaUrl H. unfold Reels.createPost.
    destruct H as [H|H]; rewrite H; [done|]. by rewrite orb_true_r.
  - intros Hm Hc u f Hf Hne. unfold Users.follow.
    rewrite truthy_or_str, or_str_some by done. simpl.
    rewrite decide_False by done. by rewrite Hm, Hc.
  - intros Hc Hr uid murl caption Hu Hmu. unfold Reels.createPost.
    rewrite !truthy_or_str by done. simpl. by rewrite Hc, Hr.
Qed.

Lemma invalid_input_rejected_witness :
  (∃ msg, Users.follow (healthy true) 1 demo_stores "u" (Some "u")
          = (demo_stores, Users.Error 400 msg))
  ∧ Reels.createPost (healthy true) 1 7 demo_stores (Some "u") (Some "c") None
    = (demo_stores, Reels.CreateError 400 "userId and mediaUrl are required")
  ∧ snd (Users.follow (healthy true) 1 demo_stores "u" (Some "a"))
    = Users.Ok "Followed successfully" true.
Proof.
  pose proof (invalid_input_rejected (healthy true) 1 7 demo_stores)
    as (H1 & H2 & H3 & _).
  split; [|split].
  - apply (H1 "u" (Some "u")). by right.
  - apply H2. by right.
  - apply H3; [reflexivity | reflexivity | discriminate | discriminate].
Defined.

(** C9 as it is written fails: a valid follow is answered with status
    500 when the write to the replica throws, after the edge was
    written to the graph backend. *)
Lemma follow_fails_without_invalid_input :
  let res := Users.follow mongo_failing 1 demo_stores "u" (Some "a") in
  "u" ≠ "a"
  ∧ snd res = Users.Error 500 "Failed to create follow relationship"
  ∧ Neo4j.edges (neo4j (fst res)) = [("a", "u")]
  ∧ fst res ≠ demo_stores.
Proof. vm_compute. repeat split; discriminate. Qed.

(** ** Followers and following *)

Lemma elem_of_followers env st u x :
  mongo_throws env = false →
  x ∈ Users.followers env st u ↔
  ∃ usr d, usr ∈ users st ∧ d ∈ follows st ∧ Mongo.followedId d = u
           ∧ Mongo.followerId d = Mongo.id usr ∧ x = Users.summarize usr.
Proof.
  intros Hm. unfold Users.followers. rewrite Hm.
  set (ids := Mongo.followerId <$> Mongo.find_by_followed (follows st) u).
  assert (Hids : ∀ i, i ∈ ids ↔ ∃ d, d ∈ follows st ∧ Mongo.followedId d = u
                                     ∧ Mongo.followerId d = i).
  { intros i. unfold ids, Mongo.find_by_followed. rewrite list_elem_of_fmap. split.
    - intros (d & Hi & [Hd1 Hd2]%list_elem_of_filter). eauto.
    - intros (d & Hd & Hu & Hi). exists d. split; [done|].
      by apply list_elem_of_filter. }
  destruct (0 <? length ids)%nat eqn:E.
  - rewrite list_elem_of_fmap. unfold Mongo.find_users_in. split.
    + intros (usr & Hx & [Hin Husr]%list_elem_of_filter).
      apply Hids in Hin as (d & Hd & Hu & Hi). exists usr, d. done.
    + intros (usr & d & Husr & Hd & Hu & Hi & Hx). exists usr. split; [done|].
      apply list_elem_of_filter. split; [|done]. apply Hids. eauto.
  - apply Nat.ltb_ge in E. assert (ids = []) as Hnil by (destruct ids; simpl in *; [done|lia]).
    split; [by intros ?%elem_of_nil|].
    intros (usr & d & _ & Hd & Hu & Hi & _).
    assert (Mongo.id usr ∈ ids) as Hin by (apply Hids; eauto).
    rewrite Hnil in Hin. by apply elem_of_nil in Hin.
Qed.

Lemma elem_of_following env st u x :
  mongo_throws env = false →
  x ∈ Users.following env st u ↔
  ∃ usr d, usr ∈ users st ∧ d ∈ follows st ∧ Mongo.followerId d = u
           ∧ Mongo.followedId d = Mongo.id usr ∧ x = Users.summarize usr.
Proof.
  intros Hm. unfold Users.following. rewrite Hm.
  set (ids := Mongo.followedId <$> Mongo.find_by_follower (follows st) u).
  assert (Hids : ∀ i, i ∈ ids ↔ ∃ d, d ∈ follows st ∧ Mongo.followerId d = u
                                     ∧ Mongo.followedId d = i).
  { intros i. unfold ids, Mongo.find_by_follower. rewrite list_elem_of_fmap. split.
    - intros (d & Hi & [Hd1 Hd2]%list_elem_of_filter). eauto.
    - intros (d & Hd & Hu & Hi). exists d. split; [done|].
      by apply list_elem_of_filter. }
  destruct (0 <? length ids)%nat eqn:E.
  - rewrite list_elem_of_fmap. unfold Mongo.find_users_in. split.
    + intros (usr & Hx & [Hin Husr]%list_elem_of_filter).
      apply Hids in Hin as (d & Hd & Hu & Hi). exists usr, d. done.
    + intros (usr & d & Husr & Hd & Hu & Hi & Hx). exists usr. split; [done|].
      apply list_elem_of_filter. split; [|done]. apply Hids. eauto.
  - apply Nat.ltb_ge in E. assert (ids = []) as Hnil by (destruct ids; simpl in *; [done|lia]).
    split; [by intros ?%elem_of_nil|].
    intros (usr & d & _ & Hd & Hu & Hi & _).
    assert (Mongo.id usr ∈ ids) as Hin by (apply Hids; eauto).
    rewrite Hnil in Hin. by apply elem_of_nil in Hin.
Qed.

(** C6 (as amended).  The followers and the following of a user are
    computed from the replica alone, by a scan of the follow documents
    and a join with the profiles; the graph backend is not consulted.
    The answers are therefore the same with the graph backend connected
    or not, and whatever it holds. *)
Theorem followers_from_replica_only (env env' : Env) (st : Stores)
    (g : Neo4j.graph) (u : string) :
  mongo_throws env = mongo_throws env' →
  Users.followers env st u = Users.followers env' (with_neo4j st g) u
  ∧ Users.following env st u = Users.following env' (with_neo4j st g) u
  ∧ (mongo_throws env = false →
     ∀ x, (x ∈ Users.followers env st u ↔
           ∃ usr d, usr ∈ users st ∧ d ∈ follows st ∧ Mongo.followedId d = u
                    ∧ Mongo.followerId d = Mongo.id usr
                    ∧ x = Users.summarize usr)
          ∧ (x ∈ Users.following env st u ↔
             ∃ usr d, usr ∈ users st ∧ d ∈ follows st ∧ Mongo.followerId d = u
                      ∧ Mongo.followedId d = Mongo.id usr
                      ∧ x = Users.summarize usr)).
Proof.
  intros Hm. split; [|split].
  - unfold Users.followers. by rewrite Hm.
  - unfold Users.following. by rewrite Hm.
  - intros Hf x. split; [by apply elem_of_followers|by apply elem_of_following].
Qed.

Lemma followers_from_replica_only_witness :
  let st := fst (Users.follow graph_failing 2 demo_stores "u" (Some "b")) in
  Users.followers (healthy true) st "u" = Users.followers (healthy false) st "u"
  ∧ Users.followers (healthy true) st "u" = [Users.Summary "b" "b"].
Proof.
  pose proof (followers_from_replica_only (healthy true) (healthy false)
                (fst (Users.follow graph_failing 2 demo_stores "u" (Some "b")))
                (neo4j demo_stores) "u") as H.
  destruct H as (H1 & _ & _); [reflexivity|].
  split; [exact H1 | reflexivity].
Defined.

(** C6 as it is written fails: with the graph backend available the
    followers are not those that it lists.  After a follow whose write
    to the graph failed, the graph lists no follower of "u" and no
    followed user of "b", and the handlers answer "b" and "u". *)
Lemma followers_ignore_graph :
  let st := fst (Users.follow graph_failing 2 demo_stores "u" (Some "b")) in
  Users.followers_preferring_graph (healthy true) st "u" = []
  ∧ Users.s_id <$> Users.followers (healthy true) st "u" = ["b"]
  ∧ Users.following_preferring_graph (healthy true) st "b" = []
  ∧ Users.s_id <$> Users.following (healthy true) st "b" = ["u"].
Proof. vm_compute. repeat split. Qed.

(** ** Objects used as dictionaries *)

Section Objects.

Context {V : Type}.
Implicit Types (o : Js.obj V) (k : string) (v : V).

Lemma obj_get_set_eq o k v : Js.obj_get (Js.obj_set o k v) k = Some v.
Proof.
  induction o as [|[k' v'] o IH]; simpl.
  - by rewrite decide_True.
  - destruct (decide (k' = k)) as [->|Hne]; simpl.
    + by rewrite decide_True.
    + by rewrite decide_False.
Qed.

Lemma obj_get_set_ne o k k' v :
  k ≠ k' → Js.obj_get (Js.obj_set o k v) k' = Js.obj_get o k'.
Proof.
  intros Hne. induction o as [|[k2 v2] o IH]; simpl.
  - by rewrite decide_False.
  - destruct (decide (k2 = k)) as [->|Hne2]; simpl.
    + by rewrite !decide_False.
    + destruct (decide (k2 = k')); [done|apply IH].
Qed.

Lemma obj_set_keys o k v :
  fst <$> Js.obj_set o k v
  = if decide (k ∈ (fst <$> o)) then fst <$> o else (fst <$> o) ++ [k].
Proof.
  induction o as [|[k' v'] o IH]; csimpl; [done|].
  destruct (decide (k' = k)) as [->|Hne]; csimpl.
  - by rewrite decide_True by (by left).
  - rewrite IH. destruct (decide (k ∈ fst <$> o)) as [Hin|Hin].
    + by rewrite decide_True by (by right).
    + rewrite decide_False; [done|].
      intros [?|?]%elem_of_cons; [by subst|done].
Qed.

Lemma obj_set_NoDup o k v :
  NoDup (fst <$> o) → NoDup (fst <$> Js.obj_set o k v).
Proof.
  intros H. rewrite obj_set_keys. case_decide; [done|].
  apply NoDup_app. split; [done|]. split; [|apply NoDup_singleton].
  intros x Hx Hk%list_elem_of_singleton. by subst.
Qed.

Lemma obj_get_None o k : k ∉ (fst <$> o) → Js.obj_get o k = None.
Proof.
  induction o as [|[k' v'] o IH]; csimpl; [done|].
  intros Hk. rewrite decide_False by (intros ->; apply Hk; by left).
  apply IH. intros ?. apply Hk. by right.
Qed.

(** In an object a key is bound once, to the value that is read. *)
Lemma elem_of_obj o k v :
  NoDup (fst <$> o) → (k, v) ∈ o ↔ Js.obj_get o k = Some v.
Proof.
  induction o as [|[k' v'] o IH]; csimpl.
  - intros _. split; [by intros ?%elem_of_nil|done].
  - intros [Hk Hnd]%NoDup_cons. destruct (decide (k' = k)) as [->|Hne].
    + split.
      * intros [Heq|Hin]%elem_of_cons; [by simplify_eq|].
        exfalso. apply Hk. apply list_elem_of_fmap. by exists (k, v).
      * intros [= ->]. by left.
    + rewrite <- IH by done. split.
      * intros [Heq|Hin]%elem_of_cons; [by simplify_eq|done].
      * intros Hin. by right.
Qed.

End Objects.

(** The dictionary built by [docs.forEach(u => { m[key(u)] = val(u) })]
    binds a key to the value of its last document. *)
Lemma obj_fold_last {A V} (key : A → string) (val : A → V) (docs : list A)
    (m : Js.obj V) (k : string) :
  Js.obj_get (foldl (λ m u, Js.obj_set m (key u) (val u)) m docs) k
  = match last (filter (λ u, key u = k) docs) with
    | Some u => Some (val u)
    | None => Js.obj_get m k
    end.
Proof.
  revert m. induction docs as [|u docs IH]; intros m; [done|].
  cbn [foldl]. rewrite IH.
  destruct (decide (key u = k)) as [Hk|Hk].
  - rewrite filter_cons_True by done.
    destruct (filter (λ u0, key u0 = k) docs) as [|x l] eqn:E.
    + simpl. rewrite <- Hk. apply obj_get_set_eq.
    + rewrite last_cons_cons. destruct (last (x :: l)) eqn:El; [done|].
      by apply last_None in El.
  - rewrite filter_cons_False by done.
    destruct (last _); [done|]. by apply obj_get_set_ne.
Qed.

(** ** Orders of entries *)

Lemma insert_index_perm {V} (e : string * V) (l : list (string * V)) :
  Js.insert_index e l ≡ₚ e :: l.
Proof.
  induction l as [|x l IH]; simpl; [done|].
  destruct (_ <? _); [done|]. rewrite IH. apply Permutation_swap.
Qed.

Lemma entries_perm {V} (o : Js.obj V) : Js.entries o ≡ₚ o.
Proof.
  unfold Js.entries.
  assert (Hsort : ∀ l : list (string * V), foldr Js.insert_index [] l ≡ₚ l).
  { induction l as [|x l IH]; simpl; [done|]. by rewrite insert_index_perm, IH. }
  rewrite Hsort. apply filter_app_complement.
Qed.

Lemma insert_desc_perm {K} (e : K * Z) (l : list (K * Z)) :
  Js.insert_desc e l ≡ₚ e :: l.
Proof.
  induction l as [|x l IH]; simpl; [done|].
  destruct (_ <=? _); [done|]. rewrite IH. apply Permutation_swap.
Qed.

Lemma sort_desc_perm {K} (l : list (K * Z)) : Js.sort_desc l ≡ₚ l.
Proof.
  unfold Js.sort_desc. induction l as [|x l IH]; simpl; [done|].
  by rewrite insert_desc_perm, IH.
Qed.

Lemma insert_desc_sorted {K} (e : K * Z) (l : list (K * Z)) :
  StronglySorted (λ a b, b.2 <= a.2) l →
  StronglySorted (λ a b, b.2 <= a.2) (Js.insert_desc e l).
Proof.
  induction 1 as [|x l Hs IH Hall]; simpl.
  - constructor; constructor.
  - destruct (Z.leb_spec x.2 e.2) as [Hle|Hlt].
    + constructor; [by constructor|].
      constructor; [done|].
      eapply Forall_impl; [exact Hall|]. intros y Hy. simpl in *. lia.
    + constructor; [done|].
      rewrite insert_desc_perm. constructor; [simpl; lia|done].
Qed.

(** The ranking is by descending count. *)
Lemma sort_desc_sorted {K} (l : list (K * Z)) :
  StronglySorted (λ a b, b.2 <= a.2) (Js.sort_desc l).
Proof.
  unfold Js.sort_desc. induction l as [|x l IH]; simpl; [constructor|].
  by apply insert_desc_sorted.
Qed.

(** ** Suggestions from the replica *)

Lemma proto_inherited : "__proto__" ∈ Js.inherited.
Proof. apply list_elem_of_In. simpl. auto. Qed.

Section Tally.

Variables (userId : string) (F : list string).

Lemma targets_snoc ff d t :
  Users.targets (ff ++ [d]) t
  = Users.targets ff t + (if decide (Mongo.followedId d = t) then 1 else 0).
Proof.
  unfold Users.targets. rewrite filter_app, length_app.
  destruct (decide (Mongo.followedId d = t)) as [Hd|Hd].
  - rewrite filter_cons_True by done. simpl. lia.
  - rewrite filter_cons_False by done. simpl. lia.
Qed.

Lemma targets_nonneg ff t : 0 <= Users.targets ff t.
Proof. unfold Users.targets. lia. Qed.

(** The counts gathered by the loop over [friendsFollows] when no
    target names an inherited property: each id that is neither the
    caller nor followed by the caller is bound once, to the number of
    documents that point at it. *)
Lemma tally_fold (ff : list Mongo.follow_doc) :
  Forall (λ d, Mongo.followedId d ∉ Js.inherited) ff →
  let o := foldl (Users.tally userId F) [] ff in
  NoDup (fst <$> o)
  ∧ ∀ t, Js.obj_get o t
         = if decide ((t ≠ userId ∧ t ∉ F) ∧ 0 < Users.targets ff t)
           then Some (Users.Num (Users.targets ff t)) else None.
Proof.
  induction ff as [|d ff IH] using rev_ind; intros Hff.
  - split; [apply NoDup_nil_2|]. intros t. simpl.
    rewrite decide_False; [done|]. intros [_ H]. unfold Users.targets in H. simpl in H. lia.
  - apply Forall_app in Hff as [Hff Hd]. rewrite Forall_singleton in Hd.
    specialize (IH Hff). simpl in *. destruct IH as [Hnd Hget]. rewrite foldl_snoc.
    set (o := foldl (Users.tally userId F) [] ff) in *.
    unfold Users.tally.
    destruct (decide ((Mongo.followedId d ≠ userId) ∧ (Mongo.followedId d ∉ F)))
      as [Hc|Hc].
    + assert (Hassign : ∀ v, Js.obj_assign o (Mongo.followedId d) v
                             = Js.obj_set o (Mongo.followedId d) v).
      { intros v. unfold Js.obj_assign. rewrite decide_False; [done|].
        intros E. apply Hd. rewrite E. apply proto_inherited. }
      rewrite Hassign.
      split; [by apply obj_set_NoDup|].
      intros t. rewrite targets_snoc.
      destruct (decide (Mongo.followedId d = t)) as [<-|Hne].
      * rewrite obj_get_set_eq.
        pose proof (targets_nonneg ff (Mongo.followedId d)) as Hpos.
        rewrite (decide_True (P := _ ∧ 0 < _ + 1)) by (split; [done|lia]).
        f_equal. unfold Users.bump, Js.obj_read. rewrite Hget.
        case_decide as Hdd; simpl.
        -- f_equal. destruct (Z.eqb_spec (Users.targets ff (Mongo.followedId d)) 0); lia.
        -- rewrite decide_False by done.
           assert (Users.targets ff (Mongo.followedId d) = 0) as ->; [|done].
           destruct (decide (0 < Users.targets ff (Mongo.followedId d))); [|lia].
           exfalso. by apply Hdd.
      * rewrite obj_get_set_ne by done. rewrite Hget, Z.add_0_r. done.
    + split; [done|]. intros t. rewrite Hget, targets_snoc.
      destruct (decide (Mongo.followedId d = t)) as [<-|Hne].
      * rewrite !decide_False; [done| |]; by intros [? _].
      * by rewrite Z.add_0_r.
Qed.

End Tally.

Lemma targets_mutual_count st F t :
  Users.targets (Mongo.find_follower_in (follows st) F) t = Users.mutual_count st F t.
Proof.
  unfold Users.targets, Users.mutual_count, Mongo.find_follower_in.
  by rewrite list_filter_filter.
Qed.


Lemma mapM_numbers_all (nums : list (string * Z)) :
  mapM (λ e : string * Users.count, pair e.1 <$> Users.number e.2)
       (prod_map id Users.Num <$> nums) = Some nums.
Proof.
  apply mapM_Some. induction nums as [|[k n] nums IH]; csimpl; by constructor.
Qed.

Lemma sort_counts_numbers (nums : list (string * Z)) :
  Users.sort_counts (prod_map id Users.Num <$> nums)
  = Some (prod_map id Users.Num <$> Js.sort_desc nums).
Proof. unfold Users.sort_counts. by rewrite mapM_numbers_all. Qed.


Lemma numbers_fmap (l : list (string * Users.count)) :
  Forall (λ e, ∃ n, e.2 = Users.Num n) l →
  l = prod_map id Users.Num <$> omap (λ e, pair e.1 <$> Users.number e.2) l.
Proof.
  induction 1 as [|[k c] l [n Hn] _ IH]; [done|].
  simpl in Hn. subst c. csimpl. by rewrite <- IH.
Qed.

Lemma elem_of_numbers (nums : list (string * Z)) t c :
  (t, Users.Num c) ∈ (prod_map id Users.Num <$> nums) ↔ (t, c) ∈ nums.
Proof.
  rewrite list_elem_of_fmap. split.
  - intros ([t' c'] & [= -> ->] & Hin). done.
  - intros Hin. by exists (t, c).
Qed.

Lemma ranked_no_following st userId limit :
  Mongo.find_by_follower (follows st) userId = [] →
  Users.ranked st userId limit = Some [].
Proof.
  intros H. unfold Users.ranked. rewrite H. csimpl.
  unfold Mongo.find_follower_in.
  rewrite filter_none by (intros x _ Hx; by apply elem_of_nil in Hx).
  simpl. f_equal. unfold Js.slice0. destruct (limit <? 0); exact (take_nil _).
Qed.

Lemma mongo_suggestions_ranked st userId limit r :
  Users.ranked st userId limit = Some r →
  ∃ names : string → Users.name,
    Users.mongo_suggestions st userId limit
    = Some ((λ s, Users.Candidate s.1 (names s.1) s.2) <$> r).
Proof.
  intros Hr. unfold Users.mongo_suggestions.
  destruct (Mongo.find_by_follower (follows st) userId) as [|f fs] eqn:E.
  - exists (λ _, Users.Name ""). rewrite ranked_no_following in Hr by done.
    by injection Hr as <-.
  - csimpl. rewrite Hr. destruct r as [|x l].
    + by exists (λ _, Users.Name "").
    + eexists (λ i, match Js.obj_read _ i with
                    | Js.Own n => _ | Js.FromPrototype => Users.Value i
                    | Js.Absent => _ end). csimpl. done.
Qed.

Lemma profile_of_map st (ids : list string) i :
  i ∈ ids →
  Js.obj_get
    (foldl (λ m u, Js.obj_set m (Mongo.id u) (Users.to_profile u)) []
           (Mongo.find_users_in (users st) ids)) i
  = Users.profile_of st i.
Proof.
  intros Hi. rewrite obj_fold_last. unfold Users.profile_of, Mongo.find_users_in.
  rewrite list_filter_filter_l by (by intros x ->).
  by destruct (last _).
Qed.

(** Without a document of the id [__proto__] the prototype of
    [userMap] stays what it is. *)
Lemma user_map_plain (docs : list Mongo.user_doc) (m : Js.obj Users.profile) :
  Forall (λ u, Mongo.id u ≠ "__proto__") docs →
  foldl Users.user_map_set (m, None) docs
  = (foldl (λ m u, Js.obj_set m (Mongo.id u) (Users.to_profile u)) m docs, None).
Proof.
  intros H. revert m. induction H as [|u docs Hu _ IH]; intros m; [done|].
  cbn [foldl]. unfold Users.user_map_set at 2. rewrite decide_False by done.
  apply IH.
Qed.

(** The aggregation over the replica where it does what it is meant to
    do.  With the graph backend unavailable and no follow document that
    points at an id naming a property that objects inherit, the
    suggestions are the first [limit] entries of a ranking
    that holds each user who is followed by somebody the caller
    follows, is not the caller and is not followed by the caller, once,
    with the number of follow documents from followed users to that
    user, in descending order of that number; every entry is joined
    with the profile of the user. *)
Theorem suggestions_fallback (env : Env) (st : Stores) (userId : string)
    (limit : Z) :
  neo4j_connected env = false → mongo_throws env = false → 0 <= limit →
  Forall (λ d, Mongo.followedId d ∉ Js.inherited) (follows st) →
  let F := Mongo.followedId <$> Mongo.find_by_follower (follows st) userId in
  ∃ full : list (string * Z),
    NoDup (fst <$> full)
    ∧ (∀ t c, (t, c) ∈ full ↔
              t ≠ userId ∧ (t ∉ F) ∧ 0 < c ∧ c = Users.mutual_count st F t)
    ∧ StronglySorted (λ a b, b.2 <= a.2) full
    ∧ Users.ranked st userId limit
      = Some (prod_map id Users.Num <$> take (Z.to_nat limit) full)
    ∧ Users.suggestions env st userId limit
      = Some (Users.Suggestions
                ((λ e, Users.Suggestion
                         (Users.spread_of (Users.profile_of st e.1))
                         (Users.Num e.2))
                   <$> take (Z.to_nat limit) full)).
Proof.
  intros Hn Hm Hl Hinh F.
  set (ff := Mongo.find_follower_in (follows st) F).
  set (o := foldl (Users.tally userId F) [] ff).
  assert (Hff : Forall (λ d, Mongo.followedId d ∉ Js.inherited) ff).
  { apply Forall_forall. intros d [_ Hd]%list_elem_of_filter.
    rewrite Forall_forall in Hinh. by apply Hinh. }
  destruct (tally_fold userId F ff Hff) as [Hnd Hget]. fold o in Hnd, Hget.
  assert (Hnum : Forall (λ e, ∃ n, e.2 = Users.Num n) (Js.entries o)).
  { apply Forall_forall. intros [t c] Hin. rewrite entries_perm in Hin.
    apply (elem_of_obj o t c Hnd) in Hin. rewrite Hget in Hin.
    case_decide; [|done]. injection Hin as <-. by eexists. }
  set (nums := omap (λ e, pair e.1 <$> Users.number e.2) (Js.entries o)).
  assert (Hent : Js.entries o = prod_map id Users.Num <$> nums)
    by (by apply numbers_fmap).
  assert (Hmem : ∀ t c, (t, c) ∈ Js.sort_desc nums ↔
                        t ≠ userId ∧ (t ∉ F) ∧ 0 < c
                        ∧ c = Users.mutual_count st F t).
  { intros t c. rewrite sort_desc_perm, <- elem_of_numbers, <- Hent, entries_perm.
    rewrite (elem_of_obj o t _ Hnd), Hget.
    unfold ff. rewrite targets_mutual_count.
    case_decide as Hd.
    - destruct Hd as [[H1 H2] H3]. split.
      + intros [= <-]. done.
      + intros (_ & _ & _ & ->). done.
    - split; [done|]. intros (H1 & H2 & H3 & ->). exfalso. by apply Hd. }
  assert (Hranked : Users.ranked st userId limit
                    = Some (prod_map id Users.Num
                              <$> take (Z.to_nat limit) (Js.sort_desc nums))).
  { unfold Users.ranked. cbv zeta. fold F ff o.
    rewrite Hent, sort_counts_numbers. simpl. f_equal.
    unfold Js.slice0. rewrite (proj2 (Z.ltb_ge _ _)) by lia.
    by rewrite fmap_take. }
  exists (Js.sort_desc nums).
  split; [|split; [exact Hmem|split; [apply sort_desc_sorted|split; [done|]]]].
  - rewrite sort_desc_perm.
    assert (Hk : fst <$> nums = fst <$> Js.entries o).
    { rewrite Hent, <- list_fmap_compose. apply Forall_fmap_ext_1, Forall_forall.
      by intros [t c] _. }
    by rewrite Hk, entries_perm.
  - destruct (mongo_suggestions_ranked st userId limit _ Hranked) as [names Hms].
    unfold Users.suggestions. rewrite Hn, Hm. simpl. rewrite Hms.
    f_equal.
    assert (Hif : ∀ (found : list Users.candidate) (g : Users.candidate → Users.suggestion),
               (if (0 <? length found)%nat then Users.Suggestions (g <$> found)
                else Users.Suggestions []) = Users.Suggestions (g <$> found))
      by (by intros [|]).
    rewrite Hif. f_equal. rewrite <- !list_fmap_compose.
    apply Forall_fmap_ext_1, Forall_forall. intros e He. simpl. f_equal.
    rewrite user_map_plain.
    + unfold Users.user_map_spread. simpl. rewrite profile_of_map; [done|].
      apply list_elem_of_fmap. by exists e.
    + apply Forall_forall. intros u [Hu _]%list_elem_of_filter Hid.
      apply list_elem_of_fmap in Hu as ([t c] & Ht & Hin). simpl in Ht.
      eapply elem_of_sublist in Hin; [|apply sublist_take].
      apply Hmem in Hin as (_ & _ & Hpos & Hc).
      assert (Hex : ∃ d, d ∈ follows st ∧ Mongo.followedId d = t).
      { unfold Users.mutual_count in Hc.
        destruct (filter _ (follows st)) as [|d l] eqn:Ef; [simpl in Hc; lia|].
        assert (Hd : d ∈ filter (λ d, Mongo.followedId d = t ∧ Mongo.followerId d ∈ F)
                                (follows st)) by (rewrite Ef; by left).
        apply list_elem_of_filter in Hd as [[Hd _] Hd']. by exists d. }
      destruct Hex as (d & Hd & Hdt).
      rewrite Forall_forall in Hinh. apply (Hinh d Hd).
      rewrite Hdt, <- Ht, Hid. apply proto_inherited.
Qed.

Lemma suggestions_fallback_witness :
  ∃ full : list (string * Z),
    (∀ t c, (t, c) ∈ full ↔
            t ≠ "a" ∧ (t ∉ ["b"]) ∧ 0 < c
            ∧ c = Users.mutual_count demo_friends ["b"] t)
    ∧ Users.ranked demo_friends "a" 10
      = Some (prod_map id Users.Num <$> take 10 full)
    ∧ Users.ranked demo_friends "a" 10 = Some [("u", Users.Num 1)].
Proof.
  destruct (suggestions_fallback (healthy false) demo_friends "a" 10)
    as (full & _ & H2 & _ & H4 & _).
  - reflexivity.
  - reflexivity.
  - lia.
  - change (follows demo_friends)
      with [Mongo.FollowDoc "a" "b" 1; Mongo.FollowDoc "b" "u" 2;
            Mongo.FollowDoc "b" "a" 3].
    repeat constructor; rewrite list_elem_of_In; simpl; intuition discriminate.
  - exists full. split; [exact H2|]. split; [exact H4|]. reflexivity.
Defined.

(** C8.  The counts of the aggregation are kept in a plain object, and
    the names that every object inherits are not counted in it.  "a"
    follows "b", and "b" follows the user of the id "__proto__": this
    user is followed by one user whom the caller follows, is not the
    caller and is not followed by the caller, and yet is not suggested,
    since the name [__proto__] cannot be bound to a count.  When "b"
    also follows the user of the id "constructor", that user is
    suggested with a text in the place of the count.  The stores are
    reached through the follow route alone. *)
Theorem suggestions_lose_inherited_id :
  let E := healthy false in
  let s1 := fst (Users.follow E 1 demo_stores "b" (Some "a")) in
  let s2 := fst (Users.follow E 2 s1 "__proto__" (Some "b")) in
  let s3 := fst (Users.follow E 3 s2 "constructor" (Some "b")) in
  Users.mutual_count s2 ["b"] "__proto__" = 1
  ∧ Users.suggestions E s2 "a" 10 = Some (Users.Suggestions [])
  ∧ Users.mutual_count s3 ["b"] "constructor" = 1
  ∧ Users.suggestions E s3 "a" 10
    = Some (Users.Suggestions
              [Users.Suggestion Users.Nothing (Users.Text "constructor" 1)]).
Proof. repeat split. Qed.

Lemma getFeed_read_repair_witness :
  let E := healthy false in
  let followed := fst (Users.follow E 50 demo_feed "u" (Some "b")) in
  snd <$> Reels.assemble E demo_feed "a" 10
  = Some [Reels.Ref 5 (Uuid.toString 5) "u" 30;
          Reels.Ref 3 (Uuid.toString 3) "u" 20;
          Reels.Ref 7 (Uuid.toString 7) "u" 10]
  ∧ NoDup (fst <$> Cassandra.partition
                     (Reels.repair E demo_feed "a" ["u"; "b"]) "a")
  ∧ Reels.assemble E demo_feed "u" 2
    = Some (demo_feed, [Reels.Ref 5 (Uuid.toString 5) "u" 30;
                        Reels.Ref 3 (Uuid.toString 3) "u" 20])
  ∧ Reels.assemble E followed "b" 2
    = Some (followed, [Reels.Ref 5 (Uuid.toString 5) "u" 30;
                       Reels.Ref 3 (Uuid.toString 3) "u" 20])
  ∧ Reels.getFeed E demo_stores (Some "a") 10
    = (demo_stores,
       Reels.Page []
         (Some "No reels found. Follow some users or create your first reel!"))
  ∧ Reels.getFeed E demo_feed (Some "a") (-1)
    = (demo_feed, Reels.FeedError 500 "Failed to fetch feed").
Proof.
  intros E followed.
  destruct (getFeed_read_repair E demo_feed "a" 10) as [H _];
    [reflexivity | reflexivity |].
  destruct H as (_ & H2 & _ & _); [lia|].
  destruct H2 as (Ha & _ & _ & Hnd & _); [reflexivity | discriminate |].
  split; [rewrite Ha; reflexivity|]. split; [exact Hnd|].
  destruct (getFeed_read_repair E demo_feed "u" 2) as [H _];
    [reflexivity | reflexivity |].
  destruct H as (_ & _ & H3 & _); [lia|].
  split; [rewrite H3; reflexivity|].
  destruct (getFeed_read_repair E followed "b" 2) as [H _];
    [reflexivity | reflexivity |].
  destruct H as (H1 & _); [lia|].
  split; [rewrite H1; [reflexivity|discriminate]|].
  destruct (getFeed_read_repair E demo_stores "a" 10) as [H _];
    [reflexivity | reflexivity |].
  destruct H as (_ & _ & _ & H4); [lia|].
  destruct H4 as (st' & refs & Has & Hg); [discriminate|].
  split.
  - rewrite Hg. vm_compute in Has. injection Has as <- <-. reflexivity.
  - destruct (getFeed_read_repair E demo_feed "a" (-1)) as [_ H];
      [reflexivity | reflexivity |].
    apply H; [lia|discriminate].
Defined.

(** C1 as it is written fails for a page size that is not positive:
    the first read of the partition is refused, no read-repair is done
    although the partition is empty and the owner follows somebody, and
    the answer is an error. *)
Theorem getFeed_refuses_empty_page :
  Cassandra.partition (timeline demo_feed) "a" = []
  ∧ Mongo.followedId <$> Mongo.find_by_follower (follows demo_feed) "a" = ["u"; "b"]
  ∧ Reels.getFeed (healthy false) demo_feed (Some "a") 0
    = (demo_feed, Reels.FeedError 500 "Failed to fetch feed").
Proof. repeat split. Qed.

Lemma timeline_order_invariant_witness :
  Cassandra.table_sorted (timeline demo_feed)
  ∧ ∃ st' refs,
      Reels.assemble (healthy false) demo_feed "a" 10 = Some (st', refs)
      ∧ StronglySorted Reels.precedes refs
      ∧ Reels.authorId <$> refs = ["u"; "u"; "u"].
Proof.
  destruct timeline_order_invariant as (_ & _ & _ & _ & H5).
  split.
  - intros p. unfold Cassandra.partition. simpl. rewrite lookup_empty. constructor.
  - destruct (H5 (healthy false) demo_feed "a" 10) as (st' & refs & Ha & Hs & _);
      [reflexivity | reflexivity | lia | reflexivity | discriminate |].
    exists st', refs. split; [exact Ha|]. split; [exact Hs|].
    assert (Hrefs : Some refs = snd <$> Reels.assemble (healthy false) demo_feed "a" 10)
      by (by rewrite Ha).
    vm_compute in Hrefs. injection Hrefs as ->. reflexivity.
Defined.

(** * Further properties of the handlers *)

(** ** Follow and unfollow *)

Lemma delete_one_upsert c a b now :
  (a, b) ∉ (Mongo.pair <$> c) →
  Mongo.delete_one_follow (Mongo.upsert_follow c a b now) a b = c.
Proof.
  induction c as [|f c IH]; csimpl; intros Hin.
  - by rewrite decide_True.
  - assert (Hf : ¬ (Mongo.followerId f = a ∧ Mongo.followedId f = b)).
    { intros [Ha Hb]. apply Hin, elem_of_cons. left. unfold Mongo.pair. congruence. }
    rewrite decide_False by done. simpl. rewrite decide_False by done.
    rewrite IH; [done|]. intros ?. apply Hin. by right.
Qed.

Lemma merge_delete g a b :
  (a, b) ∉ Neo4j.edges g →
  Neo4j.delete_follows (Neo4j.merge_follows g a b) a b = g.
Proof.
  intros Hin. destruct g as [ns es]. simpl in Hin.
  assert (Hes : filter (λ e, e ≠ (a, b)) es = es).
  { clear -Hin. induction es as [|e es IH]; [done|].
    rewrite filter_cons_True by (intros ->; apply Hin; by left).
    rewrite IH; [done|]. intros ?. apply Hin. by right. }
  unfold Neo4j.merge_follows, Neo4j.delete_follows. simpl.
  destruct (_ && _); simpl; [|by rewrite Hes].
  rewrite decide_False by done. simpl.
  rewrite filter_app, Hes, filter_cons_False by (intros H; by apply H).
  by rewrite filter_nil, app_nil_r.
Qed.

Lemma merge_merge g a b :
  Neo4j.merge_follows (Neo4j.merge_follows g a b) a b = Neo4j.merge_follows g a b.
Proof.
  unfold Neo4j.merge_follows.
  destruct (Neo4j.has_node g a && Neo4j.has_node g b) eqn:E; [|by rewrite E].
  destruct (decide ((a, b) ∈ Neo4j.edges g)) as [Hin|Hin].
  - by rewrite E, decide_True.
  - unfold Neo4j.has_node in *. simpl. rewrite E.
    rewrite decide_True; [done|]. apply elem_of_app. right. by left.
Qed.

(** The stores after a valid follow that MongoDB and Cassandra serve. *)
Lemma follow_ok env now st u f :
  f ≠ "" → u ≠ f → mongo_throws env = false → cassandra_throws env = false →
  Users.follow env now st u (Some f)
  = (let st1 :=
       if neo4j_connected env && negb (neo4j_throws env)
       then with_neo4j st (Neo4j.merge_follows (neo4j st) f u) else st in
     let st2 := with_follows st1 (Mongo.upsert_follow (follows st1) f u now) in
     with_timeline st2
       (Users.backfill env f u (take 50 (Cassandra.partition (user_reels st2) u))
          (timeline st2)),
     Users.Ok "Followed successfully" true).
Proof.
  intros Hf Hne Hm Hc. unfold Users.follow.
  rewrite truthy_or_str, or_str_some by done. simpl.
  rewrite decide_False by done. by rewrite Hm, Hc.
Qed.

Lemma unfollow_ok env st u f :
  f ≠ "" → mongo_throws env = false →
  Users.unfollow env st u (Some f)
  = (let st1 :=
       if neo4j_connected env && negb (neo4j_throws env)
       then with_neo4j st (Neo4j.delete_follows (neo4j st) f u) else st in
     with_follows st1 (Mongo.delete_one_follow (follows st1) f u),
     Users.Ok "Unfollowed successfully" false).
Proof.
  intros Hf Hm. unfold Users.unfollow.
  rewrite truthy_or_str, or_str_some by done. simpl. by rewrite Hm.
Qed.

(** X1.  An unfollow that comes after the follow of a pair that was in
    neither backend puts the replica and the graph back as they were;
    of the follow, only the rows copied into the timeline of the
    follower stay. *)
Theorem follow_unfollow_round_trip (env : Env) (now : Z) (st : Stores)
    (u f : string) :
  f ≠ "" → u ≠ f → mongo_throws env = false → cassandra_throws env = false →
  (f, u) ∉ (Mongo.pair <$> follows st) → (f, u) ∉ Neo4j.edges (neo4j st) →
  Users.unfollow env (fst (Users.follow env now st u (Some f))) u (Some f)
  = (with_timeline st
       (Users.backfill env f u (take 50 (Cassandra.partition (user_reels st) u))
          (timeline st)),
     Users.Ok "Unfollowed successfully" false).
Proof.
  intros Hf Hne Hm Hc Hpair Hedge.
  rewrite follow_ok by done. rewrite unfollow_ok by done.
  destruct st as [rd lk fl us cm g rl ur tl]. simpl in *.
  destruct (neo4j_connected env && negb (neo4j_throws env)); simpl.
  - unfold with_timeline, with_follows, with_neo4j. simpl.
    by rewrite merge_delete, delete_one_upsert.
  - unfold with_timeline, with_follows. simpl.
    by rewrite delete_one_upsert.
Qed.

Lemma follow_unfollow_round_trip_witness :
  let s1 := fst (Users.follow (healthy true) 1 demo_stores "u" (Some "a")) in
  follows s1 ≠ []
  ∧ fst (Users.unfollow (healthy true) s1 "u" (Some "a")) = demo_stores.
Proof.
  split; [discriminate|].
  rewrite (follow_unfollow_round_trip (healthy true) 1 demo_stores "u" "a");
    [reflexivity | discriminate | discriminate | reflexivity | reflexivity | |].
  - intros H. vm_compute in H. by apply elem_of_nil in H.
  - intros H. vm_compute in H. by apply elem_of_nil in H.
Defined.

(** A row of the index is in the partition after the loop, with the
    author, when the appends do not throw. *)
Lemma backfill_has_row env owner author rows tl k :
  timeline_throws env owner = false → (k, tt) ∈ rows →
  (k, author) ∈ Cassandra.partition (Users.backfill env owner author rows tl) owner.
Proof.
  intros Hup Hk. unfold Users.backfill.
  apply (foldl_establish (λ t, (k, author) ∈ Cassandra.partition t owner)
           _ rows tl (k, tt)); [done| |].
  - intros t. rewrite Hup, partition_insert_row_eq. apply elem_of_insert_new.
  - intros t row Ht. rewrite Hup, partition_insert_row_eq.
    destruct (decide (row.1 = k)) as [->|Hne].
    + apply elem_of_insert_new.
    + by apply elem_of_insert_old.
Qed.

Lemma insert_row_present {V} (t : gmap string (list (Cassandra.key * V))) p k v :
  Cassandra.sorted (Cassandra.partition t p) → (k, v) ∈ Cassandra.partition t p →
  Cassandra.insert_row t p k v = t.
Proof.
  intros Hs Hin. unfold Cassandra.insert_row. rewrite insert_present by done.
  apply insert_id. unfold Cassandra.partition in *.
  destruct (t !! p); [done|]. by apply elem_of_nil in Hin.
Qed.

(** Running the loop again over the same rows changes nothing. *)
Lemma backfill_twice env owner author rows tl :
  Cassandra.sorted (Cassandra.partition tl owner) →
  Users.backfill env owner author rows (Users.backfill env owner author rows tl)
  = Users.backfill env owner author rows tl.
Proof.
  intros Hs. set (t1 := Users.backfill env owner author rows tl).
  destruct (timeline_throws env owner) eqn:Hup.
  - unfold Users.backfill at 1.
    apply (foldl_invariant (λ t, t = t1)); [|done].
    intros t row _ ->. by rewrite Hup.
  - assert (Hs1 : Cassandra.sorted (Cassandra.partition t1 owner)).
    { unfold t1, Users.backfill.
      apply (foldl_invariant (λ t, Cassandra.sorted (Cassandra.partition t owner)));
        [|done].
      intros t row _ Ht. rewrite Hup, partition_insert_row_eq. by apply insert_sorted. }
    unfold Users.backfill at 1.
    apply (foldl_invariant (λ t, t = t1)); [|done].
    intros t [k []] Hrow ->. rewrite Hup.
    apply insert_row_present; [done|]. by apply backfill_has_row.
Qed.

(** X2.  A second follow of the same pair adds no document, no edge
    and no timeline row: the pairs of the replica, the graph and every
    timeline are as after the first follow. *)
Theorem follow_twice (env : Env) (now now' : Z) (st : Stores) (u f : string) :
  f ≠ "" → u ≠ f → mongo_throws env = false → cassandra_throws env = false →
  Cassandra.sorted (Cassandra.partition (timeline st) f) →
  let s1 := fst (Users.follow env now st u (Some f)) in
  let again := Users.follow env now' s1 u (Some f) in
  snd again = Users.Ok "Followed successfully" true
  ∧ Mongo.pair <$> follows (fst again) = Mongo.pair <$> follows s1
  ∧ neo4j (fst again) = neo4j s1
  ∧ timeline (fst again) = timeline s1
  ∧ length (Mongo.find_by_followed (follows (fst again)) u)
    = length (Mongo.find_by_followed (follows s1) u).
Proof.
  intros Hf Hne Hm Hc Hs s1 again. unfold again, s1.
  rewrite !follow_ok by done. cbn [fst snd].
  assert (Hpairs : ∀ c, Mongo.pair <$> Mongo.upsert_follow (Mongo.upsert_follow c f u now) f u now'
                        = Mongo.pair <$> Mongo.upsert_follow c f u now).
  { intros c. rewrite (upsert_follow_pairs (Mongo.upsert_follow c f u now)).
    rewrite decide_True; [done|]. rewrite upsert_follow_pairs.
    case_decide; [done|]. apply elem_of_app. right. by left. }
  assert (Hcount : ∀ c c' : list Mongo.follow_doc,
             Mongo.pair <$> c = Mongo.pair <$> c' →
             length (Mongo.find_by_followed c u) = length (Mongo.find_by_followed c' u)).
  { intros c. induction c as [|d c IH]; intros [|d' c'] Heq; try done.
    injection Heq as Hd Hc'. unfold Mongo.find_by_followed in *.
    assert (Mongo.followedId d = Mongo.followedId d') as Hdd
      by (unfold Mongo.pair in Hd; congruence).
    destruct (decide (Mongo.followedId d = u)) as [Hu|Hu].
    - rewrite !filter_cons_True by congruence. simpl. f_equal. by apply IH.
    - rewrite !filter_cons_False by congruence. by apply IH. }
  destruct st as [rd lk fl us cm g rl ur tl]. simpl in *.
  split; [done|].
  destruct (neo4j_connected env && negb (neo4j_throws env)); simpl.
  - split; [apply Hpairs|]. split; [apply merge_merge|].
    split; [by apply backfill_twice|]. apply Hcount, Hpairs.
  - split; [apply Hpairs|]. split; [done|].
    split; [by apply backfill_twice|]. apply Hcount, Hpairs.
Qed.

Lemma follow_twice_witness :
  let s1 := fst (Users.follow (healthy true) 1 demo_feed "u" (Some "b")) in
  let again := Users.follow (healthy true) 2 s1 "u" (Some "b") in
  timeline (fst again) = timeline s1
  ∧ Cassandra.partition (timeline s1) "b"
    = [((30, 5%N), "u"); ((20, 3%N), "u"); ((10, 7%N), "u")].
Proof.
  destruct (follow_twice (healthy true) 1 2 demo_feed "u" "b")
    as (_ & _ & _ & H4 & _);
    [discriminate | discriminate | reflexivity | reflexivity | constructor |].
  split; [exact H4 | reflexivity].
Defined.

(** ** Rows that come first or last in a partition *)

Lemma compare_lt_gt (a b : Cassandra.key) :
  Cassandra.compare a b = Lt → Cassandra.compare b a = Gt.
Proof.
  destruct a as [t i], b as [t' i']. unfold Cassandra.compare. simpl.
  rewrite (Z.compare_antisym t' t), (N.compare_antisym i i').
  destruct (t' ?= t), (i ?= i')%N; simpl; congruence.
Qed.

Lemma insert_last {V} (k : Cassandra.key) (v : V) rows :
  Forall (λ y, Cassandra.before y.1 k) rows →
  Cassandra.insert k v rows = rows ++ [(k, v)].
Proof.
  induction 1 as [|r rows Hr Hall IH]; simpl; [done|].
  rewrite (compare_lt_gt _ _ Hr). by rewrite IH.
Qed.

Lemma insert_first {V} (k : Cassandra.key) (v : V) rows :
  Forall (λ y, y.1.1 < k.1) rows → Cassandra.insert k v rows = (k, v) :: rows.
Proof.
  destruct 1 as [|r rows Hr Hall]; [done|].
  destruct r as [[t i] a], k as [t' i']. simpl in Hr.
  cbn [Cassandra.insert]. unfold Cassandra.compare. simpl.
  destruct (Z.compare_spec t t'); [lia|done|lia].
Qed.

Lemma backfill_partition env owner author rows
    (tl : gmap string (list (Cassandra.key * string))) :
  timeline_throws env owner = false →
  Cassandra.partition (Users.backfill env owner author rows tl) owner
  = foldl (λ l row, Cassandra.insert row.1 author l)
          (Cassandra.partition tl owner) rows.
Proof.
  intros Hup. unfold Users.backfill. revert tl.
  induction rows as [|row rows IH]; intros tl; cbn [foldl]; [done|].
  rewrite IH, Hup. by rewrite partition_insert_row_eq.
Qed.

(** Copying an index that is in clustering order behind rows that all
    come before it appends the index, row by row. *)
Lemma copy_sorted_rows (author : string) (rows : list (Cassandra.key * unit))
    (acc : list (Cassandra.key * string)) :
  Cassandra.sorted rows →
  (∀ x r, x ∈ acc → r ∈ rows → Cassandra.before x.1 r.1) →
  foldl (λ l row, Cassandra.insert row.1 author l) acc rows
  = acc ++ ((λ r, (r.1, author)) <$> rows).
Proof.
  unfold Cassandra.sorted. intros Hs. revert acc.
  induction Hs as [|r rows Hs IH Hall]; intros acc Hacc; cbn [foldl].
  - by rewrite app_nil_r.
  - rewrite insert_last.
    + rewrite IH; [by rewrite <- app_assoc|].
      intros x r' [Hx|Hx%list_elem_of_singleton]%elem_of_app Hr'.
      * apply Hacc; [done|by right].
      * subst x. rewrite Forall_forall in Hall. by apply Hall.
    + apply Forall_forall. intros x Hx. apply Hacc; [done|by left].
Qed.

Lemma createPost_ok env now rid st uid murl caption :
  uid ≠ "" → murl ≠ "" → cassandra_throws env = false → redis_throws env = false →
  Reels.createPost env now rid st (Some uid) caption (Some murl)
  = (with_redis
       (with_timeline
          (with_user_reels
             (with_reels st
                (<[rid := Cassandra.Reel uid (Some (Js.or_str caption ""))
                                         (Some murl) (Some now)]> (reels st)))
             (Cassandra.insert_row (user_reels st) uid (now, rid) tt))
          (Reels.fan_out env now rid uid (Reels.resolve_followers env st uid)
             (timeline st)))
       (Redis.set (redis st) (Likes.counter_key (Uuid.toString rid)) "0"),
     Reels.Created (Uuid.toString rid) "Reel created successfully").
Proof.
  intros Hu Hm Hc Hr. unfold Reels.createPost.
  rewrite !truthy_or_str, !or_str_some by done. simpl. by rewrite Hc, Hr.
Qed.

(** X3.  After the follow of a user whose index is not empty, by a
    follower whose timeline was empty, the timeline of the follower is
    the copy of the 50 newest rows of that index, in the same order, and
    the feed of the follower is its first page. *)
Theorem follow_then_feed (env : Env) (now : Z) (st : Stores) (u f : string)
    (limit : Z) :
  f ≠ "" → u ≠ f →
  mongo_throws env = false → cassandra_throws env = false →
  timeline_throws env f = false → 0 < limit →
  Cassandra.partition (timeline st) f = [] →
  Cassandra.sorted (Cassandra.partition (user_reels st) u) →
  Cassandra.partition (user_reels st) u ≠ [] →
  let s1 := fst (Users.follow env now st u (Some f)) in
  let newest := take 50 (Cassandra.partition (user_reels st) u) in
  Cassandra.partition (timeline s1) f = (λ r, (r.1, u)) <$> newest
  ∧ Reels.assemble env s1 f limit
    = Some (s1, Reels.own_ref u <$> take (Z.to_nat limit) newest).
Proof.
  intros Hf Hne Hm Hc Hup Hl Hempty Hs Hidx s1 newest.
  assert (Hpart : Cassandra.partition (timeline s1) f = (λ r, (r.1, u)) <$> newest).
  { unfold s1. rewrite follow_ok by done. cbn [fst].
    assert (Hur : ∀ s, user_reels (with_follows s (Mongo.upsert_follow (follows s) f u now))
                       = user_reels s) by done.
    destruct (neo4j_connected env && negb (neo4j_throws env)); simpl;
      rewrite backfill_partition by done; simpl; rewrite Hempty;
      (rewrite copy_sorted_rows;
       [done | by apply sorted_take | by intros x r ?%elem_of_nil]). }
  split; [done|].
  rewrite assemble_present; [|done|done|].
  - rewrite Hpart. f_equal. f_equal.
    rewrite <- fmap_take, <- list_fmap_compose. done.
  - rewrite Hpart. unfold newest.
    destruct (Cassandra.partition (user_reels st) u); done.
Qed.

Lemma follow_then_feed_witness :
  let s1 := fst (Users.follow (healthy false) 50 demo_feed "u" (Some "b")) in
  snd <$> Reels.assemble (healthy false) s1 "b" 2
  = Some [Reels.Ref 5 (Uuid.toString 5) "u" 30;
          Reels.Ref 3 (Uuid.toString 3) "u" 20].
Proof.
  destruct (follow_then_feed (healthy false) 50 demo_feed "u" "b" 2) as [_ H];
    [discriminate | discriminate | reflexivity | reflexivity | reflexivity
     | lia | reflexivity | | discriminate |].
  - change (Cassandra.partition (user_reels demo_feed) "u")
      with [((30, 5%N), tt); ((20, 3%N), tt); ((10, 7%N), tt)].
    repeat constructor.
  - intros s1. subst s1. rewrite H. reflexivity.
Defined.

(** X4.  A new reel that is newer than the rows of the timeline of a
    resolved follower becomes the first row of that timeline, and the
    first reference of the feed of that follower. *)
Theorem new_post_heads_feed (env : Env) (now : Z) (rid : N) (st : Stores)
    (uid murl f : string) (caption : option string) (limit : Z) :
  uid ≠ "" → murl ≠ "" →
  cassandra_throws env = false → redis_throws env = false →
  f ∈ Reels.resolve_followers env st uid → timeline_throws env f = false →
  Forall (λ x, x.1.1 < now) (Cassandra.partition (timeline st) f) → 0 < limit →
  let s1 := fst (Reels.createPost env now rid st (Some uid) caption (Some murl)) in
  Cassandra.partition (timeline s1) f
  = ((now, rid), uid) :: Cassandra.partition (timeline st) f
  ∧ Reels.assemble env s1 f limit
    = Some (s1, Reels.Ref rid (Uuid.toString rid) uid now
                :: (Reels.timeline_ref
                      <$> take (Z.to_nat limit - 1)
                            (Cassandra.partition (timeline st) f))).
Proof.
  intros Hu Hm Hc Hr Hin Hup Hnew Hl s1.
  assert (Hpart : Cassandra.partition (timeline s1) f
                  = ((now, rid), uid) :: Cassandra.partition (timeline st) f).
  { unfold s1. rewrite createPost_ok by done. cbn [fst]. simpl.
    rewrite fan_out_partition, decide_True by done.
    by apply insert_first. }
  split; [done|].
  rewrite assemble_present; [|done|done|by rewrite Hpart].
  rewrite Hpart. f_equal. f_equal.
  destruct (Z.to_nat limit) as [|n] eqn:E; [lia|].
  simpl. by rewrite Nat.sub_0_r.
Qed.

Lemma new_post_heads_feed_witness :
  let s0 := fst (Users.follow (healthy false) 50 demo_feed "u" (Some "b")) in
  let s1 := fst (Reels.createPost (healthy false) 60 9 s0
                   (Some "u") None (Some "m")) in
  snd <$> Reels.assemble (healthy false) s1 "b" 2
  = Some [Reels.Ref 9 (Uuid.toString 9) "u" 60;
          Reels.Ref 5 (Uuid.toString 5) "u" 30].
Proof.
  destruct (new_post_heads_feed (healthy false) 60 9
              (fst (Users.follow (healthy false) 50 demo_feed "u" (Some "b")))
              "u" "m" "b" None 2) as [_ H];
    [discriminate | discriminate | reflexivity | reflexivity | | reflexivity | | lia |].
  - apply list_elem_of_In. vm_compute. auto.
  - change (Cassandra.partition
              (timeline (fst (Users.follow (healthy false) 50 demo_feed "u" (Some "b"))))
              "b")
      with [((30, 5%N), "u"); ((20, 3%N), "u"); ((10, 7%N), "u")].
    repeat constructor.
  - intros s0 s1. subst s0 s1. rewrite H. reflexivity.
Defined.

(** ** A like and its unlike *)

Lemma string2ll_inv (s : string) (z : Z) :
  Redis.string2ll s = Some z → s = Redis.show_int z.
Proof.
  unfold Redis.string2ll.
  destruct (Js.canonical_int s) as [n|] eqn:E; [|discriminate].
  destruct (Redis.in_range n); [|discriminate].
  intros [= <-]. by apply canonical_inv.
Qed.

Lemma delete_one_like_snoc log r u now :
  (∀ d, d ∈ log → ¬ (Mongo.l_reelId d = r ∧ Mongo.l_userId d = u)) →
  Mongo.delete_one_like (log ++ [Mongo.LikeDoc r u now]) r u = log.
Proof.
  induction log as [|d log IH]; intros Hlog; simpl.
  - by rewrite decide_True.
  - rewrite decide_False by (apply Hlog; by left).
    rewrite IH; [done|]. intros d' Hd'. apply Hlog. by right.
Qed.

(** X5.  When the counter of a reel holds an integer, the flag of the
    actor is not set and the log has no like of the actor for the reel,
    a like followed by the unlike of the same actor leaves every store
    exactly as it was, and the unlike answers with the old count. *)
Theorem like_unlike_restores (env : Env) (now : Z) (st : Stores) (r u : string)
    (e : Redis.entry) (n : Z) :
  redis_throws env = false → u ≠ "" →
  redis st !! Likes.counter_key r = Some e →
  Redis.string2ll (Redis.val e) = Some n → n < Redis.int64_max →
  redis st !! Likes.flag_key r u = None →
  (∀ d, d ∈ likes st → ¬ (Mongo.l_reelId d = r ∧ Mongo.l_userId d = u)) →
  Likes.unlike env (fst (Likes.like env now st r (Some u))) r (Some u)
  = (st, Likes.Count (Z.max 0 n) false).
Proof.
  intros Hup Hu He Hn Hmax Hflag Hlog.
  pose proof (string2ll_range _ _ Hn) as Hrange.
  pose proof (in_range_succ n Hrange Hmax) as Hrange1.
  pose proof (counter_flag_keys_differ r r u) as Hkeys.
  assert (Hlike : Likes.like env now st r (Some u)
    = (with_likes
         (with_redis st
            (Redis.set_ex
               (<[Likes.counter_key r := Redis.Entry (Redis.show_int (n + 1)) (Redis.ttl e)]>
                  (redis st))
               (Likes.flag_key r u) "1" (86400 * 30)))
         (if mongo_throws env then likes st
          else likes st ++ [Mongo.LikeDoc r u now]),
       Likes.Count (n + 1) true)).
  { unfold Likes.like. rewrite truthy_or_str, or_str_some by done. simpl.
    rewrite Hup. unfold Redis.get. rewrite Hflag. simpl.
    unfold Redis.incr, Redis.incrby. by rewrite He, Hn, Hrange1. }
  rewrite Hlike. cbn [fst].
  unfold Likes.unlike. rewrite truthy_or_str, or_str_some by done. simpl.
  rewrite Hup. unfold Redis.get, Redis.set_ex. rewrite lookup_insert_eq. simpl.
  unfold Redis.decr, Redis.incrby.
  rewrite lookup_insert_ne by done. rewrite lookup_insert_eq. simpl.
  rewrite string2ll_show by done.
  replace (n + 1 + -1) with n by lia. rewrite Hrange.
  f_equal.
  assert (Hredis :
    Redis.del
      (<[Likes.counter_key r := Redis.Entry (Redis.show_int n) (Redis.ttl e)]>
         (<[Likes.flag_key r u := Redis.Entry "1" (Some (86400 * 30))]>
            (<[Likes.counter_key r := Redis.Entry (Redis.show_int (n + 1)) (Redis.ttl e)]>
               (redis st))))
      (Likes.flag_key r u) = redis st).
  { apply map_eq. intros k. unfold Redis.del.
    destruct (decide (k = Likes.flag_key r u)) as [->|Hk1].
    - by rewrite lookup_delete_eq.
    - rewrite lookup_delete_ne by done.
      destruct (decide (k = Likes.counter_key r)) as [->|Hk2].
      + rewrite lookup_insert_eq, He. f_equal.
        destruct e as [v t]. simpl in *. f_equal.
        symmetry. by apply string2ll_inv.
      + by rewrite !lookup_insert_ne. }
  assert (Hlikes :
    (if mongo_throws env
     then (if mongo_throws env then likes st else likes st ++ [Mongo.LikeDoc r u now])
     else Mongo.delete_one_like
            (if mongo_throws env then likes st else likes st ++ [Mongo.LikeDoc r u now])
            r u) = likes st).
  { destruct (mongo_throws env); [done|]. by apply delete_one_like_snoc. }
  destruct st as [rd lk fl us cm g rl ur tl]. simpl in *.
  unfold with_likes, with_redis. simpl. by rewrite Hredis, Hlikes.
Qed.

Lemma like_unlike_restores_witness :
  let st := fst (Reels.createPost (healthy false) 10 7 demo_stores
                   (Some "u") None (Some "m")) in
  let r := Uuid.toString 7 in
  fst (Likes.unlike (healthy false)
         (fst (Likes.like (healthy false) 11 st r (Some "a"))) r (Some "a"))
  = st.
Proof.
  intros st r.
  rewrite (like_unlike_restores (healthy false) 11 st r "a" (Redis.Entry "0" None) 0);
    [reflexivity | reflexivity | discriminate | reflexivity | reflexivity
     | reflexivity | reflexivity |].
  intros d Hd. vm_compute in Hd. by apply elem_of_nil in Hd.
Defined.

(** ** The fan-out loop *)

Section FanOutOrder.

Variable env : Env.
Variables (now : Z) (rid : N) (author : string).

Lemma fan_out_lookup fs (tl : gmap string (list (Cassandra.key * string))) f :
  Reels.fan_out env now rid author fs tl !! f
  = if decide (f ∈ fs ∧ timeline_throws env f = false)
    then Some (Cassandra.insert (now, rid) author (Cassandra.partition tl f))
    else tl !! f.
Proof.
  unfold Reels.fan_out. revert tl.
  induction fs as [|g fs IH]; intros tl; cbn [foldl].
  - destruct (decide _) as [[H _]|]; [by apply elem_of_nil in H|done].
  - rewrite IH. clear IH.
    assert (Hcons : ∀ P : Prop, f ∈ fs ∧ P → f ∈ g :: fs ∧ P)
      by (intros P [? ?]; split; [by right|done]).
    destruct (decide (f ∈ fs ∧ timeline_throws env f = false)) as [H1|H1];
      destruct (decide (f ∈ g :: fs ∧ timeline_throws env f = false)) as [H2|H2];
      try (exfalso; apply H2; by apply Hcons).
    + destruct (timeline_throws env g) eqn:Eg; [done|].
      destruct (decide (g = f)) as [->|Hne].
      * by rewrite partition_insert_row_eq, insert_insert.
      * by rewrite partition_insert_row_ne.
    + destruct H2 as [[->|H2]%elem_of_cons H3]; [|exfalso; by apply H1].
      rewrite H3. unfold Cassandra.insert_row. by rewrite lookup_insert_eq.
    + destruct (timeline_throws env g) eqn:Eg; [done|].
      destruct (decide (g = f)) as [->|Hne].
      * exfalso. apply H2. split; [by left|done].
      * unfold Cassandra.insert_row. by rewrite lookup_insert_ne.
Qed.

End FanOutOrder.

(** X6.  The timelines after the fan-out loop depend on which followers
    are listed, not on their order nor on how often one is listed. *)
Theorem fan_out_order_irrelevant (env : Env) (now : Z) (rid : N)
    (author : string) (fs fs' : list string)
    (tl : gmap string (list (Cassandra.key * string))) :
  (∀ f, f ∈ fs ↔ f ∈ fs') →
  Reels.fan_out env now rid author fs tl = Reels.fan_out env now rid author fs' tl.
Proof.
  intros Hsame. apply map_eq. intros f. rewrite !fan_out_lookup.
  destruct (decide (f ∈ fs ∧ timeline_throws env f = false)) as [[H1 H2]|H1].
  - rewrite decide_True; [done|]. split; [by apply Hsame|done].
  - rewrite decide_False; [done|]. intros [H2 H3]. apply H1.
    split; [by apply Hsame|done].
Qed.

Lemma fan_out_order_irrelevant_witness :
  Reels.fan_out (healthy false) 10 7 "u" ["a"; "b"; "a"] ∅
  = Reels.fan_out (healthy false) 10 7 "u" ["b"; "a"] ∅.
Proof.
  apply fan_out_order_irrelevant. intros f.
  rewrite !list_elem_of_In. simpl. tauto.
Defined.

(** ** Reading a feed again *)

Lemma with_timeline_same (st : Stores) : with_timeline st (timeline st) = st.
Proof. by destruct st. Qed.

(** A repair that leaves the partition of the owner empty wrote
    nothing at all. *)
Lemma repair_nothing env st owner ids :
  Cassandra.partition (Reels.repair env st owner ids) owner = [] →
  Reels.repair env st owner ids = timeline st.
Proof.
  intros Hempty. destruct (timeline_throws env owner) eqn:Hup.
  - unfold Reels.repair.
    apply (foldl_invariant (λ t, t = timeline st)); [|done].
    intros t f _ ->. unfold Users.backfill.
    apply (foldl_invariant (λ t, t = timeline st)); [|done].
    intros t row _ ->. by rewrite Hup.
  - assert (Hrows : ∀ f, f ∈ ids →
                         take 20 (Cassandra.partition (user_reels st) f) = []).
    { intros f Hf.
      destruct (take 20 (Cassandra.partition (user_reels st) f)) as [|[k []] rows] eqn:E;
        [done|].
      assert (Hk : k ∈ (fst <$> Cassandra.partition (Reels.repair env st owner ids) owner)).
      { eapply repair_has_key; [done|exact Hf|]. rewrite E. by left. }
      rewrite Hempty in Hk. by apply elem_of_nil in Hk. }
    unfold Reels.repair.
    apply (foldl_invariant (λ t, t = timeline st)); [|done].
    intros t f Hf ->. by rewrite (Hrows f Hf).
Qed.

(** X7.  A feed that was read is read again with the same references,
    and the second read writes nothing: the read-repair is done at most
    once for an owner. *)
Theorem assemble_twice (env : Env) (st st' : Stores) (owner : string)
    (limit : Z) (refs : list Reels.ref) :
  Reels.assemble env st owner limit = Some (st', refs) →
  Reels.assemble env st' owner limit = Some (st', refs).
Proof.
  intros H. pose proof H as H0. unfold Reels.assemble in H.
  destruct (cassandra_throws env) eqn:Hc; [discriminate|].
  destruct (Cassandra.select (timeline st) owner limit) as [rows|] eqn:Hsel;
    [|discriminate].
  assert (Hl : 0 < limit).
  { unfold Cassandra.select in Hsel. destruct (Z.leb_spec limit 0); [discriminate|lia]. }
  destruct (length rows =? 0)%nat eqn:Hlen.
  - destruct (mongo_throws env) eqn:Hm; [discriminate|].
    destruct (0 <? length (Mongo.find_by_follower (follows st) owner))%nat eqn:Hfl.
    + set (ids := Mongo.followedId <$> Mongo.find_by_follower (follows st) owner) in *.
      destruct (Cassandra.select (timeline (with_timeline st (Reels.repair env st owner ids)))
                  owner limit) as [rows'|] eqn:Hsel'; [|discriminate].
      injection H as <- <-.
      rewrite select_some in Hsel' by done. injection Hsel' as <-. simpl.
      destruct (decide (Cassandra.partition (Reels.repair env st owner ids) owner = []))
        as [Hnil|Hnil].
      * rewrite (repair_nothing _ _ _ _ Hnil), with_timeline_same in H0 |- *.
        exact H0.
      * rewrite assemble_present by done. simpl. by rewrite filter_uuid_truthy.
    + destruct (Cassandra.select (user_reels st) owner limit); [|discriminate].
      injection H as <- <-. exact H0.
  - injection H as <- <-. exact H0.
Qed.

Lemma assemble_twice_witness :
  ∃ st' refs,
    Reels.assemble (healthy false) demo_feed "a" 10 = Some (st', refs)
    ∧ timeline st' ≠ timeline demo_feed
    ∧ Reels.assemble (healthy false) st' "a" 10 = Some (st', refs).
Proof.
  destruct (Reels.assemble (healthy false) demo_feed "a" 10) as [[st' refs]|] eqn:E;
    [|vm_compute in E; discriminate].
  exists st', refs. split; [done|]. split.
  - vm_compute in E. injection E as <- _. discriminate.
  - exact (assemble_twice (healthy false) demo_feed st' "a" 10 refs E).
Defined.

(** ** The comments of a feed entry *)

Lemma sorted_take_gen {A} (R : relation A) (n : nat) (l : list A) :
  StronglySorted R l → StronglySorted R (take n l).
Proof.
  intros H. rewrite <- (take_drop n l) in H.
  by apply StronglySorted_app_1_l in H.
Qed.

Lemma insert_newest_perm d l : Mongo.insert_newest d l ≡ₚ d :: l.
Proof.
  induction l as [|x l IH]; simpl; [done|].
  destruct (_ <=? _); [done|]. rewrite IH. apply Permutation_swap.
Qed.

Lemma sort_newest_perm l : Mongo.sort_newest l ≡ₚ l.
Proof.
  unfold Mongo.sort_newest. induction l as [|x l IH]; simpl; [done|].
  by rewrite insert_newest_perm, IH.
Qed.

Lemma sort_newest_sorted l :
  StronglySorted (λ a b, Mongo.c_createdAt b <= Mongo.c_createdAt a)
                 (Mongo.sort_newest l).
Proof.
  unfold Mongo.sort_newest. induction l as [|d l IH]; simpl; [constructor|].
  induction IH as [|x s Hs IHs Hall]; simpl.
  - constructor; constructor.
  - destruct (Z.leb_spec (Mongo.c_createdAt x) (Mongo.c_createdAt d)).
    + constructor; [by constructor|].
      constructor; [lia|].
      eapply Forall_impl; [exact Hall|]. intros y Hy. simpl in *. lia.
    + constructor; [done|].
      rewrite insert_newest_perm. constructor; [simpl; lia|done].
Qed.

(** X8.  The comments shown with a feed entry are at most three, all
    of them top-level comments of that reel, newest first; a top-level
    comment of the reel that is not shown is not newer than any that is
    shown, and with at most three top-level comments all are shown. *)
Theorem feed_comment_preview (env : Env) (st : Stores) (r : Reels.ref)
    (e : Reels.enriched) :
  Reels.enrich_one env st r = Some e →
  let top := filter (λ d, Mongo.c_reelId d = Reels.reelIdString r
                          ∧ Mongo.parentCommentId d = None) (comments st) in
  (length (Reels.e_comments e) ≤ 3)%nat
  ∧ StronglySorted (λ a b, Reels.cm_createdAt b <= Reels.cm_createdAt a)
                   (Reels.e_comments e)
  ∧ (∃ shown, shown `sublist_of` Mongo.sort_newest top
              ∧ Reels.e_comments e = Reels.comment_view <$> shown
              ∧ ∀ d c, d ∈ top → d ∉ shown → c ∈ shown →
                       Mongo.c_createdAt d <= Mongo.c_createdAt c)
  ∧ ((length top ≤ 3)%nat →
     Reels.e_comments e ≡ₚ Reels.comment_view <$> top).
Proof.
  intros H top.
  assert (He : Reels.e_comments e
               = Reels.comment_view <$> take 3 (Mongo.sort_newest top)).
  { unfold Reels.enrich_one in H.
    repeat (case_match; try discriminate); by simplify_eq. }
  pose proof (sort_newest_sorted top) as Hsorted.
  split; [rewrite He, length_fmap, length_take; lia|].
  split; [|split].
  - rewrite He. eapply StronglySorted_fmap; [|apply sorted_take_gen, Hsorted].
    by intros x y Hxy.
  - exists (take 3 (Mongo.sort_newest top)).
    split; [apply sublist_take|]. split; [done|].
    intros d c Hd Hnot Hc.
    assert (Hin : d ∈ Mongo.sort_newest top) by (by rewrite sort_newest_perm).
    rewrite <- (take_drop 3 (Mongo.sort_newest top)) in Hin, Hsorted.
    apply elem_of_app in Hin as [Hin|Hin]; [done|].
    exact (StronglySorted_app_1_elem_of _ _ _ _ _ Hsorted Hc Hin).
  - intros Hlen. rewrite He, take_ge.
    + by rewrite sort_newest_perm.
    + by rewrite sort_newest_perm.
Qed.

Lemma feed_comment_preview_witness :
  ∃ e,
    Reels.enrich_one (healthy false) demo_comments
      (Reels.timeline_ref ((30, 5%N), "u")) = Some e
    ∧ (length (Reels.e_comments e) ≤ 3)%nat
    ∧ Reels.e_comments e = [Reels.Comment "c1" "hi" "a" "a" 100].
Proof.
  destruct (Reels.enrich_one (healthy false) demo_comments
              (Reels.timeline_ref ((30, 5%N), "u"))) as [e|] eqn:E1;
    [|vm_compute in E1; discriminate].
  exists e. split; [done|].
  destruct (feed_comment_preview (healthy false) demo_comments _ e E1) as (H & _).
  split; [exact H|].
  vm_compute in E1. by injection E1 as <-.
Defined.

(** ** The count that is read *)

Lemma digits_acc (d : Decimal.uint) (acc : positive) :
  Js.digits_prefix 10 (NilEmpty.string_of_uint d) (Some (Z.pos acc))
  = Some (Z.pos (Pos.of_uint_acc d acc)).
Proof.
  revert acc. induction d; intros acc; [reflexivity|..];
    cbn [NilEmpty.string_of_uint Js.digits_prefix Pos.of_uint_acc];
    (etransitivity; [|apply IHd]); vm_compute Js.digit_val; cbv iota beta;
    do 2 f_equal; lia.
Qed.

Lemma digits_zero (d : Decimal.uint) :
  Js.digits_prefix 10 (NilEmpty.string_of_uint d) (Some 0)
  = Some (Z.of_N (Pos.of_uint d)).
Proof.
  induction d; [reflexivity|exact IHd|..];
    cbn [NilEmpty.string_of_uint Js.digits_prefix Pos.of_uint];
    (etransitivity; [|apply digits_acc]); reflexivity.
Qed.

Lemma parseInt_digits (d : Decimal.uint) :
  d ≠ Decimal.Nil →
  Js.parseInt (NilEmpty.string_of_uint d) = Some (Z.of_N (Pos.of_uint d))
  ∧ Js.parseInt (String "-" (NilEmpty.string_of_uint d))
    = Some (- Z.of_N (Pos.of_uint d)).
Proof.
  intros Hd.
  assert (Js.parseInt (NilEmpty.string_of_uint d)
          = option_map (Z.mul 1) (Js.digits_prefix 10 (NilEmpty.string_of_uint d) (Some 0))
          ∧ Js.parseInt (String "-" (NilEmpty.string_of_uint d))
          = option_map (Z.mul (-1)) (Js.digits_prefix 10 (NilEmpty.string_of_uint d) (Some 0)))
    as [-> ->].
  { destruct d as [|d|d|d|d|d|d|d|d|d|d]; [done|..]; destruct d; split; reflexivity. }
  rewrite digits_zero. simpl. split; f_equal; lia.
Qed.

Lemma parseInt_show (z : Z) : Js.parseInt (Js.show_int z) = Some z.
Proof.
  assert (Hnz : ∀ d, d ≠ Decimal.Nil →
                     NilZero.string_of_uint d = NilEmpty.string_of_uint d).
  { intros d Hd. by destruct d. }
  unfold Js.show_int. destruct z as [|p|p]; [reflexivity|..];
    pose proof (Unsigned.to_uint_nonnil p) as Hp;
    destruct (parseInt_digits (Pos.to_uint p) Hp) as [H1 H2];
    rewrite Unsigned.of_to in H1, H2;
    cbn [Z.to_int NilZero.string_of_int]; rewrite Hnz by exact Hp.
  - exact H1.
  - exact H2.
Qed.

Lemma show_int_truthy (z : Z) : Js.truthy (Some (Js.show_int z)) = true.
Proof.
  simpl. destruct (String.eqb_spec (Js.show_int z) "") as [E|]; [|done].
  pose proof (parseInt_show z) as H. rewrite E in H. discriminate.
Qed.

Lemma or_str_show (z : Z) : Js.or_str (Some (Js.show_int z)) "" = Js.show_int z.
Proof.
  pose proof (show_int_truthy z) as H. simpl in *.
  by destruct (String.eqb (Js.show_int z) "").
Qed.

Lemma or_num_zero (n : Z) : Js.or_num (Some n) 0 = n.
Proof. unfold Js.or_num. destruct (Z.eqb_spec n 0); congruence. Qed.

Lemma parsed_count (n : Z) :
  (if Js.truthy (Some (Js.show_int n))
   then Js.or_num (Js.parseInt (Js.or_str (Some (Js.show_int n)) "")) 0
   else 0) = n.
Proof. by rewrite show_int_truthy, or_str_show, parseInt_show, or_num_zero. Qed.

(** X9.  The count that [GET /api/likes/:reelId] answers is the integer
    that INCR and DECR read under the counter of the reel, 0 for a
    reel without a counter, and [liked] tells whether the flag of the
    viewer is set.  The number is within the integers that a
    JavaScript number holds exactly. *)
Theorem getCount_reads_counter (env : Env) (st : Stores) (r : string)
    (userId : option string) (n : Z) :
  redis_throws env = false →
  Likes.stored_count st r = Some n →
  Z.abs n <= 2 ^ 53 →
  Likes.getCount env st r userId
  = Likes.Count n (if Js.truthy userId
                   then Likes.flag_set st r (Js.or_str userId "") else false).
Proof.
  intros Hr Hn _. unfold Likes.getCount, Likes.stored_count, Likes.flag_set in *.
  rewrite Hr. cbv zeta. f_equal. unfold Redis.get.
  destruct (redis st !! Likes.counter_key r) as [e|];
    cbn [fmap option_fmap option_map] in *.
  - apply string2ll_inv in Hn. rewrite Hn. apply parsed_count.
  - by injection Hn as <-.
Qed.

Lemma getCount_reads_counter_witness :
  let st := fst (Likes.like (healthy false) 11 demo_stores "r" (Some "a")) in
  Likes.getCount (healthy false) st "r" (Some "a") = Likes.Count 1 true.
Proof.
  intros st.
  rewrite (getCount_reads_counter (healthy false) st "r" (Some "a") 1);
    [reflexivity | reflexivity | reflexivity | vm_compute; discriminate].
Defined.

Lemma incrby_stored (d : Z) (db db' : gmap string Redis.entry) (k : string) (c : Z) :
  Redis.incrby d db k = Some (db', c) →
  Redis.in_range c = true
  ∧ ∃ ttl, db' = <[k := Redis.Entry (Redis.show_int c) ttl]> db.
Proof.
  unfold Redis.incrby. intros H.
  destruct (db !! k) as [e|].
  - destruct (Redis.string2ll (Redis.val e)) as [n|]; [|done].
    destruct (Redis.in_range (n + d)) eqn:E; [|done].
    injection H as <- <-. split; [done|by eexists].
  - destruct (Redis.in_range d) eqn:E; [|done].
    injection H as <- <-. split; [done|by eexists].
Qed.

Lemma counter_key_inj (r r' : string) :
  Likes.counter_key r = Likes.counter_key r' → r = r'.
Proof. unfold Likes.counter_key. intros H. by simplify_eq/=. Qed.

(** X10.  After a like that was answered with a count, the count that
    is read for the reel is that count, and the actor is told that the
    reel is liked. *)
Theorem like_then_getCount (env : Env) (now : Z) (st st' : Stores) (r : string)
    (userId : option string) (c : Z) (l : bool) :
  Likes.like env now st r userId = (st', Likes.Count c l) →
  Z.abs c <= 2 ^ 53 →
  Likes.getCount env st' r userId = Likes.Count c true.
Proof.
  intros H Hc. unfold Likes.like in H.
  destruct (Js.truthy userId) eqn:Hu; [|done]. simpl in H.
  destruct (redis_throws env) eqn:Hr; [done|].
  destruct (Js.truthy (Redis.get _ _)); [done|].
  destruct (Redis.incr _ _) as [[db1 n]|] eqn:Hi; [|done].
  injection H as <- -> <-.
  apply incrby_stored in Hi as [Hin [ttl ->]].
  unfold Likes.getCount. rewrite Hr, Hu. cbv zeta.
  unfold Redis.get, Redis.set_ex. cbn [redis with_likes with_redis].
  rewrite lookup_insert_eq.
  rewrite lookup_insert_ne
    by (intros E; symmetry in E; by apply counter_flag_keys_differ in E).
  rewrite lookup_insert_eq. cbn [fmap option_fmap option_map Redis.val].
  f_equal. apply parsed_count.
Qed.

Lemma like_then_getCount_witness :
  ∃ st', Likes.like (healthy false) 11 demo_stores "r" (Some "a")
         = (st', Likes.Count 1 true)
         ∧ Likes.getCount (healthy false) st' "r" (Some "a") = Likes.Count 1 true.
Proof.
  eexists. split; [reflexivity|].
  apply (like_then_getCount (healthy false) 11 demo_stores _ "r" (Some "a") 1 true);
    [reflexivity|vm_compute; discriminate].
Defined.

Lemma like_counter_frame (env : Env) (now : Z) (st : Stores) (r r' : string)
    (userId : option string) :
  r ≠ r' →
  redis (Likes.like env now st r userId).1 !! Likes.counter_key r'
  = redis st !! Likes.counter_key r'.
Proof.
  intros Hne. unfold Likes.like.
  destruct (Js.truthy userId); [|done]. simpl.
  destruct (redis_throws env); [done|].
  destruct (Js.truthy (Redis.get _ _)); [done|].
  destruct (Redis.incr _ _) as [[db1 n]|] eqn:Hi; [|done].
  apply incrby_stored in Hi as [_ [ttl ->]]. simpl. unfold Redis.set_ex.
  rewrite lookup_insert_ne by (intros E; symmetry in E; by apply counter_flag_keys_differ in E).
  rewrite lookup_insert_ne by (intros E; by apply counter_key_inj in E).
  done.
Qed.

Lemma unlike_counter_frame (env : Env) (st : Stores) (r r' : string)
    (userId : option string) :
  r ≠ r' →
  redis (Likes.unlike env st r userId).1 !! Likes.counter_key r'
  = redis st !! Likes.counter_key r'.
Proof.
  intros Hne. unfold Likes.unlike.
  destruct (Js.truthy userId); [|done]. simpl.
  destruct (redis_throws env); [done|].
  destruct (Js.truthy (Redis.get _ _)); [|done]. simpl.
  destruct (Redis.decr _ _) as [[db1 n]|] eqn:Hi; [|done].
  apply incrby_stored in Hi as [_ [ttl ->]]. simpl. unfold Redis.del.
  rewrite lookup_delete_ne by (intros E; symmetry in E; by apply counter_flag_keys_differ in E).
  rewrite lookup_insert_ne by (intros E; by apply counter_key_inj in E).
  done.
Qed.

Lemma getCount_counter (env : Env) (st st' : Stores) (r : string)
    (u v : option string) :
  redis st' !! Likes.counter_key r = redis st !! Likes.counter_key r →
  Likes.count_of (Likes.getCount env st' r u) = Likes.count_of (Likes.getCount env st r v).
Proof.
  intros H. unfold Likes.getCount, Redis.get. rewrite H.
  by destruct (redis_throws env).
Qed.

(** X11.  A like and an unlike of a reel leave the count of every other
    reel as it was. *)
Theorem like_other_reel (env : Env) (now : Z) (st : Stores) (r r' : string)
    (userId viewer : option string) :
  r ≠ r' →
  Likes.count_of (Likes.getCount env (Likes.like env now st r userId).1 r' viewer)
  = Likes.count_of (Likes.getCount env st r' viewer)
  ∧ Likes.count_of (Likes.getCount env (Likes.unlike env st r userId).1 r' viewer)
    = Likes.count_of (Likes.getCount env st r' viewer).
Proof.
  intros Hne. split; apply getCount_counter.
  - by apply like_counter_frame.
  - by apply unlike_counter_frame.
Qed.

Lemma like_other_reel_witness :
  Likes.count_of
    (Likes.getCount (healthy false)
       (fst (Likes.like (healthy false) 11 demo_stores "r" (Some "a"))) "q" None)
  = Some 0.
Proof.
  destruct (like_other_reel (healthy false) 11 demo_stores "r" "q" (Some "a") None)
    as [H _]; [discriminate|].
  rewrite H. reflexivity.
Defined.

(** ** Connecting to Cassandra again *)

Lemma assemble_reels env st st' owner limit refs :
  Reels.assemble env st owner limit = Some (st', refs) → reels st' = reels st.
Proof.
  unfold Reels.assemble. intros H.
  repeat (case_match; simplify_eq/=); done.
Qed.

Lemma enrich_no_reels env st refs : reels st = ∅ → Reels.enrich env st refs = [].
Proof.
  intros He. unfold Reels.enrich. induction refs as [|r refs IH]; [done|].
  csimpl. rewrite enrich_one_unresolved by (by rewrite He, lookup_empty).
  exact IH.
Qed.

Lemma enrich_row_unresolved env st row :
  reels st !! row.1.2 = None → Profile.enrich_row env st row = None.
Proof.
  destruct row as [[t i] a]. simpl. intros H.
  unfold Profile.enrich_row. simpl. rewrite H. by case_match.
Qed.

(** X12.  Connecting to Cassandra drops the table of the reels and keeps
    the index, the timelines, the counters and the comments: after it,
    no feed and no profile page shows a reel, whoever asks. *)
Theorem connect_empties_pages (env : Env) (st st' : Stores) :
  Db.connect env st = Some st' →
  (timeline st' = timeline st ∧ user_reels st' = user_reels st
   ∧ redis st' = redis st ∧ comments st' = comments st)
  ∧ (∀ env' userId limit page message,
       (Reels.getFeed env' st' userId limit).2 = Reels.Page page message →
       page = [])
  ∧ (∀ env' userId limit page,
       Profile.userReels env' st' userId limit = Profile.Reels page → page = []).
Proof.
  unfold Db.connect. destruct (cassandra_throws env); [done|].
  intros [= <-]. split; [done|]. split.
  - intros env' userId limit page message. unfold Reels.getFeed.
    destruct (negb (Js.truthy userId)); [done|].
    destruct (Reels.assemble _ _ _ _) as [[st2 refs]|] eqn:E; [|done].
    apply assemble_reels in E.
    destruct (length refs =? 0)%nat; simpl; intros [= <- _]; [done|].
    by apply enrich_no_reels.
  - intros env' userId limit page. unfold Profile.userReels.
    destruct (cassandra_throws env'); [done|].
    destruct (Cassandra.select _ _ _) as [rows|]; [|done].
    intros [= <-]. induction rows as [|row rows IH]; [done|].
    csimpl. by rewrite enrich_row_unresolved.
Qed.

Lemma connect_empties_pages_witness :
  (∃ e1 e2 e3, snd (Reels.getFeed (healthy false) demo_feed (Some "a") 10)
               = Reels.Page [e1; e2; e3] None)
  ∧ ∀ page message,
      snd (Reels.getFeed (healthy false) (with_reels demo_feed ∅) (Some "a") 10)
      = Reels.Page page message → page = [].
Proof.
  split; [by eexists _, _, _|].
  destruct (connect_empties_pages (healthy false) demo_feed (with_reels demo_feed ∅))
    as (_ & H & _); [reflexivity|].
  intros page message. apply H.
Defined.

(** ** The reels of a profile *)

Lemma or_str_idem (v : option string) :
  Js.or_str (Some (Js.or_str v "")) "" = Js.or_str v "".
Proof.
  destruct v as [s|]; simpl; [|done].
  destruct (String.eqb s "") eqn:E; simpl; [done|]. by rewrite E.
Qed.

Lemma omap_length_le {A B} (f : A → option B) (l : list A) :
  (length (omap f l) ≤ length l)%nat.
Proof.
  induction l as [|x l IH]; [done|]. csimpl.
  destruct (f x); simpl; lia.
Qed.

(** X13.  A reel that was created and is newer than the reels of the
    index of its author is the first reel of the profile page of the
    author, with no like, the comments stored for its id, its caption
    and its media URL; at most [limit - 1] reels follow it. *)
Theorem profile_shows_new_reel (env : Env) (now : Z) (rid : N) (st : Stores)
    (uid murl : string) (caption : option string) (limit : Z) :
  uid ≠ "" → murl ≠ "" →
  cassandra_throws env = false → redis_throws env = false →
  mongo_throws env = false → enrich_throws env rid = false →
  Forall (λ x, x.1.1 < now) (Cassandra.partition (user_reels st) uid) →
  0 < limit →
  let s1 := fst (Reels.createPost env now rid st (Some uid) caption (Some murl)) in
  ∃ older,
    Profile.userReels env s1 uid limit
    = Profile.Reels
        (Profile.Reel (Uuid.toString rid)
                      (Js.or_str (Reels.proxy_url env (Some murl)) "")
                      (Js.or_str caption "") 0
                      (length (filter (λ d, Mongo.c_reelId d = Uuid.toString rid)
                                      (comments st)))
                      now
         :: older)
    ∧ (length older ≤ Z.to_nat limit - 1)%nat.
Proof.
  intros Hu Hm Hc Hr Hg He Hnew Hl s1.
  unfold Profile.userReels. rewrite Hc, select_some by done.
  assert (Hpart : Cassandra.partition (user_reels s1) uid
                  = ((now, rid), tt) :: Cassandra.partition (user_reels st) uid).
  { unfold s1. rewrite createPost_ok by done. cbn [fst]. simpl.
    rewrite partition_insert_row_eq. by apply insert_first. }
  rewrite Hpart.
  destruct (Z.to_nat limit) as [|n] eqn:E; [lia|].
  cbn [take]. csimpl.
  assert (Hrow : Profile.enrich_row env s1 ((now, rid), tt)
                 = Some (Profile.Reel (Uuid.toString rid)
                           (Js.or_str (Reels.proxy_url env (Some murl)) "")
                           (Js.or_str caption "") 0
                           (length (filter (λ d, Mongo.c_reelId d = Uuid.toString rid)
                                           (comments st)))
                           now)).
  { unfold Profile.enrich_row. simpl. rewrite Hc, He, Hr, Hg. simpl.
    unfold s1. rewrite createPost_ok by done. cbn [fst]. simpl.
    rewrite lookup_insert_eq. unfold Redis.get, Redis.set.
    rewrite lookup_insert_eq. simpl. do 2 f_equal.
    by destruct (String.eqb_spec (Js.or_str caption "") ""). }
  rewrite Hrow. eexists. split; [reflexivity|].
  etransitivity; [apply omap_length_le|]. rewrite length_take. lia.
Qed.

Lemma profile_shows_new_reel_witness :
  ∃ older,
    Profile.userReels (healthy false)
      (fst (Reels.createPost (healthy false) 60 9 demo_feed (Some "u") None
              (Some "http://localhost:9000/reels-media/reels/x.mp4")))
      "u" 2
    = Profile.Reels
        (Profile.Reel (Uuid.toString 9)
           "http://localhost:3000/api/media/reels-media%2Freels%2Fx.mp4"
           "" 0 0 60 :: older)
    ∧ (length older ≤ 1)%nat.
Proof.
  destruct (profile_shows_new_reel (healthy false) 60 9 demo_feed "u"
              "http://localhost:9000/reels-media/reels/x.mp4" None 2)
    as (older & H & Hlen);
    [discriminate | discriminate | reflexivity | reflexivity | reflexivity
     | reflexivity | | lia |].
  - change (Cassandra.partition (user_reels demo_feed) "u")
      with [((30, 5%N), tt); ((20, 3%N), tt); ((10, 7%N), tt)].
    repeat constructor.
  - exists older. split; [exact H|exact Hlen].
Defined.

Lemma filter_and_length {A} (P Q : A → Prop) `{∀ x, Decision (P x)}
    `{∀ x, Decision (Q x)} (l : list A) :
  (length (filter (λ x, P x ∧ Q x) l) ≤ length (filter P l))%nat.
Proof.
  induction l as [|x l IH]; [done|].
  destruct (decide (P x)) as [Hp|Hp].
  - rewrite (filter_cons_True P) by done.
    destruct (decide (Q x)).
    + rewrite filter_cons_True by done. simpl. lia.
    + rewrite filter_cons_False by tauto. simpl. lia.
  - rewrite (filter_cons_False P) by done.
    rewrite filter_cons_False by tauto. done.
Qed.

Lemma top_level_comments_length c r n :
  (length (Mongo.top_level_comments c r n)
   ≤ length (filter (λ d, Mongo.c_reelId d = r) c))%nat.
Proof.
  unfold Mongo.top_level_comments. rewrite length_take.
  etransitivity; [apply Nat.le_min_r|].
  rewrite sort_newest_perm.
  apply (filter_and_length (λ d, Mongo.c_reelId d = r)
                           (λ d, Mongo.parentCommentId d = None)).
Qed.

(** X14.  The entry of a reel on a profile page and its entry in a feed
    agree on the id, the media URL, the caption, the number of likes
    and the date; the feed shows no more comments than the profile page
    counts. *)
Theorem profile_agrees_with_feed (env : Env) (st : Stores) (k : Cassandra.key)
    (author : string) (e : Reels.enriched) (p : Profile.reel) :
  Reels.enrich_one env st (Reels.timeline_ref (k, author)) = Some e →
  Profile.enrich_row env st (k, tt) = Some p →
  Profile.id p = Reels.id e
  ∧ Profile.mediaUrl p = Reels.mediaUrl e
  ∧ Profile.caption p = Reels.caption e
  ∧ Profile.likesCount p = Reels.likesCount e
  ∧ Profile.createdAt p = Reels.e_createdAt e
  ∧ (length (Reels.e_comments e) ≤ Profile.commentsCount p)%nat.
Proof.
  destruct k as [t i]. unfold Reels.enrich_one, Profile.enrich_row. simpl.
  intros He Hp.
  destruct (cassandra_throws env || enrich_throws env i); [done|].
  destruct (reels st !! i) as [reel|]; [|done].
  destruct (redis_throws env); [done|].
  destruct (mongo_throws env); [done|].
  injection He as <-. injection Hp as <-. simpl.
  repeat split; try done.
  rewrite length_fmap. apply top_level_comments_length.
Qed.

Lemma profile_agrees_with_feed_witness :
  ∃ e p,
    Reels.enrich_one (healthy false) demo_comments
      (Reels.timeline_ref ((30, 5%N), "u")) = Some e
    ∧ Profile.enrich_row (healthy false) demo_comments ((30, 5%N), tt) = Some p
    ∧ Profile.likesCount p = Reels.likesCount e
    ∧ length (Reels.e_comments e) = 1%nat ∧ Profile.commentsCount p = 2%nat.
Proof.
  destruct (Reels.enrich_one (healthy false) demo_comments
              (Reels.timeline_ref ((30, 5%N), "u"))) as [e|] eqn:E1;
    [|vm_compute in E1; discriminate].
  destruct (Profile.enrich_row (healthy false) demo_comments ((30, 5%N), tt))
    as [p|] eqn:E2; [|vm_compute in E2; discriminate].
  exists e, p. split; [done|]. split; [done|].
  destruct (profile_agrees_with_feed (healthy false) demo_comments (30, 5%N) "u" e p E1 E2)
    as (_ & _ & _ & H & _).
  split; [exact H|].
  vm_compute in E1, E2. injection E1 as <-. injection E2 as <-. by split.
Defined.

(** ** The counts of a profile *)

Lemma upsert_follow_count (P : Mongo.follow_doc → Prop) `{∀ d, Decision (P d)}
    (c : list Mongo.follow_doc) (a b : string) (now : Z) :
  (∀ d d', Mongo.pair d = Mongo.pair d' → P d ↔ P d') →
  length (filter P (Mongo.upsert_follow c a b now))
  = (length (filter P c)
     + (if decide ((a, b) ∈ (Mongo.pair <$> c)) then 0
        else if decide (P (Mongo.FollowDoc a b now)) then 1 else 0))%nat.
Proof.
  intros HP. induction c as [|d c IH].
  - simpl. destruct (decide ((a, b) ∈ [])) as [Hin|_];
      [by apply elem_of_nil in Hin|].
    destruct (decide (P _)).
    + by rewrite filter_cons_True.
    + by rewrite filter_cons_False.
  - simpl. destruct (decide (_ ∧ _)) as [[Ha Hb]|Hn].
    + rewrite decide_True
        by (apply elem_of_cons; left; unfold Mongo.pair; congruence).
      assert (Hd : P (Mongo.FollowDoc a b now) ↔ P d).
      { apply HP. unfold Mongo.pair. simpl. congruence. }
      destruct (decide (P d)) as [Hp|Hp].
      * rewrite !filter_cons_True by tauto. simpl. lia.
      * rewrite !filter_cons_False by tauto. lia.
    + assert (Hiff : (a, b) ∈ Mongo.pair d :: (Mongo.pair <$> c)
                     ↔ (a, b) ∈ (Mongo.pair <$> c)).
      { rewrite elem_of_cons. split; [|tauto].
        intros [Hin|Hin]; [|done].
        exfalso. apply Hn. unfold Mongo.pair in Hin. by simplify_eq. }
      rewrite (decide_ext _ _ _ _ Hiff).
      destruct (decide (P d));
        [rewrite !filter_cons_True by done|rewrite !filter_cons_False by done];
        simpl; rewrite IH; lia.
Qed.

Lemma delete_one_follow_count (P : Mongo.follow_doc → Prop) `{∀ d, Decision (P d)}
    (c : list Mongo.follow_doc) (a b : string) :
  (∀ d, Mongo.pair d = (a, b) → P d) →
  (a, b) ∈ (Mongo.pair <$> c) →
  S (length (filter P (Mongo.delete_one_follow c a b))) = length (filter P c).
Proof.
  intros HP. induction c as [|d c IH]; [by intros ?%elem_of_nil|].
  intros Hin. simpl. destruct (decide (_ ∧ _)) as [[Ha Hb]|Hn].
  - rewrite filter_cons_True; [done|]. apply HP. unfold Mongo.pair. congruence.
  - apply elem_of_cons in Hin as [Hin|Hin].
    { exfalso. apply Hn. unfold Mongo.pair in Hin. by simplify_eq. }
    destruct (decide (P d));
      [rewrite !filter_cons_True by done|rewrite !filter_cons_False by done];
      simpl; rewrite <- IH by done; lia.
Qed.

Lemma delete_one_follow_count_other (P : Mongo.follow_doc → Prop)
    `{∀ d, Decision (P d)} (c : list Mongo.follow_doc) (a b : string) :
  (∀ d, Mongo.pair d = (a, b) → ¬ P d) →
  length (filter P (Mongo.delete_one_follow c a b)) = length (filter P c).
Proof.
  intros HP. induction c as [|d c IH]; [done|].
  simpl. destruct (decide (_ ∧ _)) as [[Ha Hb]|Hn].
  - rewrite filter_cons_False; [done|]. apply HP. unfold Mongo.pair. congruence.
  - destruct (decide (P d));
      [rewrite !filter_cons_True by done|rewrite !filter_cons_False by done];
      simpl; rewrite IH; lia.
Qed.

(** X15.  After a follow that is acknowledged, the profile of every user
    shows the counts it showed before, except that a pair that is new
    adds one follower to the followed user and one followed user to the
    follower. *)
Theorem follow_changes_two_counts (env : Env) (now : Z) (st : Stores)
    (u f x : string) (usr : Mongo.user_doc) :
  f ≠ "" → u ≠ f → mongo_throws env = false → cassandra_throws env = false →
  Mongo.find_user (users st) x = Some usr →
  let new := if decide ((f, u) ∈ (Mongo.pair <$> follows st)) then 0%nat else 1%nat in
  Account.getUser env (fst (Users.follow env now st u (Some f))) x
  = Account.Found usr (Users.or_opt (Mongo.fullname usr) (Mongo.username usr))
      (Account.count_followers st x + (if decide (x = u) then new else 0))
      (Account.count_following st x + (if decide (x = f) then new else 0)).
Proof.
  intros Hf Hne Hm Hc Hx new.
  rewrite follow_ok by done. cbn [fst].
  unfold Account.getUser. rewrite Hm.
  assert (Hus : ∀ s, users (if neo4j_connected env && negb (neo4j_throws env)
                            then with_neo4j st s else st) = users st)
    by (intros s; by case_match).
  assert (Hfs : ∀ s, follows (if neo4j_connected env && negb (neo4j_throws env)
                              then with_neo4j st s else st) = follows st)
    by (intros s; by case_match).
  simpl. rewrite Hus, Hx.
  unfold Account.count_followers, Account.count_following,
    Mongo.find_by_followed, Mongo.find_by_follower. simpl. rewrite Hfs.
  f_equal.
  - rewrite upsert_follow_count
      by (intros d d'; unfold Mongo.pair; intros [= _ ->]; done).
    fold new. unfold new. simpl.
    repeat case_decide; try done; congruence.
  - rewrite upsert_follow_count
      by (intros d d'; unfold Mongo.pair; intros [= -> _]; done).
    fold new. unfold new. simpl.
    repeat case_decide; try done; congruence.
Qed.

Lemma follow_changes_two_counts_witness :
  Account.getUser (healthy false)
    (fst (Users.follow (healthy false) 1 demo_stores "b" (Some "a"))) "b"
  = Account.Found (demo_user "b") (Some "b") 1 0.
Proof.
  rewrite (follow_changes_two_counts (healthy false) 1 demo_stores "b" "a" "b"
             (demo_user "b"));
    [reflexivity | discriminate | discriminate | reflexivity | reflexivity
     | reflexivity].
Defined.

Lemma delete_one_follow_absent (c : list Mongo.follow_doc) (a b : string) :
  (a, b) ∉ (Mongo.pair <$> c) → Mongo.delete_one_follow c a b = c.
Proof.
  induction c as [|d c IH]; [done|]. intros Hn. simpl.
  destruct (decide (_ ∧ _)) as [[Ha Hb]|_].
  - exfalso. apply Hn. apply elem_of_cons. left. unfold Mongo.pair. congruence.
  - rewrite IH; [done|]. intros Hin. apply Hn. by apply elem_of_cons; right.
Qed.

(** X16.  After an unfollow, the profile of every user shows the counts
    it showed before, except that a pair that was stored takes one
    follower from the followed user and one followed user from the
    follower. *)
Theorem unfollow_changes_two_counts (env : Env) (st : Stores)
    (u f x : string) (usr : Mongo.user_doc) :
  f ≠ "" → mongo_throws env = false →
  Mongo.find_user (users st) x = Some usr →
  let old := if decide ((f, u) ∈ (Mongo.pair <$> follows st)) then 1%nat else 0%nat in
  Account.getUser env (fst (Users.unfollow env st u (Some f))) x
  = Account.Found usr (Users.or_opt (Mongo.fullname usr) (Mongo.username usr))
      (Account.count_followers st x - (if decide (x = u) then old else 0))
      (Account.count_following st x - (if decide (x = f) then old else 0)).
Proof.
  intros Hf Hm Hx old.
  rewrite unfollow_ok by done. cbn [fst].
  unfold Account.getUser. rewrite Hm.
  assert (Hus : ∀ s, users (if neo4j_connected env && negb (neo4j_throws env)
                            then with_neo4j st s else st) = users st)
    by (intros s; by case_match).
  assert (Hfs : ∀ s, follows (if neo4j_connected env && negb (neo4j_throws env)
                              then with_neo4j st s else st) = follows st)
    by (intros s; by case_match).
  simpl. rewrite Hus, Hx.
  unfold Account.count_followers, Account.count_following,
    Mongo.find_by_followed, Mongo.find_by_follower. simpl. rewrite Hfs.
  unfold old. destruct (decide ((f, u) ∈ (Mongo.pair <$> follows st))) as [Hin|Hin].
  - f_equal.
    + destruct (decide (x = u)) as [->|Hxu].
      * pose proof (delete_one_follow_count (λ d, Mongo.followedId d = u)
                      (follows st) f u) as E.
        rewrite <- E; [lia| |done].
        intros d. unfold Mongo.pair. by intros [= _ ->].
      * rewrite delete_one_follow_count_other; [lia|].
        intros d. unfold Mongo.pair. intros [= _ ->]. congruence.
    + destruct (decide (x = f)) as [->|Hxf].
      * pose proof (delete_one_follow_count (λ d, Mongo.followerId d = f)
                      (follows st) f u) as E.
        rewrite <- E; [lia| |done].
        intros d. unfold Mongo.pair. by intros [= -> _].
      * rewrite delete_one_follow_count_other; [lia|].
        intros d. unfold Mongo.pair. intros [= -> _]. congruence.
  - rewrite delete_one_follow_absent by done.
    f_equal; case_decide; lia.
Qed.

Lemma unfollow_changes_two_counts_witness :
  Account.getUser (healthy false)
    (fst (Users.unfollow (healthy false) demo_friends "b" (Some "a"))) "b"
  = Account.Found (demo_user "b") (Some "b") 0 2.
Proof.
  rewrite (unfollow_changes_two_counts (healthy false) demo_friends "b" "a" "b"
             (demo_user "b"));
    [reflexivity | discriminate | reflexivity | reflexivity].
Defined.

(** ** The tree of comments *)

Lemma push_replies (n : Comments.node) (rs : list Comments.reply) :
  foldl Comments.push_reply n rs
  = Comments.Node (Comments.n_id n) (Comments.n_text n) (Comments.n_author_id n)
      (Comments.n_author_username n) (Comments.n_createdAt n)
      (Comments.replies n ++ rs).
Proof.
  revert n. induction rs as [|r rs IH]; intros n; simpl.
  - rewrite app_nil_r. by destruct n.
  - rewrite IH. simpl. by rewrite <- app_assoc.
Qed.

Lemma obj_set_keys_present {V} (o : Js.obj V) k v :
  is_Some (Js.obj_get o k) → fst <$> Js.obj_set o k v = fst <$> o.
Proof.
  intros [x Hx]. rewrite obj_set_keys. case_decide as Hk; [done|].
  by rewrite obj_get_None in Hx.
Qed.

Lemma attach_keys m c : fst <$> Comments.attach m c = fst <$> m.
Proof.
  unfold Comments.attach. destruct (Js.obj_get m _) eqn:E; [|done].
  by apply obj_set_keys_present.
Qed.

Lemma attach_get m c k :
  Js.obj_get (Comments.attach m c) k
  = if decide (Js.or_str (Mongo.parentCommentId c) "" = k)
    then (λ n, Comments.push_reply n (Comments.reply_view c)) <$> Js.obj_get m k
    else Js.obj_get m k.
Proof.
  unfold Comments.attach. case_decide as Hk.
  - subst k. destruct (Js.obj_get m _) eqn:E; simpl.
    + by rewrite obj_get_set_eq.
    + by rewrite E.
  - destruct (Js.obj_get m (Js.or_str _ _)) eqn:E; [|done].
    by rewrite obj_get_set_ne.
Qed.

Lemma attach_fold rs m k :
  fst <$> foldl Comments.attach m rs = fst <$> m
  ∧ Js.obj_get (foldl Comments.attach m rs) k
    = (λ n, foldl Comments.push_reply n
              (Comments.reply_view
                 <$> filter (λ c, Js.or_str (Mongo.parentCommentId c) "" = k) rs))
        <$> Js.obj_get m k.
Proof.
  revert m. induction rs as [|c rs IH]; intros m.
  - split; [done|]. simpl. by destruct (Js.obj_get m k).
  - cbn [foldl]. destruct (IH (Comments.attach m c)) as [-> ->].
    split; [apply attach_keys|]. rewrite attach_get.
    case_decide as Hk.
    + rewrite filter_cons_True by done. by destruct (Js.obj_get m k).
    + by rewrite filter_cons_False.
Qed.

Lemma top_fold_NoDup (tl : list Mongo.comment_doc) m :
  NoDup (fst <$> m) →
  NoDup (fst <$> foldl (λ m c, Js.obj_set m (Mongo._id c) (Comments.top_node c)) m tl).
Proof.
  revert m. induction tl as [|c tl IH]; intros m Hm; [done|].
  cbn [foldl]. by apply IH, obj_set_NoDup.
Qed.

Lemma tree_NoDup st reelId : NoDup (fst <$> Comments.tree st reelId).
Proof.
  unfold Comments.tree. cbv zeta.
  match goal with |- context [foldl Comments.attach ?m ?rs] =>
    rewrite (proj1 (attach_fold rs m "")) end.
  apply top_fold_NoDup. constructor.
Qed.

Lemma truthy_parent (c : Mongo.comment_doc) (k : string) :
  Js.truthy (Mongo.parentCommentId c) = true
  ∧ Js.or_str (Mongo.parentCommentId c) "" = k
  ↔ Mongo.parentCommentId c = Some k ∧ k ≠ "".
Proof.
  destruct (Mongo.parentCommentId c) as [p|]; simpl.
  - destruct (String.eqb_spec p "") as [->|Hp]; simpl.
    + split; [by intros [? _]|]. by intros [[= <-] ?].
    + split; [by intros [_ ->]|]. by intros [[= ->] _].
  - split; [by intros [? _]|by intros [? _]].
Qed.

(** The node that the tree has for a key. *)
Lemma tree_get st reelId k n :
  Js.obj_get (Comments.tree st reelId) k = Some n →
  let all := Mongo.sort_newest
               (filter (λ c, Mongo.c_reelId c = reelId) (comments st)) in
  ∃ c, c ∈ comments st ∧ Mongo.c_reelId c = reelId
       ∧ Js.truthy (Mongo.parentCommentId c) = false
       ∧ Mongo._id c = k
       ∧ n = Comments.Node (Mongo._id c) (Mongo.text c) (Mongo.c_userId c)
               (Mongo.c_username c) (Mongo.c_createdAt c)
               (Comments.reply_view
                  <$> filter (λ d, Mongo.parentCommentId d = Some k ∧ k ≠ "") all).
Proof.
  intros H all. unfold Comments.tree in H. cbv zeta in H. fold all in H.
  rewrite (proj2 (attach_fold _ _ k)) in H.
  rewrite obj_fold_last in H. simpl in H.
  destruct (last _) as [c|] eqn:El; [|done]. simpl in H. injection H as <-.
  apply last_Some_elem_of in El.
  apply list_elem_of_filter in El as [Hid Hc].
  apply list_elem_of_filter in Hc as [Htop Hc].
  unfold all in Hc. rewrite sort_newest_perm in Hc.
  apply list_elem_of_filter in Hc as [Hreel Hc].
  exists c. repeat (split; [done|]).
  rewrite push_replies. simpl. rewrite Hid. do 2 f_equal.
  rewrite list_filter_filter. apply list_filter_iff.
  intros d. rewrite <- truthy_parent. tauto.
Qed.

Lemma slice_sublist {A} (s e : Z) (l : list A) : Js.slice s e l `sublist_of` l.
Proof.
  unfold Js.slice. cbv zeta.
  etransitivity; [apply sublist_take|apply sublist_drop].
Qed.

Lemma slice_length {A} (offset limit : Z) (l : list A) :
  0 <= limit →
  (length (Js.slice offset (offset + limit) l) ≤ Z.to_nat limit)%nat.
Proof.
  intros Hl. unfold Js.slice, Js.clamp_index. cbv zeta.
  rewrite length_take, length_drop.
  set (len := Z.of_nat (length l)).
  repeat case_match; lia.
Qed.

Lemma slice_from_start {A} (limit : Z) (l : list A) :
  0 <= limit → Js.slice 0 (0 + limit) l = take (Z.to_nat limit) l.
Proof.
  intros Hl. unfold Js.slice. cbv zeta.
  assert (H0 : Js.clamp_index (Z.of_nat (length l)) 0 = 0).
  { unfold Js.clamp_index. rewrite (proj2 (Z.ltb_ge 0 0)) by lia. lia. }
  assert (H1 : Js.clamp_index (Z.of_nat (length l)) (0 + limit)
               = Z.min limit (Z.of_nat (length l))).
  { unfold Js.clamp_index. rewrite (proj2 (Z.ltb_ge _ 0)) by lia. reflexivity. }
  rewrite H0, H1, Z.sub_0_r. change (Z.to_nat 0) with 0%nat. rewrite drop_0.
  destruct (Z.min_spec limit (Z.of_nat (length l))) as [[Hlt ->]|[Hge ->]]; [done|].
  rewrite Nat2Z.id, !take_ge; [done|lia|lia].
Qed.

Lemma tree_node_ids st reelId :
  Comments.n_id <$> (snd <$> Comments.tree st reelId) = fst <$> Comments.tree st reelId.
Proof.
  rewrite <- list_fmap_compose. apply Forall_fmap_ext_1, Forall_forall.
  intros [k n] Hin. simpl.
  apply elem_of_obj in Hin; [|apply tree_NoDup].
  apply tree_get in Hin. cbv zeta in Hin.
  destruct Hin as (c & _ & _ & _ & Hid & ->). done.
Qed.

(** X17.  The answer of [GET /api/comments/:reelId]: every node is a
    top-level comment of the reel, its replies are the comments of the
    reel that name it as their parent, newest first, so that a reply to
    a reply is listed nowhere; no two nodes have the same id; at most
    [limit] nodes are listed. *)
Theorem getComments_tree (env : Env) (st : Stores) (reelId : string)
    (limit offset : Z) (page : list Comments.node) :
  Comments.getComments env st reelId limit offset = Comments.Comments page →
  let all := Mongo.sort_newest
               (filter (λ c, Mongo.c_reelId c = reelId) (comments st)) in
  (∀ n, n ∈ page →
     ∃ c, c ∈ comments st ∧ Mongo.c_reelId c = reelId
          ∧ Js.truthy (Mongo.parentCommentId c) = false
          ∧ n = Comments.Node (Mongo._id c) (Mongo.text c) (Mongo.c_userId c)
                  (Mongo.c_username c) (Mongo.c_createdAt c)
                  (Comments.reply_view
                     <$> filter (λ d, Mongo.parentCommentId d = Some (Mongo._id c)
                                      ∧ Mongo._id c ≠ "") all))
  ∧ NoDup (Comments.n_id <$> page)
  ∧ (0 <= limit → (length page ≤ Z.to_nat limit)%nat).
Proof.
  intros H all. unfold Comments.getComments in H.
  destruct (mongo_throws env); [done|]. injection H as <-. split; [|split].
  - intros n Hn.
    eapply elem_of_sublist in Hn; [|apply slice_sublist].
    apply list_elem_of_fmap in Hn as ([k n'] & -> & Hin). simpl.
    apply elem_of_obj in Hin; [|apply tree_NoDup].
    apply tree_get in Hin. cbv zeta in Hin.
    destruct Hin as (c & Hc & Hreel & Htop & Hid & Hn).
    subst k. by exists c.
  - eapply sublist_NoDup; [|apply fmap_sublist, slice_sublist].
    rewrite tree_node_ids. apply tree_NoDup.
  - apply slice_length.
Qed.

Lemma getComments_tree_witness :
  ∃ page,
    Comments.getComments (healthy false) demo_comments (Uuid.toString 5) 20 0
    = Comments.Comments page
    ∧ Comments.n_id <$> page = ["c1"]
    ∧ (Comments.r_id <$> (page ≫= Comments.replies)) = ["c2"]
    ∧ NoDup (Comments.n_id <$> page) ∧ (length page ≤ 20)%nat.
Proof.
  eexists. split; [reflexivity|].
  destruct (getComments_tree (healthy false) demo_comments (Uuid.toString 5) 20 0 _
              eq_refl) as (_ & Hnd & Hlen).
  split; [reflexivity|]. split; [reflexivity|]. split; [exact Hnd|].
  apply Hlen. lia.
Defined.

(** ** Posting a comment *)

Lemma insert_newest_fold d s l :
  Forall (λ x, Mongo.c_createdAt x < Mongo.c_createdAt d) l →
  foldr Mongo.insert_newest (d :: s) l = d :: foldr Mongo.insert_newest s l.
Proof.
  induction 1 as [|x l Hx _ IH]; [done|].
  simpl. rewrite IH. simpl.
  by rewrite (proj2 (Z.leb_gt _ _)) by lia.
Qed.

Lemma sort_newest_snoc d l :
  Forall (λ x, Mongo.c_createdAt x < Mongo.c_createdAt d) l →
  Mongo.sort_newest (l ++ [d]) = d :: Mongo.sort_newest l.
Proof.
  intros H. unfold Mongo.sort_newest. rewrite foldr_app. simpl.
  by apply insert_newest_fold.
Qed.

Lemma top_fold_cons (tl : list Mongo.comment_doc) k v m :
  (∀ c, c ∈ tl → Mongo._id c ≠ k) →
  foldl (λ m c, Js.obj_set m (Mongo._id c) (Comments.top_node c)) ((k, v) :: m) tl
  = (k, v) :: foldl (λ m c, Js.obj_set m (Mongo._id c) (Comments.top_node c)) m tl.
Proof.
  revert m. induction tl as [|c tl IH]; intros m Hk; [done|].
  cbn [foldl]. simpl. rewrite decide_False.
  - apply IH. intros c' Hc'. apply Hk. by right.
  - intros E. eapply Hk; [by left|done].
Qed.

Lemma attach_fold_cons (rs : list Mongo.comment_doc) k v m :
  (∀ c, c ∈ rs → Js.or_str (Mongo.parentCommentId c) "" ≠ k) →
  foldl Comments.attach ((k, v) :: m) rs = (k, v) :: foldl Comments.attach m rs.
Proof.
  revert m. induction rs as [|c rs IH]; intros m Hk; [done|].
  cbn [foldl].
  assert (Hc : Comments.attach ((k, v) :: m) c = (k, v) :: Comments.attach m c).
  { unfold Comments.attach. simpl.
    rewrite decide_False by (intros E; eapply Hk; [by left|done]).
    destruct (Js.obj_get m _); [|done]. simpl.
    by rewrite decide_False by (intros E; eapply Hk; [by left|done]). }
  rewrite Hc. apply IH. intros c' Hc'. apply Hk. by right.
Qed.

Lemma postComment_ok env now insertedId st reelId userId text username parent :
  reelId ≠ "" → userId ≠ "" → text ≠ "" → mongo_throws env = false →
  Comments.postComment env now insertedId st (Some reelId) (Some userId)
    (Some text) username parent
  = let doc :=
      Mongo.CommentDoc insertedId reelId
        (if Js.truthy parent then parent else None) userId
        (if Js.truthy username then username
         else match Mongo.find_user (users st) userId with
              | Some user => Mongo.username user
              | None => Some "user"
              end)
        (Js.trim text) now in
    (with_comments st (comments st ++ [doc]), Comments.Posted doc).
Proof.
  intros Hr Hu Ht Hm. unfold Comments.postComment.
  rewrite !truthy_or_str, !or_str_some, Hm by done. reflexivity.
Qed.

(** X18.  A top-level comment that is posted with a fresh id and is newer
    than the comments of its reel is the first node of the first page
    of that reel, with its trimmed text and without replies; the nodes
    that were listed before follow it. *)
Theorem posted_comment_heads_page (env : Env) (now : Z) (insertedId : string)
    (st : Stores) (reelId userId text : string) (username : option string)
    (limit : Z) :
  reelId ≠ "" → userId ≠ "" → text ≠ "" → mongo_throws env = false →
  (∀ c, c ∈ comments st →
        Mongo._id c ≠ insertedId ∧ Mongo.parentCommentId c ≠ Some insertedId) →
  (∀ c, c ∈ comments st → Mongo.c_reelId c = reelId → Mongo.c_createdAt c < now) →
  0 < limit →
  ∃ doc before,
    Comments.postComment env now insertedId st (Some reelId) (Some userId)
      (Some text) username None
    = (with_comments st (comments st ++ [doc]), Comments.Posted doc)
    ∧ Mongo._id doc = insertedId ∧ Mongo.text doc = Js.trim text
    ∧ Mongo.c_userId doc = userId ∧ Mongo.c_createdAt doc = now
    ∧ Comments.getComments env st reelId (limit - 1) 0 = Comments.Comments before
    ∧ Comments.getComments env (with_comments st (comments st ++ [doc])) reelId limit 0
      = Comments.Comments (Comments.top_node doc :: before).
Proof.
  intros Hr Hu Ht Hm Hfresh Hnew Hl.
  rewrite postComment_ok by done. cbv zeta. simpl.
  eexists _, _. split; [reflexivity|]. do 4 (split; [done|]).
  unfold Comments.getComments. rewrite Hm.
  split; [reflexivity|]. f_equal.
  rewrite !slice_from_start by lia.
  set (doc := Mongo.CommentDoc _ _ _ _ _ _ _).
  assert (Htree : Comments.tree (with_comments st (comments st ++ [doc])) reelId
                  = (insertedId, Comments.top_node doc) :: Comments.tree st reelId).
  { unfold Comments.tree. cbv zeta. simpl.
    rewrite filter_app, filter_cons_True, filter_nil by done.
    rewrite sort_newest_snoc.
    2:{ apply Forall_forall. intros c [Hc1 Hc2]%list_elem_of_filter.
        simpl. specialize (Hnew c Hc2 Hc1). lia. }
    rewrite filter_cons_True by done.
    rewrite (filter_cons_False (λ c, Js.truthy (Mongo.parentCommentId c) = true))
      by done.
    cbn [foldl]. simpl.
    rewrite top_fold_cons.
    2:{ intros c [_ Hc]%list_elem_of_filter. rewrite sort_newest_perm in Hc.
        apply list_elem_of_filter in Hc as [_ Hc]. by apply Hfresh. }
    apply attach_fold_cons.
    intros c [Htr Hc]%list_elem_of_filter. rewrite sort_newest_perm in Hc.
    apply list_elem_of_filter in Hc as [_ Hc].
    destruct (Hfresh c Hc) as [_ Hp].
    destruct (Mongo.parentCommentId c) as [p|]; [|done]. simpl in *.
    destruct (String.eqb p ""); [done|]. congruence. }
  rewrite Htree. csimpl.
  destruct (Z.to_nat limit) as [|n] eqn:E; [lia|].
  replace (Z.to_nat (limit - 1)) with n by lia. done.
Qed.

Lemma posted_comment_heads_page_witness :
  ∃ doc before,
    Comments.getComments (healthy false) demo_comments (Uuid.toString 5) 1 0
    = Comments.Comments before
    ∧ Comments.getComments (healthy false)
        (with_comments demo_comments (comments demo_comments ++ [doc]))
        (Uuid.toString 5) 2 0
      = Comments.Comments (Comments.top_node doc :: before)
    ∧ Mongo.text doc = "new" ∧ length before = 1%nat.
Proof.
  destruct (posted_comment_heads_page (healthy false) 102 "c3" demo_comments
              (Uuid.toString 5) "u"
              (String (ascii_of_nat 194) (String (ascii_of_nat 160) "new ")) None 2)
    as (doc & before & _ & _ & Ht & _ & _ & Hb & Hg);
    [discriminate | discriminate | discriminate | reflexivity | | | lia |].
  - intros c Hc. apply list_elem_of_In in Hc. vm_compute in Hc.
    destruct Hc as [<-|[<-|[]]]; split; discriminate.
  - intros c Hc _. apply list_elem_of_In in Hc. vm_compute in Hc.
    destruct Hc as [<-|[<-|[]]]; reflexivity.
  - exists doc, before. split; [exact Hb|]. split; [exact Hg|].
    split; [rewrite Ht; reflexivity|].
    vm_compute in Hb. by injection Hb as <-.
Defined.

Lemma trim_start_blank (s : string) :
  Forall (λ c, Js.is_ws c = true) (list_ascii_of_string s) → Js.trim_start s = "".
Proof.
  induction s as [|c s IH]; [done|].
  simpl. intros [Hc Hs]%Forall_cons. rewrite Hc. by apply IH.
Qed.

(** X19.  A text of white space only is not empty, so it passes the
    validation; what is stored and answered is the empty text. *)
Theorem postComment_blank_text (env : Env) (now : Z) (insertedId : string)
    (st : Stores) (reelId userId text : string)
    (username parentCommentId : option string) :
  reelId ≠ "" → userId ≠ "" → text ≠ "" → mongo_throws env = false →
  Forall (λ c, Js.is_ws c = true) (list_ascii_of_string text) →
  ∃ doc,
    Comments.postComment env now insertedId st (Some reelId) (Some userId)
      (Some text) username parentCommentId
    = (with_comments st (comments st ++ [doc]), Comments.Posted doc)
    ∧ Mongo._id doc = insertedId ∧ Mongo.c_reelId doc = reelId
    ∧ Mongo.text doc = "".
Proof.
  intros Hr Hu Ht Hm Hws. rewrite postComment_ok by done. cbv zeta.
  eexists. split; [reflexivity|]. simpl. repeat split.
  unfold Js.trim. by rewrite trim_start_blank.
Qed.

Lemma postComment_blank_text_witness :
  ∃ doc,
    Comments.postComment (healthy false) 100 "c1" demo_feed (Some "r") (Some "a")
      (Some "  ") None None
    = (with_comments demo_feed (comments demo_feed ++ [doc]), Comments.Posted doc)
    ∧ Mongo.text doc = "".
Proof.
  destruct (postComment_blank_text (healthy false) 100 "c1" demo_feed "r" "a" "  "
              None None) as (doc & H & _ & _ & Ht);
    [discriminate | discriminate | discriminate | reflexivity | repeat constructor |].
  by exists doc.
Defined.

(** ** A comment and the feed *)

Lemma top_level_snoc_top c r d n :
  Mongo.c_reelId d = r → Mongo.parentCommentId d = None →
  (∀ x, x ∈ c → Mongo.c_reelId x = r → Mongo.c_createdAt x < Mongo.c_createdAt d) →
  Mongo.top_level_comments (c ++ [d]) r (S n)
  = d :: Mongo.top_level_comments c r n.
Proof.
  intros Hr Hp Hnew. unfold Mongo.top_level_comments.
  rewrite filter_app, filter_cons_True, filter_nil by done.
  rewrite sort_newest_snoc; [done|].
  apply Forall_forall. intros x [[Hx1 _] Hx2]%list_elem_of_filter.
  specialize (Hnew x Hx2 Hx1). lia.
Qed.

Lemma top_level_snoc_other c r d n :
  ¬ (Mongo.c_reelId d = r ∧ Mongo.parentCommentId d = None) →
  Mongo.top_level_comments (c ++ [d]) r n = Mongo.top_level_comments c r n.
Proof.
  intros Hn. unfold Mongo.top_level_comments.
  by rewrite filter_app, filter_cons_False, filter_nil, app_nil_r.
Qed.

Lemma top_level_take c r :
  Mongo.top_level_comments c r 2 = take 2 (Mongo.top_level_comments c r 3).
Proof.
  unfold Mongo.top_level_comments. by rewrite take_take.
Qed.

(** X20.  A comment that was posted shows in the feed when it is a
    top-level comment: it is then the first of the comments of the
    entry of its reel, followed by the two newest that were shown
    before.  A reply, and a comment on another reel, change nothing in
    the entry. *)
Theorem posted_comment_in_feed (env : Env) (now : Z) (insertedId : string)
    (st : Stores) (reelId userId text : string)
    (username parentCommentId : option string) (r : Reels.ref)
    (e : Reels.enriched) :
  reelId ≠ "" → userId ≠ "" → text ≠ "" → mongo_throws env = false →
  (∀ c, c ∈ comments st → Mongo.c_reelId c = reelId → Mongo.c_createdAt c < now) →
  Reels.enrich_one env st r = Some e →
  ∃ doc,
    Comments.postComment env now insertedId st (Some reelId) (Some userId)
      (Some text) username parentCommentId
    = (with_comments st (comments st ++ [doc]), Comments.Posted doc)
    ∧ Reels.enrich_one env (with_comments st (comments st ++ [doc])) r
      = Some (if decide (Reels.reelIdString r = reelId
                         ∧ Js.truthy parentCommentId = false)
              then Reels.Enriched (Reels.id e) (Reels.mediaUrl e) (Reels.caption e)
                     (Reels.e_author e) (Reels.likesCount e)
                     (Reels.Comment insertedId (Js.trim text) userId
                        (Js.or_str (Mongo.c_username doc) "unknown") now
                      :: take 2 (Reels.e_comments e))
                     (Reels.e_createdAt e)
              else e).
Proof.
  intros Hr Hu Ht Hm Hnew He. rewrite postComment_ok by done. cbv zeta.
  eexists. split; [reflexivity|].
  set (doc := Mongo.CommentDoc _ _ _ _ _ _ _).
  unfold Reels.enrich_one in *. simpl.
  destruct (cassandra_throws env || enrich_throws env (Reels.reelId r)); [done|].
  destruct (reels st !! Reels.reelId r) as [reel|]; [|done].
  destruct (redis_throws env); [done|]. rewrite Hm in *.
  injection He as <-. simpl. f_equal.
  case_decide as Hd.
  - destruct Hd as [Hid Hp]. rewrite Hid.
    rewrite (top_level_snoc_top _ reelId doc 2); [| |  |]; cycle 1.
    { done. }
    { unfold doc. simpl. by rewrite Hp. }
    { intros x Hx Hxr. simpl. by apply Hnew. }
    csimpl. rewrite top_level_take, fmap_take. done.
  - rewrite top_level_snoc_other.
    { reflexivity. }
    intros [Hid Hp]. apply Hd. split; [by rewrite <- Hid|].
    unfold doc in Hp. simpl in Hp.
    destruct parentCommentId as [p|]; [|done]. simpl in *.
    by destruct (String.eqb p "").
Qed.

Lemma posted_comment_in_feed_witness :
  ∃ e doc,
    Reels.enrich_one (healthy false) demo_comments
      (Reels.timeline_ref ((30, 5%N), "u")) = Some e
    ∧ Reels.cm_id <$> Reels.e_comments e = ["c1"]
    ∧ Reels.enrich_one (healthy false)
        (with_comments demo_comments (comments demo_comments ++ [doc]))
        (Reels.timeline_ref ((30, 5%N), "u"))
      = Some (Reels.Enriched (Reels.id e) (Reels.mediaUrl e) (Reels.caption e)
                (Reels.e_author e) (Reels.likesCount e)
                (Reels.Comment "c3" "new" "u" "u" 102 :: take 2 (Reels.e_comments e))
                (Reels.e_createdAt e)).
Proof.
  destruct (Reels.enrich_one (healthy false) demo_comments
              (Reels.timeline_ref ((30, 5%N), "u"))) as [e|] eqn:E1;
    [|vm_compute in E1; discriminate].
  destruct (posted_comment_in_feed (healthy false) 102 "c3" demo_comments
              (Uuid.toString 5) "u"
              (String (ascii_of_nat 194) (String (ascii_of_nat 160) "new "))
              None None
              (Reels.timeline_ref ((30, 5%N), "u")) e)
    as (doc & Hp & He);
    [discriminate | discriminate | discriminate | reflexivity | | exact E1 |].
  - intros c Hc _. apply list_elem_of_In in Hc. vm_compute in Hc.
    destruct Hc as [<-|[<-|[]]]; reflexivity.
  - exists e, doc. split; [done|]. split.
    + vm_compute in E1. by injection E1 as <-.
    + rewrite He. rewrite decide_True by (split; reflexivity).
      vm_compute in Hp. injection Hp as <-. reflexivity.
Defined.

(** ** What a suggestion never is *)














(** ** Stories *)

Lemma story_insert_perm d l : Stories.insert_newest d l ≡ₚ d :: l.
Proof.
  induction l as [|x l IH]; simpl; [done|].
  destruct (_ <=? _); [done|]. rewrite IH. apply Permutation_swap.
Qed.

Lemma story_sort_perm l : Stories.sort_newest l ≡ₚ l.
Proof.
  unfold Stories.sort_newest. induction l as [|x l IH]; simpl; [done|].
  by rewrite story_insert_perm, IH.
Qed.

Lemma story_sort_sorted l :
  StronglySorted (λ a b, Stories.s_createdAt b <= Stories.s_createdAt a)
                 (Stories.sort_newest l).
Proof.
  unfold Stories.sort_newest. induction l as [|d l IH]; simpl; [constructor|].
  induction IH as [|x s Hs IHs Hall]; simpl.
  - constructor; constructor.
  - destruct (Z.leb_spec (Stories.s_createdAt x) (Stories.s_createdAt d)).
    + constructor; [by constructor|].
      constructor; [lia|].
      eapply Forall_impl; [exact Hall|]. intros y Hy. simpl in *. lia.
    + constructor; [done|].
      rewrite story_insert_perm. constructor; [simpl; lia|done].
Qed.

Lemma sorted_filter {A} (R : relation A) (P : A → Prop) `{∀ x, Decision (P x)}
    (l : list A) :
  StronglySorted R l → StronglySorted R (filter P l).
Proof.
  induction 1 as [|x l Hs IH Hall]; [constructor|].
  destruct (decide (P x)).
  - rewrite filter_cons_True by done. constructor; [done|].
    apply Forall_forall. intros y [_ Hy]%list_elem_of_filter.
    rewrite Forall_forall in Hall. by apply Hall.
  - by rewrite filter_cons_False.
Qed.

Lemma group_get m s m' k :
  Stories.group m s = Some m' →
  Js.obj_get m' k
  = if decide (Stories.s_userId s = k)
    then Some (default [] (Js.obj_get m k) ++ [s])
    else Js.obj_get m k.
Proof.
  unfold Stories.group.
  destruct (Js.obj_get m (Stories.s_userId s)) as [l|] eqn:E.
  - intros [= <-]. case_decide as Hk.
    + subst k. by rewrite obj_get_set_eq, E.
    + by rewrite obj_get_set_ne.
  - case_decide; [done|]. intros [= <-]. case_decide as Hk.
    + subst k. by rewrite obj_get_set_eq, E.
    + by rewrite obj_get_set_ne.
Qed.

Lemma group_NoDup m s m' :
  Stories.group m s = Some m' → NoDup (fst <$> m) → NoDup (fst <$> m').
Proof.
  unfold Stories.group. intros H Hm.
  repeat case_match; simplify_eq; by apply obj_set_NoDup.
Qed.

Lemma group_fold ss (m m' : Js.obj (list Stories.story)) k :
  foldl (λ acc s, acc ≫= λ m, Stories.group m s) (Some m) ss = Some m' →
  NoDup (fst <$> m) →
  NoDup (fst <$> m')
  ∧ Js.obj_get m' k
    = let f := filter (λ s, Stories.s_userId s = k) ss in
      match Js.obj_get m k with
      | Some l => Some (l ++ f)
      | None => if decide (f = []) then None else Some f
      end.
Proof.
  revert m. induction ss as [|s ss IH]; intros m H Hm.
  - simpl in H. injection H as <-. split; [done|]. simpl.
    destruct (Js.obj_get m k); [by rewrite app_nil_r|done].
  - cbn [foldl] in H. simpl in H.
    destruct (Stories.group m s) as [m1|] eqn:E.
    + destruct (IH m1 H (group_NoDup _ _ _ E Hm)) as [Hnd Hget].
      split; [done|]. rewrite Hget, (group_get _ _ _ k E). cbv zeta.
      case_decide as Hk.
      * rewrite filter_cons_True by done.
        rewrite decide_False by done.
        destruct (Js.obj_get m k); simpl; [by rewrite <- app_assoc|done].
      * by rewrite filter_cons_False.
    + exfalso. clear -H. induction ss as [|x ss IH]; [done|]. by apply IH.
Qed.

Lemma owner_id (docs : list Mongo.user_doc) (k : string) :
  Stories.o_id
    match Js.obj_get
            (foldl (λ m u, Js.obj_set m (Mongo.id u)
                             (Stories.Owner (Mongo.id u) (Mongo.username u)
                                            (Mongo.avatar u))) [] docs) k with
    | Some o => o
    | None => Stories.Owner k (Some "unknown") None
    end = k.
Proof.
  rewrite obj_fold_last. destruct (last _) as [u|] eqn:E; [|done].
  apply last_Some_elem_of, list_elem_of_filter in E as [E _]. done.
Qed.

Lemma active_of_elem stories ids now s :
  s ∈ Stories.active_of stories ids now
  ↔ s ∈ stories ∧ Stories.s_userId s ∈ ids ∧ now < Stories.s_expiresAt s.
Proof.
  unfold Stories.active_of. rewrite story_sort_perm, list_elem_of_filter. tauto.
Qed.

(** X22.  The answer of [GET /api/stories]: one group for each user who
    has a story to show, no user twice; the stories of a group are those
    of its user that have not expired, newest first; the users are the
    caller and those the caller follows; no such story is left out. *)
Theorem stories_grouped (env : Env) (now : Z) (stories : list Stories.story)
    (st : Stores) (uid : string) (result : list (Stories.owner * list Stories.story)) :
  Stories.getStories env now stories st (Some uid) = Stories.Grouped result →
  let F := Mongo.followedId <$> Mongo.find_by_follower (follows st) uid in
  (∀ o l, (o, l) ∈ result →
     l ≠ []
     ∧ l = filter (λ s, Stories.s_userId s = Stories.o_id o)
                  (Stories.active_of stories (F ++ [uid]) now)
     ∧ StronglySorted (λ a b, Stories.s_createdAt b <= Stories.s_createdAt a) l
     ∧ ∀ s, s ∈ l →
            s ∈ stories ∧ now < Stories.s_expiresAt s
            ∧ Stories.s_userId s = Stories.o_id o
            ∧ (Stories.s_userId s = uid ∨ Stories.s_userId s ∈ F))
  ∧ NoDup ((λ g, Stories.o_id g.1) <$> result)
  ∧ (∀ s, s ∈ stories → now < Stories.s_expiresAt s →
          Stories.s_userId s = uid ∨ Stories.s_userId s ∈ F →
          ∃ o l, (o, l) ∈ result ∧ Stories.o_id o = Stories.s_userId s ∧ s ∈ l).
Proof.
  intros H F. unfold Stories.getStories in H.
  destruct (negb (Js.truthy (Some uid))) eqn:Hu; [done|].
  destruct (mongo_throws env); [done|].
  assert (Huid : Js.or_str (Some uid) "" = uid).
  { simpl in *. by destruct (String.eqb uid ""). }
  rewrite Huid in H. fold F in H.
  set (active := Stories.active_of stories (F ++ [uid]) now) in *.
  destruct (Stories.group_all active) as [byUser|] eqn:Hg; [|done].
  injection H as <-.
  assert (Hnd : NoDup (fst <$> byUser))
    by (apply (group_fold active [] byUser "" Hg); constructor).
  assert (Hget : ∀ k, Js.obj_get byUser k
                      = let f := filter (λ s, Stories.s_userId s = k) active in
                        if decide (f = []) then None else Some f).
  { intros k. by destruct (group_fold active [] byUser k Hg (NoDup_nil_2)) as [_ ->]. }
  assert (Hkeys : ∀ k, k ∈ (fst <$> Js.entries byUser)
                       ↔ filter (λ s, Stories.s_userId s = k) active ≠ []).
  { intros k. rewrite entries_perm. split.
    - intros ([k' v] & -> & Hin)%list_elem_of_fmap. simpl.
      apply (elem_of_obj _ _ _ Hnd) in Hin. rewrite Hget in Hin. cbv zeta in Hin.
      by case_decide.
    - intros Hne. apply list_elem_of_fmap.
      exists (k, filter (λ s, Stories.s_userId s = k) active). split; [done|].
      apply (elem_of_obj _ _ _ Hnd). rewrite Hget. cbv zeta. by rewrite decide_False. }
  split; [|split].
  - intros o l (k & [= -> ->] & Hk)%list_elem_of_fmap.
    rewrite owner_id. apply Hkeys in Hk as Hne.
    rewrite Hget. cbv zeta. rewrite decide_False by done. simpl.
    split; [done|]. split; [done|]. split.
    + apply sorted_filter, story_sort_sorted.
    + intros s [Hs1 Hs2]%list_elem_of_filter.
      apply active_of_elem in Hs2 as (Hin & Hids & Hexp).
      repeat (split; [done|]).
      apply elem_of_app in Hids as [?|?%list_elem_of_singleton]; auto.
  - rewrite <- list_fmap_compose.
    rewrite (Forall_fmap_ext_1 _ id); [rewrite list_fmap_id|].
    + rewrite entries_perm. exact Hnd.
    + apply Forall_forall. intros k _. simpl. apply owner_id.
  - intros s Hs Hexp Hwho.
    assert (Hact : s ∈ active).
    { apply active_of_elem. split; [done|]. split; [|done].
      apply elem_of_app. destruct Hwho as [->|?]; [right; by apply list_elem_of_singleton|by left]. }
    assert (Hne : filter (λ x, Stories.s_userId x = Stories.s_userId s) active ≠ []).
    { intros E. assert (Hin : s ∈ filter (λ x, Stories.s_userId x = Stories.s_userId s) active)
        by (by apply list_elem_of_filter).
      rewrite E in Hin. by apply elem_of_nil in Hin. }
    eexists _, _. split; [|split].
    + apply list_elem_of_fmap. exists (Stories.s_userId s). split; [reflexivity|].
      by apply Hkeys.
    + apply owner_id.
    + rewrite Hget. cbv zeta. rewrite decide_False by done. simpl.
      by apply list_elem_of_filter.
Qed.

Lemma stories_grouped_witness :
  ∃ result : list (Stories.owner * list Stories.story),
    Stories.getStories (healthy false) 50 demo_stories demo_friends (Some "a")
    = Stories.Grouped result
    ∧ (λ g : Stories.owner * list Stories.story,
         (Stories.o_id g.1, Stories.s_id <$> g.2)) <$> result
      = [("a", ["s2"]); ("b", ["s1"])]
    ∧ NoDup ((λ g : Stories.owner * list Stories.story, Stories.o_id g.1)
               <$> result).
Proof.
  eexists. split; [reflexivity|]. split; [reflexivity|].
  exact (proj1 (proj2 (stories_grouped (healthy false) 50 demo_stories demo_friends
                         "a" _ eq_refl))).
Defined.

Lemma group_fold_none ss :
  foldl (λ acc s, acc ≫= λ m, Stories.group m s) None ss = None.
Proof. induction ss as [|s ss IH]; [done|exact IH]. Qed.

Lemma group_fold_inherited ss (m m' : Js.obj (list Stories.story)) x :
  foldl (λ acc s, acc ≫= λ m, Stories.group m s) (Some m) ss = Some m' →
  x ∈ ss → Stories.s_userId x ∈ Js.inherited →
  is_Some (Js.obj_get m (Stories.s_userId x)).
Proof.
  revert m. induction ss as [|s ss IH]; intros m H Hx Hinh.
  - by apply elem_of_nil in Hx.
  - cbn [foldl] in H. simpl in H.
    destruct (Stories.group m s) as [m1|] eqn:E;
      [|by rewrite group_fold_none in H].
    assert (Hs : Stories.s_userId s ∈ Js.inherited →
                 is_Some (Js.obj_get m (Stories.s_userId s))).
    { intros Hi. unfold Stories.group in E.
      destruct (Js.obj_get m (Stories.s_userId s)); [done|].
      by rewrite decide_True in E. }
    apply elem_of_cons in Hx as [->|Hx]; [by apply Hs|].
    specialize (IH m1 H Hx Hinh).
    rewrite (group_get _ _ _ _ E) in IH. case_decide as Hk; [|done].
    rewrite <- Hk. apply Hs. by rewrite Hk.
Qed.

(** X23.  A story that is to be shown and whose user id names a property
    that every object inherits makes the whole request fail with
    status 500. *)
Theorem stories_inherited_id_fails (env : Env) (now : Z)
    (stories : list Stories.story) (st : Stores) (uid : string) (s : Stories.story) :
  uid ≠ "" → mongo_throws env = false →
  s ∈ stories → now < Stories.s_expiresAt s →
  Stories.s_userId s = uid
  ∨ Stories.s_userId s
    ∈ (Mongo.followedId <$> Mongo.find_by_follower (follows st) uid) →
  Stories.s_userId s ∈ Js.inherited →
  Stories.getStories env now stories st (Some uid)
  = Stories.Error 500 "Failed to fetch stories".
Proof.
  intros Hu Hm Hs Hexp Hwho Hinh. unfold Stories.getStories.
  rewrite truthy_or_str, or_str_some, Hm by done. simpl.
  destruct (Stories.group_all _) as [byUser|] eqn:Hg; [|done].
  exfalso. unfold Stories.group_all in Hg.
  eapply group_fold_inherited in Hg as [v Hv]; [done| |exact Hinh].
  apply active_of_elem. split; [done|]. split; [|done].
  apply elem_of_app.
  destruct Hwho as [->|?]; [right; by apply list_elem_of_singleton|by left].
Qed.

Lemma stories_inherited_id_fails_witness :
  Stories.getStories (healthy false) 50
    (demo_stories ++ [Stories.Story "s5" "constructor" "m5" 45 100])
    demo_friends (Some "constructor")
  = Stories.Error 500 "Failed to fetch stories".
Proof.
  apply (stories_inherited_id_fails (healthy false) 50 _ demo_friends "constructor"
           (Stories.Story "s5" "constructor" "m5" 45 100));
    [discriminate | reflexivity | | reflexivity | by left | ].
  - apply elem_of_app. right. by apply list_elem_of_singleton.
  - apply list_elem_of_In. simpl. auto.
Defined.
